(** * MicrosoftImagePuzzleSolver: the 3x3 sliding puzzle and its solvers

    A shallow embedding of [matrix.py], [algorithm/__init__.py],
    [algorithm/search/bfs.py], [algorithm/search/dfs.py] and
    [algorithm/heuristic/genetic.py].

    Python integers are [Z].  A nested list is a [list (list Z)] read with
    stdpp's lookup and written with stdpp's insert, behind the bounds checks
    the source performs.  [util.fatal] (print, then [sys.exit]) and raised
    exceptions are the two abnormal results of the [outcome] monad.  The set
    built by [differentiate] is a [gset Z]; the dict [appeared] of the
    constructor is a [gmap Z bool]. *)

From Stdlib Require Import ZArith QArith Ascii String.
From stdpp Require Import base decidable option list gmap strings.

Local Open Scope Z_scope.

(** ** Results of fallible code *)

Inductive exception : Type :=
  | InvalidStepException
  | TypeError
  | IndexError
  | KeyError
  | ValueError
  | AttributeError.

Inductive outcome (A : Type) : Type :=
  | Ret (a : A)              (* normal completion *)
  | Exit                     (* util.fatal: message on stderr, sys.exit() *)
  | Raise (e : exception)    (* an uncaught Python exception *)
  | Diverge.                 (* the loop bound of the model was reached *)

Arguments Ret {A} a.
Arguments Exit {A}.
Arguments Raise {A} e.
Arguments Diverge {A}.

#[global] Instance outcome_ret : MRet outcome := fun A a => Ret a.

#[global] Instance outcome_bind : MBind outcome := fun A B k c =>
  match c with
  | Ret a => k a
  | Exit => Exit
  | Raise e => Raise e
  | Diverge => Diverge
  end.

#[global] Instance exception_eq_dec : EqDecision exception.
Proof. solve_decision. Defined.

(** ** matrix.py *)

Definition MATRIX_SIZE : Z := 3.
Definition SPACE_SYMBOL : ascii := "#"%char.
Definition SPACE_VALUE : Z := -1.

Fixpoint boundary_check (candidates : list Z) : bool :=
  match candidates with
  | [] => true
  | candidate :: rest =>
      if negb ((0 <=? candidate) && (candidate <? MATRIX_SIZE))
      then false
      else boundary_check rest
  end.

Inductive Direction : Type := LEFT | UP | RIGHT | DOWN.

#[global] Instance Direction_eq_dec : EqDecision Direction.
Proof. solve_decision. Defined.

(** [Direction.value] *)
Definition value (d : Direction) : Z * Z :=
  match d with
  | LEFT => (0, -1)
  | UP => (-1, 0)
  | RIGHT => (0, 1)
  | DOWN => (1, 0)
  end.

Definition DIRECTIONS : list Direction := [LEFT; UP; RIGHT; DOWN].

(** What [for direction in Direction] iterates over: the members of the
    enumeration in definition order. *)
Definition Direction_members : list Direction := [LEFT; UP; RIGHT; DOWN].

#[local] Unset Elimination Schemes.
Inductive Matrix : Type := Build_Matrix {
  _arrangement : list (list Z);
  _space_position : option (Z * Z);
  parent : option Matrix;
  last_direction : option Direction
}.
#[local] Set Elimination Schemes.

(** [Matrix()] with [data] being [None]. *)
Definition Matrix_empty : Matrix :=
  {| _arrangement :=
       replicate (Z.to_nat MATRIX_SIZE) (replicate (Z.to_nat MATRIX_SIZE) SPACE_VALUE);
     _space_position := None;
     parent := None;
     last_direction := None |}.

(** [__eq__]: the grids alone are compared. *)
Definition Matrix_eq (self other : Matrix) : bool :=
  bool_decide (_arrangement self = _arrangement other).

(** [x in xs] for a list of matrices goes through [__eq__]. *)
Definition Matrix_in (x : Matrix) (xs : list Matrix) : bool :=
  existsb (fun e => Matrix_eq e x) xs.

Fixpoint parents (self : Matrix) : list Matrix :=
  match self with
  | Build_Matrix _ _ (Some p) _ => p :: parents p
  | Build_Matrix _ _ None _ => []
  end.

Definition clone (self : Matrix) : Matrix :=
  {| _arrangement := _arrangement self;
     _space_position := _space_position self;
     parent := None;
     last_direction := None |}.

(** [self._arrangement[row][column]] once the bounds check has passed:
    both indices are non-negative, a missing row or column is an
    [IndexError]. *)
Definition cell (arrangement : list (list Z)) (row column : Z) : option Z :=
  arrangement !! Z.to_nat row ≫= fun line => line !! Z.to_nat column.

Definition set_cell (arrangement : list (list Z)) (row column number : Z)
  : option (list (list Z)) :=
  match arrangement !! Z.to_nat row with
  | Some line =>
      if decide (Z.to_nat column < length line)%nat
      then Some (<[Z.to_nat row := <[Z.to_nat column := number]> line]> arrangement)
      else None
  | None => None
  end.

Definition place (self : Matrix) (row column number : Z) : outcome Matrix :=
  if negb (boundary_check [row; column]) then Exit
  else
    let space_position :=
      if number =? SPACE_VALUE then Some (row, column) else _space_position self in
    match set_cell (_arrangement self) row column number with
    | Some arrangement =>
        Ret {| _arrangement := arrangement;
               _space_position := space_position;
               parent := parent self;
               last_direction := last_direction self |}
    | None => Raise IndexError
    end.

Definition fetch (self : Matrix) (row column : Z) : outcome Z :=
  if negb (boundary_check [row; column]) then Exit
  else match cell (_arrangement self) row column with
       | Some number => Ret number
       | None => Raise IndexError
       end.

Definition exchange (self : Matrix) (x1 y1 x2 y2 : Z) : outcome Matrix :=
  if negb (boundary_check [x1; x2; y1; y2]) then Ret self
  else
    temp ← fetch self x1 y1;
    other ← fetch self x2 y2;
    self ← place self x1 y1 other;
    place self x2 y2 temp.

(** The body the three [play] functions share (lines 168-176, 192-200 and
    213-221): the destination of the blank, the bounds check, and the clone
    with the two cells exchanged and its links set.  [None] stands for
    [continue] (or for [return None] in [play_only]). *)
Definition move (self : Matrix) (space_x space_y : Z) (direction : Direction)
  : outcome (option Matrix) :=
  let '(delta_x, delta_y) := value direction in
  let x := space_x + delta_x in
  let y := space_y + delta_y in
  if negb (boundary_check [x; y]) then Ret None
  else
    mat ← exchange (clone self) space_x space_y x y;
    Ret (Some {| _arrangement := _arrangement mat;
                 _space_position := _space_position mat;
                 parent := Some self;
                 last_direction := Some direction |}).

Fixpoint play_loop (self : Matrix) (space_x space_y : Z)
    (forbidden_directions : option (list Direction))
    (directions : list Direction) : outcome (list Matrix) :=
  match directions with
  | [] => Ret []
  | direction :: rest =>
      if match forbidden_directions with
         | Some forbidden => bool_decide (direction ∈ forbidden)
         | None => false
         end
      then play_loop self space_x space_y forbidden_directions rest
      else
        mat ← move self space_x space_y direction;
        new_matrices ← play_loop self space_x space_y forbidden_directions rest;
        Ret (match mat with
             | Some mat => mat :: new_matrices
             | None => new_matrices
             end)
  end.

(** [space_x, space_y = self._space_position] is a [TypeError] when the
    position is still [None]. *)
Definition play (self : Matrix) (forbidden_directions : option (list Direction))
  : outcome (list Matrix) :=
  match _space_position self with
  | Some (space_x, space_y) =>
      play_loop self space_x space_y forbidden_directions Direction_members
  | None => Raise TypeError
  end.

Definition play_towards (self : Matrix) (towards_directions : list Direction)
  : outcome (list Matrix) :=
  match _space_position self with
  | Some (space_x, space_y) =>
      play_loop self space_x space_y None towards_directions
  | None => Raise TypeError
  end.

Definition play_only (self : Matrix) (direction : Direction) : outcome (option Matrix) :=
  match _space_position self with
  | Some (space_x, space_y) => move self space_x space_y direction
  | None => Raise TypeError
  end.

(** *** The constructor, [Matrix(data)] *)

(** [str.strip()] on the code points below 256: the characters Python
    counts as white space there are 9-13, 28-32, 133 and 160. *)
Definition is_space (c : ascii) : bool :=
  let n := Z.of_N (N_of_ascii c) in
  ((9 <=? n) && (n <=? 13)) || ((28 <=? n) && (n <=? 32)) || (n =? 133) || (n =? 160).

Fixpoint lstrip (s : list ascii) : list ascii :=
  match s with
  | c :: rest => if is_space c then lstrip rest else s
  | [] => []
  end.

Definition strip (s : list ascii) : list ascii :=
  reverse (lstrip (reverse (lstrip s))).

(** [int(char)] for a one-character string: a decimal digit or a
    [ValueError]. *)
Definition int (char : ascii) : outcome Z :=
  let n := Z.of_N (N_of_ascii char) in
  if (48 <=? n) && (n <=? 57) then Ret (n - 48) else Raise ValueError.

(** [range(start, stop)] *)
Definition range (start stop : Z) : list Z := seqZ start (stop - start).

(** [{number: False for number in range(1, MATRIX_SIZE * MATRIX_SIZE)}] *)
Definition appeared_init : gmap Z bool :=
  list_to_map ((fun number => (number, false)) <$> range 1 (MATRIX_SIZE * MATRIX_SIZE)).

(** The inner loop, [for char_index, char in enumerate(line)], on the
    object under construction and the locals [spaced] and [appeared]. *)
Fixpoint init_chars (line_index char_index : Z) (line : list ascii)
    (st : Matrix * bool * gmap Z bool) : outcome (Matrix * bool * gmap Z bool) :=
  match line with
  | [] => Ret st
  | char :: rest =>
      let '(self, spaced, appeared) := st in
      if bool_decide (char = SPACE_SYMBOL) then
        if spaced then Exit
        else
          self ← place self line_index char_index SPACE_VALUE;
          init_chars line_index (char_index + 1) rest (self, true, appeared)
      else
        number ← int char;
        match appeared !! number with
        | None => Raise KeyError
        | Some true => Exit
        | Some false =>
            self ← place self line_index char_index number;
            init_chars line_index (char_index + 1) rest
              (self, spaced, <[number := true]> appeared)
        end
  end.

(** The outer loop, [for line_index, line in enumerate(data)]. *)
Fixpoint init_lines (line_index : Z) (data : list string)
    (st : Matrix * bool * gmap Z bool) : outcome (Matrix * bool * gmap Z bool) :=
  match data with
  | [] => Ret st
  | line :: rest =>
      if negb (boundary_check [line_index]) then Exit
      else
        let line := strip (list_ascii_of_string line) in
        if negb (Z.of_nat (length line) =? MATRIX_SIZE) then Exit
        else
          st ← init_chars line_index 0 line st;
          init_lines (line_index + 1) rest st
  end.

Definition Matrix_init (data : option (list string)) : outcome Matrix :=
  match data with
  | None => Ret Matrix_empty
  | Some data =>
      st ← init_lines 0 data (Matrix_empty, false, appeared_init);
      Ret st.1.1
  end.

(** ** algorithm/__init__.py *)

(** The cells in the order of [for i in range(3): for j in range(3)]. *)
Definition cells (n : Z) : list (Z * Z) :=
  i ← range 0 n; j ← range 0 n; [(i, j)].

Fixpoint differentiate_loop (old new : Matrix) (positions : list (Z * Z))
    (difference : gset Z) : outcome (gset Z) :=
  match positions with
  | [] => Ret difference
  | (i, j) :: rest =>
      old_number ← fetch old i j;
      new_number ← fetch new i j;
      differentiate_loop old new rest
        (if bool_decide (old_number ≠ new_number)
         then {[new_number]} ∪ ({[old_number]} ∪ difference)
         else difference)
  end.

Definition differentiate (old new : Matrix) : outcome (gset Z) :=
  differentiate_loop old new (cells 3) ∅.

(** [click] is [None] while the attribute has not been assigned. *)
Record SolutionStep : Type := Build_SolutionStep {
  click : option Z;
  target : Matrix
}.

(** [SolutionStep(old, new)].  The loop [for d in difference] assigns the
    first element other than [SPACE_VALUE] in the iteration order of the
    set; past the two checks the set has one such element only, so the
    order does not matter. *)
Definition SolutionStep_init (old new : Matrix) : outcome SolutionStep :=
  difference ← differentiate old new;
  if negb (bool_decide (size difference = 2%nat)) then Raise InvalidStepException
  else if negb (bool_decide (SPACE_VALUE ∈ difference)) then Raise InvalidStepException
  else
    Ret {| click := head (filter (fun d => d ≠ SPACE_VALUE) (elements difference));
           target := clone new |}.

(** A grid as the puzzle prints it, for the examples below. *)
Definition grid (rows : list string) : outcome Matrix := Matrix_init (Some rows).

Record SolutionAlgorithm : Type := Build_SolutionAlgorithm {
  initial : Matrix;
  final : Matrix
}.

Definition SolutionAlgorithm_init (initial_matrix final_matrix : Matrix) : SolutionAlgorithm :=
  {| initial := clone initial_matrix; final := clone final_matrix |}.

(** The path reconstruction both searches end with:
    [while target.parent is not None: steps.append(SolutionStep(target.parent, target));
    target = target.parent], then [steps[::-1]]. *)
Fixpoint walk_parents (target : Matrix) (steps : list SolutionStep)
  : outcome (list SolutionStep) :=
  match target with
  | Build_Matrix _ _ (Some p) _ =>
      step ← SolutionStep_init p target;
      walk_parents p (steps ++ [step])
  | Build_Matrix _ _ None _ => Ret steps
  end.

Definition reconstruct (target : Matrix) : outcome (list SolutionStep) :=
  steps ← walk_parents target [];
  Ret (reverse steps).

(** ** algorithm/search/bfs.py *)

(** The queue is a list, [put] appends and [get] takes the head.  Each
    round of [while matrix_queue.qsize() > 0] uses one unit of [fuel];
    leaving the loop returns [None]. *)
Fixpoint bfs_loop (fuel : nat) (final : Matrix) (matrix_queue : list Matrix)
  : outcome (option (list SolutionStep)) :=
  match fuel with
  | O => Diverge
  | S fuel =>
      match matrix_queue with
      | [] => Ret None
      | target :: matrix_queue =>
          if Matrix_eq target final then
            steps ← reconstruct target;
            Ret (Some steps)
          else
            new_targets ← play target None;
            bfs_loop fuel final
              (matrix_queue ++
               filter (fun new_target => negb (Matrix_in new_target (parents target)))
                 new_targets)
      end
  end.

Definition BreadthFirstSearch_solve (fuel : nat) (self : SolutionAlgorithm)
  : outcome (option (list SolutionStep)) :=
  bfs_loop fuel (final self) [initial self].

(** ** algorithm/search/dfs.py *)

Record DepthFirstSearch : Type := Build_DepthFirstSearch {
  dfs_base : SolutionAlgorithm;
  depth_limit : Z
}.

Definition DepthFirstSearch_init (depth_limit : Z) (initial_matrix final_matrix : Matrix)
  : DepthFirstSearch :=
  {| dfs_base := SolutionAlgorithm_init initial_matrix final_matrix;
     depth_limit := depth_limit |}.

(** [for child in children] of [_dfs]; [recurse] is the nested call
    [self._dfs(depth + 1, child)]. *)
Fixpoint for_child (recurse : Matrix -> outcome (option (list SolutionStep)))
    (final : Matrix) (children : list Matrix) : outcome (option (list SolutionStep)) :=
  match children with
  | [] => Ret None
  | child :: rest =>
      if Matrix_eq child final then
        steps ← reconstruct child;
        Ret (Some steps)
      else
        child_dfs ← recurse child;
        match child_dfs with
        | Some steps => Ret (Some steps)
        | None => for_child recurse final rest
        end
  end.

(** Each nested call of [_dfs] uses one unit of [fuel]. *)
Fixpoint _dfs (fuel : nat) (self : DepthFirstSearch) (depth : Z) (target : Matrix)
  : outcome (option (list SolutionStep)) :=
  match fuel with
  | O => Diverge
  | S fuel =>
      if depth >? depth_limit self then Ret None
      else
        let parents := parents target in
        candidates ← play target None;
        let children :=
          filter (fun candidate => negb (Matrix_in candidate parents)) candidates in
        for_child (_dfs fuel self (depth + 1)) (final (dfs_base self)) children
  end.

Definition DepthFirstSearch_solve (fuel : nat) (self : DepthFirstSearch)
  : outcome (option (list SolutionStep)) :=
  _dfs fuel self 1 (initial (dfs_base self)).

(** ** algorithm/heuristic/genetic.py *)

Definition POPULATION_SIZE : Z := 32768.
Definition FINAL_ADAPTIVITY : Z := 123456.
Definition CROSSOVER_RANGE : Z := POPULATION_SIZE `div` 2.
Definition CROSSOVER_POSSIBILITY : Q := 1 # 2.
Definition MUTATE_POSSIBILITY : Q := 1 # 100.
Definition EVOLUTION_ROUND : Z := 100.

(** The inner two loops of [positional_adaptivity], over the cells
    [(m, n)] of [ideal]. *)
Fixpoint positional_inner (ideal : Matrix) (element i j : Z)
    (positions : list (Z * Z)) (value : Z) : outcome Z :=
  match positions with
  | [] => Ret value
  | (m, n) :: rest =>
      number ← fetch ideal m n;
      positional_inner ideal element i j rest
        (if number =? element then value - (Z.abs (i - m) + Z.abs (j - n)) ^ 2 else value)
  end.

(** The outer two loops, over the cells [(i, j)] of [target]. *)
Fixpoint positional_outer (target ideal : Matrix)
    (positions : list (Z * Z)) (value : Z) : outcome Z :=
  match positions with
  | [] => Ret value
  | (i, j) :: rest =>
      element ← fetch target i j;
      value ← positional_inner ideal element i j (cells MATRIX_SIZE) value;
      positional_outer target ideal rest value
  end.

Definition positional_adaptivity (target ideal : Matrix) : outcome Z :=
  positional_outer target ideal (cells MATRIX_SIZE) 0.

Record Individual : Type := Build_Individual {
  gene : list Direction;
  adaptivity : Z
}.

Definition Individual_clone (self : Individual) : Individual :=
  {| gene := gene self; adaptivity := adaptivity self |}.

(** How the loop of [calculate_adaptivity] ends: by [return] at index [i],
    or by [break] or exhaustion with the locals [adaptivity] and
    [last_candidate]. *)
Inductive replayed : Type :=
  | Returned (i : Z)
  | Left_loop (adaptivity : Z) (last_candidate : Matrix).

(** [for i, direction in enumerate(self.gene)] *)
Fixpoint replay (final : Matrix) (i : Z) (genes : list Direction)
    (candidate last_candidate : Matrix) (adaptivity : Z) : outcome replayed :=
  match genes with
  | [] => Ret (Left_loop adaptivity last_candidate)
  | direction :: rest =>
      let last_candidate := candidate in
      candidate ← play_only candidate direction;
      match candidate with
      | None => Ret (Left_loop (adaptivity + i) last_candidate)
      | Some candidate =>
          if Matrix_eq candidate final then Ret (Returned i)
          else replay final (i + 1) rest candidate last_candidate adaptivity
      end
  end.

Definition calculate_adaptivity (self : Individual) (initial final : Matrix)
  : outcome Individual :=
  let candidate := clone initial in
  r ← replay final 0 (gene self) candidate candidate 0;
  match r with
  | Returned i =>
      Ret {| gene := take (Z.to_nat (i + 1)) (gene self);
             adaptivity := FINAL_ADAPTIVITY |}
  | Left_loop adaptivity last_candidate =>
      value ← positional_adaptivity last_candidate final;
      Ret {| gene := gene self; adaptivity := adaptivity + value |}
  end.

Record GeneticAlgorithm : Type := Build_GeneticAlgorithm {
  ga_base : SolutionAlgorithm;
  ga_depth_limit : Z;
  population : list Individual
}.

(** [list.sort(reverse=True, key=...)]: descending, and stable (elements
    with equal keys keep their order). *)
Fixpoint insert_desc (x : Individual) (sorted : list Individual) : list Individual :=
  match sorted with
  | [] => [x]
  | y :: rest =>
      if adaptivity y >? adaptivity x then y :: insert_desc x rest
      else x :: sorted
  end.

Definition sort_desc (l : list Individual) : list Individual :=
  foldr insert_desc [] l.

(** [for individual in self.population: individual.calculate_adaptivity(...)] *)
Fixpoint evaluate_all (population : list Individual) (initial final : Matrix)
  : outcome (list Individual) :=
  match population with
  | [] => Ret []
  | individual :: rest =>
      individual ← calculate_adaptivity individual initial final;
      rest ← evaluate_all rest initial final;
      Ret (individual :: rest)
  end.

(** The replay of the best genome in [_evaluate].  When [play_only] gives
    [None], [SolutionStep(last_matrix, None)] fails in [differentiate] on
    [None.fetch]. *)
Fixpoint evaluate_steps (genes : list Direction) (last_matrix : Matrix)
    (steps : list SolutionStep) : outcome (list SolutionStep) :=
  match genes with
  | [] => Ret steps
  | g :: rest =>
      current_matrix ← play_only last_matrix g;
      match current_matrix with
      | None => _ ← fetch last_matrix 0 0; Raise AttributeError
      | Some current_matrix =>
          step ← SolutionStep_init last_matrix current_matrix;
          evaluate_steps rest current_matrix (steps ++ [step])
      end
  end.

(** [_evaluate] returns its result next to the object it has updated. *)
Definition _evaluate (self : GeneticAlgorithm)
  : outcome (GeneticAlgorithm * option (list SolutionStep)) :=
  evaluated ← evaluate_all (population self) (initial (ga_base self)) (final (ga_base self));
  let self := {| ga_base := ga_base self;
                 ga_depth_limit := ga_depth_limit self;
                 population := sort_desc evaluated |} in
  match population self with
  | [] => Raise IndexError
  | best :: _ =>
      if adaptivity best =? FINAL_ADAPTIVITY then
        steps ← evaluate_steps (gene best) (clone (initial (ga_base self))) [];
        Ret (self, Some steps)
      else Ret (self, None)
  end.

(** *** The random source

    The module [random] is a stream of draws read through a cursor: the
    [k]-th draw answers either as an integer ([choice], [randrange]) or as
    a number of the unit interval ([random]). *)
Record Random : Type := Build_Random {
  integer : nat -> Z;
  uniform : nat -> Q
}.

(** [random.choice(seq)]: an [IndexError] on an empty sequence. *)
Definition choice {A : Type} (rnd : Random) (k : nat) (seq : list A) : outcome A :=
  match seq !! Z.to_nat (integer rnd k `mod` Z.of_nat (length seq)) with
  | Some x => Ret x
  | None => Raise IndexError
  end.

(** [random.randrange(stop)]: a [ValueError] on an empty range. *)
Definition randrange (rnd : Random) (k : nat) (stop : Z) : outcome Z :=
  if stop <=? 0 then Raise ValueError
  else Ret (integer rnd k `mod` stop).

(** [random.random() < p] *)
Definition random_below (rnd : Random) (k : nat) (p : Q) : bool :=
  match (uniform rnd k ?= p)%Q with
  | Lt => true
  | _ => false
  end.

(** [while len(new_population) < POPULATION_SIZE]: one unit of [fuel] per
    round, the cursor [k] of the random source passed along. *)
Fixpoint select_loop (fuel : nat) (rnd : Random) (k : nat)
    (population new_population : list Individual) : outcome (list Individual * nat) :=
  if Z.of_nat (length new_population) <? POPULATION_SIZE then
    match fuel with
    | O => Diverge
    | S fuel =>
        a ← choice rnd k population;
        b ← choice rnd (k + 1) population;
        select_loop fuel rnd (k + 2) population
          (new_population ++
           [if adaptivity a >=? adaptivity b then Individual_clone a else Individual_clone b])
    end
  else Ret (new_population, k).

Definition _select (fuel : nat) (rnd : Random) (k : nat) (self : GeneticAlgorithm)
  : outcome (GeneticAlgorithm * nat) :=
  r ← select_loop fuel rnd k (population self) [];
  Ret ({| ga_base := ga_base self;
          ga_depth_limit := ga_depth_limit self;
          population := r.1 |}, r.2).

(** [while pos_b == pos_a: pos_b = random.randrange(self.depth_limit)] *)
Fixpoint resample (fuel : nat) (rnd : Random) (k : nat) (depth_limit pos_a pos_b : Z)
  : outcome (Z * nat) :=
  if pos_b =? pos_a then
    match fuel with
    | O => Diverge
    | S fuel =>
        pos_b ← randrange rnd k depth_limit;
        resample fuel rnd (k + 1) depth_limit pos_a pos_b
    end
  else Ret (pos_b, k).

(** [gene[pos_a], gene[pos_b] = gene[pos_b], gene[pos_a]]: both reads come
    first, an index past the end is an [IndexError]. *)
Definition swap_genes (gene : list Direction) (pos_a pos_b : Z) : outcome (list Direction) :=
  match gene !! Z.to_nat pos_b, gene !! Z.to_nat pos_a with
  | Some gene_b, Some gene_a =>
      Ret (<[Z.to_nat pos_b := gene_a]> (<[Z.to_nat pos_a := gene_b]> gene))
  | _, _ => Raise IndexError
  end.

(** [for individual in self.population] of [_mutate]; [fuel] bounds each
    run of the resampling loop. *)
Fixpoint mutate_loop (fuel : nat) (rnd : Random) (k : nat) (depth_limit : Z)
    (population : list Individual) : outcome (list Individual * nat) :=
  match population with
  | [] => Ret ([], k)
  | individual :: rest =>
      let mutate := if random_below rnd k MUTATE_POSSIBILITY then true else false in
      let k := (k + 1)%nat in
      if mutate then
        pos_a ← randrange rnd k depth_limit;
        pos_b ← randrange rnd (k + 1) depth_limit;
        r ← resample fuel rnd (k + 2) depth_limit pos_a pos_b;
        gene ← swap_genes (gene individual) pos_a r.1;
        r' ← mutate_loop fuel rnd r.2 depth_limit rest;
        Ret ({| gene := gene; adaptivity := adaptivity individual |} :: r'.1, r'.2)
      else
        r' ← mutate_loop fuel rnd k depth_limit rest;
        Ret (individual :: r'.1, r'.2)
  end.

Definition _mutate (fuel : nat) (rnd : Random) (k : nat) (self : GeneticAlgorithm)
  : outcome (GeneticAlgorithm * nat) :=
  r ← mutate_loop fuel rnd k (ga_depth_limit self) (population self);
  Ret ({| ga_base := ga_base self;
          ga_depth_limit := ga_depth_limit self;
          population := r.1 |}, r.2).

(** *** Crossover

    [random.choice(self.population)] as the position drawn.  The
    individuals of a population are distinct objects with gene lists of
    their own (every caller passes the clones [_select] has just made), so
    [b is a] compares positions, and writing to one individual leaves the
    others as they are. *)
Definition choice_index (rnd : Random) (k : nat) (n : nat) : outcome nat :=
  if decide (n = 0%nat) then Raise IndexError
  else Ret (Z.to_nat (integer rnd k `mod` Z.of_nat n)).

(** [while b is a: b = random.choice(self.population)] *)
Fixpoint redraw (fuel : nat) (rnd : Random) (k : nat) (n a b : nat) : outcome (nat * nat) :=
  if decide (b = a) then
    match fuel with
    | O => Diverge
    | S fuel =>
        b ← choice_index rnd k n;
        redraw fuel rnd (k + 1) n a b
    end
  else Ret (b, k).

(** [for i in range(self.depth_limit)] on the genes of [a] and [b]:
    [a.gene[i], b.gene[i] = b.gene[i], a.gene[i]] reads both genes first,
    an index past the end is an [IndexError]. *)
Fixpoint cross_genes (rnd : Random) (k : nat) (positions : list Z)
    (gene_a gene_b : list Direction) : outcome (list Direction * list Direction * nat) :=
  match positions with
  | [] => Ret (gene_a, gene_b, k)
  | i :: rest =>
      let swap := if random_below rnd k CROSSOVER_POSSIBILITY then true else false in
      if swap then
        match gene_b !! Z.to_nat i, gene_a !! Z.to_nat i with
        | Some from_b, Some from_a =>
            cross_genes rnd (k + 1) rest
              (<[Z.to_nat i := from_b]> gene_a) (<[Z.to_nat i := from_a]> gene_b)
        | _, _ => Raise IndexError
        end
      else cross_genes rnd (k + 1) rest gene_a gene_b
  end.

(** [for _ in range(CROSSOVER_RANGE)]; [fuel] bounds each run of the
    redrawing loop. *)
Fixpoint crossover_loop (fuel : nat) (rnd : Random) (k : nat) (depth_limit : Z)
    (rounds : nat) (population : list Individual) : outcome (list Individual * nat) :=
  match rounds with
  | O => Ret (population, k)
  | S rounds =>
      a ← choice_index rnd k (length population);
      b ← choice_index rnd (k + 1) (length population);
      r ← redraw fuel rnd (k + 2) (length population) a b;
      match population !! a, population !! r.1 with
      | Some individual_a, Some individual_b =>
          g ← cross_genes rnd r.2 (range 0 depth_limit) (gene individual_a) (gene individual_b);
          crossover_loop fuel rnd g.2 depth_limit rounds
            (<[r.1 := {| gene := g.1.2; adaptivity := adaptivity individual_b |}]>
               (<[a := {| gene := g.1.1; adaptivity := adaptivity individual_a |}]> population))
      | _, _ => Raise IndexError
      end
  end.

Definition _crossover (fuel : nat) (rnd : Random) (k : nat) (self : GeneticAlgorithm)
  : outcome (GeneticAlgorithm * nat) :=
  r ← crossover_loop fuel rnd k (ga_depth_limit self) (Z.to_nat CROSSOVER_RANGE)
        (population self);
  Ret ({| ga_base := ga_base self;
          ga_depth_limit := ga_depth_limit self;
          population := r.1 |}, r.2).

(** *** [GeneticAlgorithm.solve]

    [for r in range(EVOLUTION_ROUND)]; what [print] writes between the
    evaluation and the selection is left out. *)
Fixpoint solve_loop (fuel : nat) (rnd : Random) (k : nat) (rounds : nat)
    (self : GeneticAlgorithm) : outcome (option (list SolutionStep)) :=
  match rounds with
  | O => Ret None
  | S rounds =>
      e ← _evaluate self;
      match e.2 with
      | Some evaluation => Ret (Some evaluation)
      | None =>
          s ← _select fuel rnd k e.1;
          c ← _crossover fuel rnd s.2 s.1;
          m ← _mutate fuel rnd c.2 c.1;
          solve_loop fuel rnd m.2 rounds m.1
      end
  end.

Definition GeneticAlgorithm_solve (fuel : nat) (rnd : Random) (k : nat)
    (self : GeneticAlgorithm) : outcome (option (list SolutionStep)) :=
  solve_loop fuel rnd k (Z.to_nat EVOLUTION_ROUND) self.

(** * Properties *)

(** ** States of the puzzle

    A state is a 3x3 grid whose cached blank position is the one cell that
    holds [SPACE_VALUE].  Both parts are equations between computable
    values. *)

Definition blanks (arrangement : list (list Z)) : list (Z * Z) :=
  filter (fun p => cell arrangement p.1 p.2 = Some SPACE_VALUE) (cells MATRIX_SIZE).

Definition shaped (arrangement : list (list Z)) : Prop :=
  length <$> arrangement = [3; 3; 3]%nat.

Definition state (m : Matrix) : Prop :=
  shaped (_arrangement m) ∧
  (fun p => [p]) <$> _space_position m = Some (blanks (_arrangement m)).

Definition in_bounds (i j : Z) : Prop := 0 <= i < MATRIX_SIZE ∧ 0 <= j < MATRIX_SIZE.

Lemma Matrix_ind (P : Matrix -> Prop) :
  (∀ a s d, P (Build_Matrix a s None d)) ->
  (∀ a s p d, P p -> P (Build_Matrix a s (Some p) d)) ->
  ∀ m, P m.
Proof.
  intros Hroot Hchild. fix IH 1. intros [a s [p|] d].
  - apply Hchild, IH.
  - apply Hroot.
Qed.

Lemma boundary_check_one i : boundary_check [i] = true <-> 0 <= i < MATRIX_SIZE.
Proof.
  unfold boundary_check, MATRIX_SIZE.
  destruct (0 <=? i) eqn:H0, (i <? 3) eqn:H1; simpl; split; try done; lia.
Qed.

Lemma boundary_check_cons i l :
  boundary_check (i :: l) = true <-> 0 <= i < MATRIX_SIZE ∧ boundary_check l = true.
Proof.
  unfold MATRIX_SIZE. cbn [boundary_check]. unfold MATRIX_SIZE.
  destruct (0 <=? i) eqn:H0, (i <? 3) eqn:H1; simpl; intuition (try done; lia).
Qed.

Lemma boundary_check_two i j : boundary_check [i; j] = true <-> in_bounds i j.
Proof.
  unfold in_bounds. rewrite boundary_check_cons.
  pose proof (boundary_check_one j). tauto.
Qed.

Lemma boundary_check_four x1 x2 y1 y2 :
  boundary_check [x1; x2; y1; y2] = true <-> in_bounds x1 y1 ∧ in_bounds x2 y2.
Proof.
  unfold in_bounds. rewrite boundary_check_cons.
  pose proof (boundary_check_cons x2 [y1; y2]).
  pose proof (boundary_check_cons y1 [y2]).
  pose proof (boundary_check_one y2). tauto.
Qed.

Lemma in_bounds_cases i j :
  in_bounds i j -> (i = 0 ∨ i = 1 ∨ i = 2) ∧ (j = 0 ∨ j = 1 ∨ j = 2).
Proof. unfold in_bounds, MATRIX_SIZE. lia. Qed.

Lemma elem_of_cells i j : (i, j) ∈ cells MATRIX_SIZE <-> in_bounds i j.
Proof.
  unfold cells, range, in_bounds. rewrite list_elem_of_bind. split.
  - intros (i' & Hj & Hi). apply list_elem_of_bind in Hj as (j' & Hp & Hj).
    apply list_elem_of_singleton in Hp. inversion Hp; subst.
    apply elem_of_seqZ in Hi, Hj. lia.
  - intros [Hi Hj]. exists i. split; [|apply elem_of_seqZ; lia].
    apply list_elem_of_bind. exists j. split; [by apply list_elem_of_singleton|].
    apply elem_of_seqZ; lia.
Qed.

Lemma shaped_inv arrangement :
  shaped arrangement ->
  ∃ a b c d e f g h i, arrangement = [[a; b; c]; [d; e; f]; [g; h; i]].
Proof.
  unfold shaped. intros H.
  destruct arrangement as [|[|a [|b [|c [|]]]] [|[|d [|e [|f [|]]]] [|[|g [|h [|i [|]]]] [|]]]];
    try discriminate H.
  by exists a, b, c, d, e, f, g, h, i.
Qed.

Lemma shaped_cell arrangement i j :
  shaped arrangement -> in_bounds i j -> is_Some (cell arrangement i j).
Proof.
  intros (a & b & c & d & e & f & g & h & k & ->)%shaped_inv Hb.
  apply in_bounds_cases in Hb as [[->|[->| ->]] [->|[->| ->]]]; by eexists.
Qed.

Lemma set_cell_spec arrangement r c v :
  shaped arrangement -> in_bounds r c ->
  ∃ arrangement',
    set_cell arrangement r c v = Some arrangement' ∧ shaped arrangement' ∧
    ∀ i j, in_bounds i j ->
      cell arrangement' i j = if decide ((i, j) = (r, c)) then Some v else cell arrangement i j.
Proof.
  intros (a & b & c' & d & e & f & g & h & k & ->)%shaped_inv Hb.
  apply in_bounds_cases in Hb as [[->|[->| ->]] [->|[->| ->]]];
    (eexists; split; [reflexivity|]; split; [reflexivity|]; intros i j Hij;
     apply in_bounds_cases in Hij as [[->|[->| ->]] [->|[->| ->]]];
     case_decide; try done; congruence).
Qed.

Lemma singleton_list {A : Type} (l : list A) (p : A) :
  NoDup l -> (∀ q, q ∈ l <-> q = p) -> l = [p].
Proof.
  intros Hnd Hl. destruct l as [|a l].
  - exfalso. eapply not_elem_of_nil, Hl. reflexivity.
  - assert (a = p) as -> by (apply Hl; left).
    destruct l as [|b l]; [done|].
    assert (b = p) as -> by (apply Hl; right; left).
    apply NoDup_cons in Hnd as [Hnd _]. exfalso. apply Hnd. left.
Qed.

Lemma NoDup_cells : NoDup (cells MATRIX_SIZE).
Proof. apply (bool_decide_unpack _). by vm_compute. Qed.

Lemma elem_of_blanks arrangement i j :
  (i, j) ∈ blanks arrangement <-> cell arrangement i j = Some SPACE_VALUE ∧ in_bounds i j.
Proof. unfold blanks. rewrite list_elem_of_filter, elem_of_cells. reflexivity. Qed.

(** The same invariant, cell by cell. *)
Lemma state_spec m :
  state m <->
  shaped (_arrangement m) ∧
  ∃ x y, _space_position m = Some (x, y) ∧ in_bounds x y ∧
    ∀ i j, in_bounds i j -> (cell (_arrangement m) i j = Some SPACE_VALUE <-> (i, j) = (x, y)).
Proof.
  unfold state. split; intros [Hs H]; (split; [done|]).
  - destruct (_space_position m) as [[x y]|]; [|done]. simpl in H.
    injection H as H. exists x, y. split; [done|].
    assert (Hin : ∀ i j, (i, j) ∈ blanks (_arrangement m) <-> (i, j) = (x, y)).
    { intros i j. rewrite <- H. apply list_elem_of_singleton. }
    split.
    + apply (elem_of_blanks (_arrangement m)), Hin. reflexivity.
    + intros i j Hij. rewrite <- Hin, elem_of_blanks. tauto.
  - destruct H as (x & y & -> & Hxy & H). simpl. f_equal. symmetry.
    apply singleton_list.
    + apply NoDup_filter, NoDup_cells.
    + intros [i j]. rewrite elem_of_blanks. split.
      * intros [Hc Hij]. by apply H.
      * intros [= -> ->]. split; [|done]. by apply H.
Qed.

Lemma fetch_spec m i j :
  shaped (_arrangement m) -> in_bounds i j ->
  ∃ v, fetch m i j = Ret v ∧ cell (_arrangement m) i j = Some v.
Proof.
  intros Hs Hij. destruct (shaped_cell _ _ _ Hs Hij) as [v Hv].
  exists v. split; [|done]. unfold fetch.
  apply boundary_check_two in Hij. by rewrite Hij, Hv.
Qed.

Lemma fetch_Ret m i j v :
  fetch m i j = Ret v <-> in_bounds i j ∧ cell (_arrangement m) i j = Some v.
Proof.
  unfold fetch. rewrite <- boundary_check_two.
  destruct (boundary_check [i; j]); simpl.
  - destruct (cell (_arrangement m) i j); split; try done.
    + by intros [= ->].
    + by intros [_ [= ->]].
    + by intros [_ ?].
  - split; [done|]. by intros [? _].
Qed.

Lemma place_spec m r c v :
  shaped (_arrangement m) -> in_bounds r c ->
  ∃ m', place m r c v = Ret m' ∧ shaped (_arrangement m') ∧
    _space_position m' = (if v =? SPACE_VALUE then Some (r, c) else _space_position m) ∧
    parent m' = parent m ∧ last_direction m' = last_direction m ∧
    ∀ i j, in_bounds i j ->
      cell (_arrangement m') i j =
        if decide ((i, j) = (r, c)) then Some v else cell (_arrangement m) i j.
Proof.
  intros Hs Hrc. destruct (set_cell_spec _ r c v Hs Hrc) as (a' & Ha' & Hs' & Hc).
  eexists. unfold place. apply boundary_check_two in Hrc. rewrite Hrc, Ha'. simpl.
  split; [reflexivity|]. simpl. done.
Qed.

(** [exchange] within bounds: the two cells trade their numbers, and the
    cached position follows the last [place] that wrote [SPACE_VALUE]. *)
Lemma exchange_spec m x1 y1 x2 y2 :
  shaped (_arrangement m) -> in_bounds x1 y1 -> in_bounds x2 y2 ->
  ∃ m' t o,
    exchange m x1 y1 x2 y2 = Ret m' ∧
    cell (_arrangement m) x1 y1 = Some t ∧ cell (_arrangement m) x2 y2 = Some o ∧
    shaped (_arrangement m') ∧
    _space_position m' =
      (if t =? SPACE_VALUE then Some (x2, y2)
       else if o =? SPACE_VALUE then Some (x1, y1) else _space_position m) ∧
    parent m' = parent m ∧ last_direction m' = last_direction m ∧
    ∀ i j, in_bounds i j ->
      cell (_arrangement m') i j =
        if decide ((i, j) = (x2, y2)) then Some t
        else if decide ((i, j) = (x1, y1)) then Some o
        else cell (_arrangement m) i j.
Proof.
  intros Hs H1 H2.
  destruct (fetch_spec m x1 y1 Hs H1) as (t & Ht & Hct).
  destruct (fetch_spec m x2 y2 Hs H2) as (o & Ho & Hco).
  destruct (place_spec m x1 y1 o Hs H1) as (m1 & Hm1 & Hs1 & Hp1 & Hpar1 & Hld1 & Hc1).
  destruct (place_spec m1 x2 y2 t Hs1 H2) as (m2 & Hm2 & Hs2 & Hp2 & Hpar2 & Hld2 & Hc2).
  exists m2, t, o. unfold exchange.
  rewrite (proj2 (boundary_check_four x1 x2 y1 y2) (conj H1 H2)). simpl.
  rewrite Ht. simpl. rewrite Ho. simpl. rewrite Hm1. simpl.
  repeat split; try done.
  - rewrite Hp2, Hp1. reflexivity.
  - congruence.
  - congruence.
  - intros i j Hij. rewrite Hc2 by done. case_decide; [done|]. by apply Hc1.
Qed.

Lemma exchange_out m x1 y1 x2 y2 :
  ¬ (in_bounds x1 y1 ∧ in_bounds x2 y2) -> exchange m x1 y1 x2 y2 = Ret m.
Proof.
  intros H. unfold exchange. rewrite <- boundary_check_four in H.
  by destruct (boundary_check [x1; x2; y1; y2]).
Qed.

(** [exchange] keeps the invariant whatever the two cells are. *)
Lemma exchange_state m x1 y1 x2 y2 :
  state m -> ∃ m', exchange m x1 y1 x2 y2 = Ret m' ∧ state m'.
Proof.
  intros Hm. destruct (decide (in_bounds x1 y1 ∧ in_bounds x2 y2)) as [[H1 H2]|Hout];
    [|exists m; split; [by apply exchange_out|done]].
  pose proof Hm as (Hs & x & y & Hsp & Hxy & Hb)%state_spec.
  destruct (exchange_spec m x1 y1 x2 y2 Hs H1 H2)
    as (m' & t & o & He & Ht & Ho & Hs' & Hsp' & _ & _ & Hc).
  exists m'. split; [done|]. apply state_spec. split; [done|].
  pose proof (Hb x1 y1 H1) as Hb1. pose proof (Hb x2 y2 H2) as Hb2.
  rewrite Ht in Hb1. rewrite Ho in Hb2.
  destruct (t =? SPACE_VALUE) eqn:Et; [|destruct (o =? SPACE_VALUE) eqn:Eo].
  - apply Z.eqb_eq in Et as ->. exists x2, y2. split; [done|]. split; [done|]. intros i j Hij. split.
    + rewrite Hc by done. case_decide; [done|]. case_decide as Hp.
      * intros [= ->]. assert ((x2, y2) = (x, y)) by (by apply Hb2).
        assert ((x1, y1) = (x, y)) by (by apply Hb1). congruence.
      * intros Hv. apply Hb in Hv; [|done].
        assert ((x1, y1) = (x, y)) by (by apply Hb1). congruence.
    + intros [= -> ->]. rewrite Hc by done. by rewrite decide_True.
  - apply Z.eqb_eq in Eo as ->. apply Z.eqb_neq in Et.
    assert ((x2, y2) = (x, y)) as Hp2 by (by apply Hb2).
    exists x1, y1. split; [done|]. split; [done|]. intros i j Hij. split.
    + rewrite Hc by done. case_decide; [by intros [= ->]|]. case_decide; [done|].
      intros Hv. apply Hb in Hv; [|done]. congruence.
    + intros [= -> ->]. rewrite Hc by done. case_decide as Hq.
      * exfalso. apply Et. assert ((x1, y1) = (x, y)) as Hp1 by congruence.
        apply Hb1 in Hp1. congruence.
      * by rewrite decide_True.
  - apply Z.eqb_neq in Et, Eo. exists x, y. split; [congruence|]. split; [done|]. intros i j Hij. split.
    + rewrite Hc by done. case_decide; [by intros [= ->]|].
      case_decide; [by intros [= ->]|]. by apply Hb.
    + intros [= -> ->]. rewrite Hc by done.
      case_decide as Hq2.
      { exfalso. apply Eo. symmetry in Hq2. apply Hb2 in Hq2. congruence. }
      case_decide as Hq1.
      { exfalso. apply Et. symmetry in Hq1. apply Hb1 in Hq1. congruence. }
      by apply Hb.
Qed.

Lemma state_ext m m' :
  _arrangement m' = _arrangement m -> _space_position m' = _space_position m ->
  state m -> state m'.
Proof. unfold state. by intros -> ->. Qed.

Lemma state_clone m : state m -> state (clone m).
Proof. by apply state_ext. Qed.

(** Grid-equal states have the same cached blank. *)
Lemma state_space_eq m m' :
  state m -> state m' -> _arrangement m = _arrangement m' ->
  _space_position m = _space_position m'.
Proof.
  unfold state. intros [_ H] [_ H'] E. rewrite <- E in H'.
  destruct (_space_position m) as [p|], (_space_position m') as [p'|]; simpl in *; congruence.
Qed.

(** The cell the blank of [m] moves to in direction [d]. *)
Definition destination (x y : Z) (d : Direction) : Z * Z :=
  (x + (value d).1, y + (value d).2).

Lemma destination_neq x y d : destination x y d ≠ (x, y).
Proof. destruct d; unfold destination; simpl; intros [= ? ?]; lia. Qed.

Lemma move_out m x y d :
  ¬ in_bounds (destination x y d).1 (destination x y d).2 -> move m x y d = Ret None.
Proof.
  intros H. unfold move, destination in *. rewrite <- boundary_check_two in H.
  destruct (value d) as [dx dy]. cbn [fst snd] in H.
  by destruct (boundary_check [x + dx; y + dy]).
Qed.

Lemma move_spec m x y d :
  state m -> _space_position m = Some (x, y) ->
  in_bounds (destination x y d).1 (destination x y d).2 ->
  ∃ m' v,
    move m x y d = Ret (Some m') ∧
    cell (_arrangement m) (destination x y d).1 (destination x y d).2 = Some v ∧
    v ≠ SPACE_VALUE ∧ state m' ∧
    _space_position m' = Some (destination x y d) ∧
    parent m' = Some m ∧ last_direction m' = Some d ∧
    ∀ i j, in_bounds i j ->
      cell (_arrangement m') i j =
        if decide ((i, j) = destination x y d) then Some SPACE_VALUE
        else if decide ((i, j) = (x, y)) then Some v
        else cell (_arrangement m) i j.
Proof.
  intros Hm Hsp Hd.
  pose proof Hm as (Hs & x0 & y0 & Hsp0 & Hxy & Hb)%state_spec.
  rewrite Hsp in Hsp0. injection Hsp0 as <- <-.
  pose proof (destination_neq x y d) as Hne.
  destruct (destination x y d) as [x' y'] eqn:Ed. simpl in Hd.
  destruct (exchange_spec (clone m) x y x' y' Hs Hxy Hd)
    as (m1 & t & v & He & Ht & Hv & Hs1 & Hsp1 & _ & _ & Hc).
  simpl in Ht, Hv, Hsp1, Hc.
  assert (t = SPACE_VALUE) as ->.
  { assert (cell (_arrangement m) x y = Some SPACE_VALUE) by (by apply Hb). congruence. }
  assert (v ≠ SPACE_VALUE) as Hvn.
  { intros ->. apply Hne. by apply Hb. }
  destruct (exchange_state (clone m) x y x' y' (state_clone m Hm)) as (m1' & He' & Hst).
  rewrite He in He'. injection He' as <-.
  eexists _, v. unfold move.
  assert (value d = (x' - x, y' - y)) as ->.
  { unfold destination in Ed. destruct (value d). simpl in Ed. injection Ed as <- <-. f_equal; lia. }
  replace (x + (x' - x)) with x' by lia. replace (y + (y' - y)) with y' by lia.
  rewrite (proj2 (boundary_check_two x' y') Hd). simpl. rewrite He. simpl.
  split; [reflexivity|]. simpl. repeat split; try done; apply Hst.
Qed.

(** ** Legal moves and [play] *)

(** A move of the blank at [(x, y)] is legal when its destination is a
    cell of the grid. *)
Definition legal (x y : Z) (d : Direction) : Prop :=
  in_bounds (destination x y d).1 (destination x y d).2.

#[global] Instance in_bounds_dec i j : Decision (in_bounds i j).
Proof. unfold in_bounds. apply _. Defined.

#[global] Instance legal_dec x y d : Decision (legal x y d).
Proof. unfold legal. apply _. Defined.

Definition allowed (forbidden_directions : option (list Direction)) (d : Direction) : Prop :=
  match forbidden_directions with
  | Some forbidden => d ∉ forbidden
  | None => True
  end.

#[global] Instance allowed_dec fd d : Decision (allowed fd d).
Proof. destruct fd; simpl; apply _. Defined.

Lemma play_loop_spec m x y fd ds :
  state m -> _space_position m = Some (x, y) ->
  ∃ l, play_loop m x y fd ds = Ret l ∧
       Forall2 (fun s d => move m x y d = Ret (Some s)) l
         (filter (fun d => allowed fd d ∧ legal x y d) ds).
Proof.
  intros Hm Hsp. induction ds as [|d ds (l & Hl & IH)]; simpl.
  - exists []. split; [done|]. constructor.
  - rewrite filter_cons.
    assert (Hfd : (match fd with
                   | Some forbidden => bool_decide (d ∈ forbidden)
                   | None => false
                   end) = negb (bool_decide (allowed fd d))).
    { destruct fd as [f|]; simpl; [|done].
      destruct (decide (d ∈ f)) as [H|H].
      - by rewrite (bool_decide_eq_true_2 _ H), bool_decide_eq_false_2 by (by intros ?).
      - by rewrite (bool_decide_eq_false_2 _ H), bool_decide_eq_true_2. }
    rewrite Hfd. destruct (decide (allowed fd d)) as [Ha|Ha].
    + rewrite (bool_decide_eq_true_2 _ Ha). simpl.
      destruct (decide (legal x y d)) as [Hlegal|Hlegal].
      * destruct (move_spec m x y d Hm Hsp Hlegal) as (m' & v & Hmv & _).
        rewrite Hmv. simpl. rewrite Hl. simpl. exists (m' :: l). split; [done|].
        rewrite decide_True by done. by constructor.
      * rewrite (move_out m x y d Hlegal). simpl. rewrite Hl. simpl.
        exists l. split; [done|]. rewrite decide_False by tauto. done.
    + rewrite (bool_decide_eq_false_2 _ Ha). simpl. exists l. split; [done|].
      rewrite decide_False by tauto. done.
Qed.

Lemma play_spec m x y fd :
  state m -> _space_position m = Some (x, y) ->
  ∃ l, play m fd = Ret l ∧
       Forall2 (fun s d => play_only m d = Ret (Some s)) l
         (filter (fun d => allowed fd d ∧ legal x y d) Direction_members).
Proof.
  intros Hm Hsp. unfold play, play_only. rewrite Hsp. by apply play_loop_spec.
Qed.

Lemma play_only_spec m x y d :
  state m -> _space_position m = Some (x, y) ->
  (¬ legal x y d ∧ play_only m d = Ret None) ∨
  (legal x y d ∧ ∃ m', play_only m d = Ret (Some m')).
Proof.
  intros Hm Hsp. unfold play_only. rewrite Hsp.
  destruct (decide (legal x y d)) as [H|H].
  - right. split; [done|]. destruct (move_spec m x y d Hm Hsp H) as (m' & v & Hmv & _).
    by exists m'.
  - left. split; [done|]. by apply move_out.
Qed.

Lemma state_space m : state m -> ∃ x y, _space_position m = Some (x, y) ∧ in_bounds x y.
Proof. intros (_ & x & y & H & Hb & _)%state_spec. by exists x, y. Qed.

(** What a successful [play_only] builds. *)
Lemma play_only_Some m d m' :
  state m -> play_only m d = Ret (Some m') ->
  ∃ x y v,
    _space_position m = Some (x, y) ∧ legal x y d ∧
    cell (_arrangement m) (destination x y d).1 (destination x y d).2 = Some v ∧
    v ≠ SPACE_VALUE ∧ state m' ∧
    _space_position m' = Some (destination x y d) ∧
    parent m' = Some m ∧ last_direction m' = Some d ∧
    ∀ i j, in_bounds i j ->
      cell (_arrangement m') i j =
        if decide ((i, j) = destination x y d) then Some SPACE_VALUE
        else if decide ((i, j) = (x, y)) then Some v
        else cell (_arrangement m) i j.
Proof.
  intros Hm Hp. destruct (state_space m Hm) as (x & y & Hsp & Hxy).
  exists x, y. unfold play_only in Hp. rewrite Hsp in Hp.
  destruct (decide (legal x y d)) as [H|H].
  - destruct (move_spec m x y d Hm Hsp H) as (m1 & v & Hmv & Hrest).
    rewrite Hmv in Hp. injection Hp as <-. exists v. tauto.
  - by rewrite (move_out m x y d H) in Hp.
Qed.

(** The successors [play] returns are those of [play_only]. *)
Lemma play_elem_of m :
  state m ->
  ∃ l, play m None = Ret l ∧ ∀ s, s ∈ l <-> ∃ d, play_only m d = Ret (Some s).
Proof.
  intros Hm. destruct (state_space m Hm) as (x & y & Hsp & Hxy).
  destruct (play_spec m x y None Hm Hsp) as (l & Hl & HF).
  exists l. split; [done|]. intros s. split.
  - intros Hs. apply list_elem_of_lookup in Hs as [i Hi].
    destruct (Forall2_lookup_l _ _ _ _ _ HF Hi) as (d & _ & Hd). by exists d.
  - intros [d Hd].
    assert (d ∈ filter (fun d => allowed None d ∧ legal x y d) Direction_members) as Hin.
    { apply list_elem_of_filter. split.
      - split; [done|]. destruct (play_only_spec m x y d Hm Hsp) as [[_ H]|[H _]]; [congruence|done].
      - destruct d; unfold Direction_members; set_solver. }
    apply list_elem_of_lookup in Hin as [i Hi].
    destruct (Forall2_lookup_r _ _ _ _ _ HF Hi) as (s' & Hs' & Hd').
    rewrite Hd in Hd'. injection Hd' as <-. by eapply list_elem_of_lookup_2.
Qed.

(** The grid ["123"; "4#5"; "678"] and its neighbour after [RIGHT]. *)
Definition centre : Matrix :=
  {| _arrangement := [[1; 2; 3]; [4; -1; 5]; [6; 7; 8]];
     _space_position := Some (1, 1);
     parent := None;
     last_direction := None |}.

Definition centre_right : Matrix :=
  {| _arrangement := [[1; 2; 3]; [4; 5; -1]; [6; 7; 8]];
     _space_position := Some (1, 2);
     parent := None;
     last_direction := None |}.

(** [centre.play_only(RIGHT)], with its links. *)
Definition centre_then_right : Matrix :=
  {| _arrangement := [[1; 2; 3]; [4; 5; -1]; [6; 7; 8]];
     _space_position := Some (1, 2);
     parent := Some centre;
     last_direction := Some RIGHT |}.

Lemma state_centre : state centre.
Proof. split; reflexivity. Qed.

(** C8. On every state [G], [play] returns at most four successors; they
    are, in this order, the results of [play_only] for the directions of
    [LEFT, UP, RIGHT, DOWN] that are legal (and not forbidden), each
    recording its direction, and the blank of each lies on a cell of the
    grid. *)
Theorem play_ordered_successors (G : Matrix) (forbidden : option (list Direction)) :
  state G ->
  ∃ x y l,
    _space_position G = Some (x, y) ∧
    play G forbidden = Ret l ∧
    (length l <= 4)%nat ∧
    Forall2 (fun s d => play_only G d = Ret (Some s) ∧ last_direction s = Some d) l
      (filter (fun d => allowed forbidden d ∧ legal x y d) [LEFT; UP; RIGHT; DOWN]) ∧
    Forall (fun s => ∃ x' y', _space_position s = Some (x', y') ∧ in_bounds x' y' ∧
                       fetch s x' y' = Ret SPACE_VALUE) l.
Proof.
  intros HG. destruct (state_space G HG) as (x & y & Hsp & Hxy).
  destruct (play_spec G x y forbidden HG Hsp) as (l & Hl & HF).
  exists x, y, l. split; [done|]. split; [done|]. split; [|split].
  - rewrite (Forall2_length _ _ _ HF).
    etrans; [apply length_filter|]. done.
  - eapply Forall2_impl; [exact HF|]. intros s d Hs. split; [done|].
    by destruct (play_only_Some G d s HG Hs) as (? & ? & ? & ? & ? & ? & ? & ? & ? & ? & ? & ?).
  - apply Forall_forall. intros s Hs. apply list_elem_of_lookup in Hs as [i Hi].
    destruct (Forall2_lookup_l _ _ _ _ _ HF Hi) as (d & _ & Hd).
    destruct (play_only_Some G d s HG Hd) as (x0 & y0 & v & _ & _ & _ & _ & Hst & _).
    apply state_spec in Hst as (_ & x' & y' & Hsp' & Hb' & Hc).
    exists x', y'. split; [done|]. split; [done|]. apply fetch_Ret. split; [done|].
    by apply Hc.
Qed.

Lemma play_ordered_successors_witness :
  ∃ x y l,
    _space_position centre = Some (x, y) ∧
    play centre None = Ret l ∧
    (length l <= 4)%nat ∧
    Forall2 (fun s d => play_only centre d = Ret (Some s) ∧ last_direction s = Some d) l
      (filter (fun d => allowed None d ∧ legal x y d) [LEFT; UP; RIGHT; DOWN]) ∧
    Forall (fun s => ∃ x' y', _space_position s = Some (x', y') ∧ in_bounds x' y' ∧
                       fetch s x' y' = Ret SPACE_VALUE) l.
Proof. apply (play_ordered_successors centre None). split; reflexivity. Defined.

(** ** The constructor *)

(** Input as section 6 of the specification wants it: three lines of three
    characters, the digits 1 to 8 and the blank symbol once each. *)
Definition well_formed (data : list string) : Prop :=
  length <$> (list_ascii_of_string <$> data) = [3; 3; 3]%nat ∧
  mjoin (list_ascii_of_string <$> data) ≡ₚ list_ascii_of_string "#12345678".

(** The cells written before the loops reach row [r], column [c]. *)
Definition before (r c i j : Z) : Prop := i < r ∨ (i = r ∧ j < c).

(** While the constructor runs: the cells written so far hold the blank
    nowhere if [spaced] is still false, and else only at the cached
    position. *)
Definition init_inv (r c : Z) (st : Matrix * bool * gmap Z bool) : Prop :=
  let '(self, spaced, _) := st in
  shaped (_arrangement self) ∧
  if spaced then
    ∃ x y, _space_position self = Some (x, y) ∧ in_bounds x y ∧ before r c x y ∧
      ∀ i j, in_bounds i j -> before r c i j ->
        (cell (_arrangement self) i j = Some SPACE_VALUE <-> (i, j) = (x, y))
  else
    ∀ i j, in_bounds i j -> before r c i j ->
      cell (_arrangement self) i j ≠ Some SPACE_VALUE.

Lemma place_Ret m r c v m' :
  shaped (_arrangement m) -> place m r c v = Ret m' ->
  in_bounds r c ∧ shaped (_arrangement m') ∧
  _space_position m' = (if v =? SPACE_VALUE then Some (r, c) else _space_position m) ∧
  ∀ i j, in_bounds i j ->
    cell (_arrangement m') i j =
      if decide ((i, j) = (r, c)) then Some v else cell (_arrangement m) i j.
Proof.
  intros Hs Hp. destruct (decide (in_bounds r c)) as [Hb|Hb].
  - destruct (place_spec m r c v Hs Hb) as (m1 & Hm1 & ? & ? & _ & _ & ?).
    rewrite Hm1 in Hp. injection Hp as <-. done.
  - unfold place in Hp. rewrite <- boundary_check_two in Hb.
    by destruct (boundary_check [r; c]).
Qed.

Lemma int_range char n : int char = Ret n -> 0 <= n <= 9.
Proof.
  unfold int. destruct (_ && _) eqn:E; [|done]. intros [= <-]. lia.
Qed.

Lemma init_chars_inv r line :
  ∀ c st st',
    init_chars r c line st = Ret st' -> init_inv r c st ->
    init_inv r (c + Z.of_nat (length line)) st' ∧
    (st.1.2 = true ∨ SPACE_SYMBOL ∈ line -> st'.1.2 = true).
Proof.
  induction line as [|char rest IH]; intros c [[self spaced] appeared] st' Hrun Hinv.
  - injection Hrun as <-. simpl. rewrite Z.add_0_r. split; [done|].
    intros [H|H]; [done|]. by apply not_elem_of_nil in H.
  - cbn [init_chars] in Hrun. destruct Hinv as [Hs Hinv].
    replace (c + Z.of_nat (length (char :: rest))) with (c + 1 + Z.of_nat (length rest))
      by (simpl; lia).
    case_bool_decide as Hchar.
    + destruct spaced; [done|].
      destruct (place self r c SPACE_VALUE) as [self'| | |] eqn:Hp; try done.
      simpl in Hrun. destruct (place_Ret _ _ _ _ _ Hs Hp) as (Hb & Hs' & Hsp' & Hc).
      apply IH in Hrun as [Hinv' Hsp]; [split; [done|]; intros _; by apply Hsp; left|].
      split; [done|]. exists r, c. split; [done|]. split; [done|].
      split; [right; lia|]. intros i j Hij Hbef. rewrite Hc by done.
      case_decide as Hq; [done|]. split; [|done]. intros Hv. exfalso.
      apply (Hinv i j Hij); [|done]. destruct Hbef as [?|[-> ?]]; [by left|].
      right. split; [done|]. assert (j ≠ c) by congruence. lia.
    + destruct (int char) as [number| | |] eqn:Hint; try done. simpl in Hrun.
      apply int_range in Hint.
      destruct (appeared !! number) as [[|]|]; try done.
      destruct (place self r c number) as [self'| | |] eqn:Hp; try done.
      simpl in Hrun. destruct (place_Ret _ _ _ _ _ Hs Hp) as (Hb & Hs' & Hsp' & Hc).
      assert ((number =? SPACE_VALUE) = false) as En by (apply Z.eqb_neq; unfold SPACE_VALUE; lia).
      rewrite En in Hsp'.
      apply IH in Hrun as [Hinv' Hsp].
      { split; [done|]. intros [H|H]; apply Hsp; [by left|].
        apply elem_of_cons in H as [H|H]; [done|by right]. }
      split; [done|]. destruct spaced.
      * destruct Hinv as (x & y & Hxy & Hbxy & Hbef & Hcells).
        exists x, y. split; [congruence|]. split; [done|].
        split; [destruct Hbef as [?|[-> ?]]; [by left|right; lia]|].
        intros i j Hij Hbef'. rewrite Hc by done. case_decide as Hq.
        -- injection Hq as -> ->. split.
           ++ intros [= ->]. unfold SPACE_VALUE in Hint. lia.
           ++ intros [= <- <-]. destruct Hbef as [?|[_ ?]]; lia.
        -- apply Hcells; [done|]. destruct Hbef' as [?|[-> ?]]; [by left|].
           right. split; [done|]. assert (j ≠ c) by congruence. lia.
      * intros i j Hij Hbef. rewrite Hc by done. case_decide as Hq.
        -- intros [= ->]. unfold SPACE_VALUE in Hint. lia.
        -- apply Hinv; [done|]. destruct Hbef as [?|[-> ?]]; [by left|].
           right. split; [done|]. assert (j ≠ c) by congruence. lia.
Qed.

Lemma init_inv_ext r c r' c' st :
  (∀ i j, in_bounds i j -> before r c i j <-> before r' c' i j) ->
  init_inv r c st -> init_inv r' c' st.
Proof.
  destruct st as [[self spaced] appeared]. intros Hext [Hs Hinv]. split; [done|].
  destruct spaced.
  - destruct Hinv as (x & y & Hsp & Hb & Hbef & Hc). exists x, y.
    split; [done|]. split; [done|]. split; [by apply Hext|].
    intros i j Hij Hbef'. apply Hc; [done|]. by apply Hext.
  - intros i j Hij Hbef'. apply Hinv; [done|]. by apply Hext.
Qed.

Lemma elem_of_lstrip x l : x ∈ l -> is_space x = false -> x ∈ lstrip l.
Proof.
  intros Hx Hsp. induction l as [|c l IH]; [done|]. simpl.
  destruct (is_space c) eqn:Ec; [|done].
  apply elem_of_cons in Hx as [->|Hx]; [congruence|by apply IH].
Qed.

Lemma elem_of_strip x l : x ∈ l -> is_space x = false -> x ∈ strip l.
Proof.
  intros Hx Hsp. unfold strip. apply elem_of_reverse, elem_of_lstrip; [|done].
  apply elem_of_reverse, elem_of_lstrip; done.
Qed.

Lemma init_lines_inv data :
  ∀ r st st',
    init_lines r data st = Ret st' -> init_inv r 0 st ->
    init_inv (r + Z.of_nat (length data)) 0 st' ∧
    (st.1.2 = true ∨ (∃ line, line ∈ data ∧ SPACE_SYMBOL ∈ list_ascii_of_string line) ->
     st'.1.2 = true).
Proof.
  induction data as [|line rest IH]; intros r st st' Hrun Hinv.
  - injection Hrun as <-. simpl. rewrite Z.add_0_r. split; [done|].
    intros [H|(line & H & _)]; [done|]. by apply not_elem_of_nil in H.
  - cbn [init_lines] in Hrun.
    destruct (boundary_check [r]) eqn:Hr; [|done]. simpl in Hrun.
    destruct (Z.of_nat (length (strip (list_ascii_of_string line))) =? MATRIX_SIZE) eqn:Hlen;
      [|done].
    simpl in Hrun. apply Z.eqb_eq in Hlen.
    destruct (init_chars r 0 (strip (list_ascii_of_string line)) st) as [st1| | |] eqn:Hchars;
      try done.
    simpl in Hrun. destruct (init_chars_inv _ _ _ _ _ Hchars Hinv) as [Hinv1 Hsp1].
    rewrite Hlen in Hinv1.
    apply IH in Hrun as [Hinv' Hsp'].
    + split.
      * replace (r + Z.of_nat (length (line :: rest))) with (r + 1 + Z.of_nat (length rest))
          by (simpl; lia). done.
      * intros H. apply Hsp'. destruct H as [H|(l & Hl & Hin)].
        -- left. apply Hsp1. by left.
        -- apply elem_of_cons in Hl as [->|Hl].
           ++ left. apply Hsp1. right. by apply elem_of_strip.
           ++ right. by exists l.
    + eapply init_inv_ext; [|exact Hinv1]. intros i j [_ Hj]. unfold before, MATRIX_SIZE in *.
      lia.
Qed.

Lemma init_inv_state self appeared :
  init_inv MATRIX_SIZE 0 (self, true, appeared) -> state self.
Proof.
  intros [Hs (x & y & Hsp & Hb & _ & Hc)]. apply state_spec. split; [done|].
  exists x, y. split; [done|]. split; [done|]. intros i j Hij. apply Hc; [done|].
  left. apply Hij.
Qed.

(** On well-formed input a matrix the constructor returns is a state. *)
Lemma Matrix_init_state data m :
  well_formed data -> Matrix_init (Some data) = Ret m -> state m.
Proof.
  intros [Hlen Hperm] Hinit. unfold Matrix_init in Hinit.
  destruct (init_lines 0 data (Matrix_empty, false, appeared_init))
    as [[[self spaced] appeared]| | |] eqn:Hrun; try done.
  simpl in Hinit. injection Hinit as <-.
  apply init_lines_inv in Hrun as [Hinv Hsp].
  - assert (length data = 3%nat) as Hdata.
    { apply (f_equal length) in Hlen. by rewrite !length_fmap in Hlen. }
    rewrite Hdata in Hinv. simpl in Hsp. rewrite Hsp in Hinv.
    + by apply init_inv_state in Hinv.
    + right. assert (SPACE_SYMBOL ∈ mjoin (list_ascii_of_string <$> data)) as Hin.
      { rewrite Hperm. by left. }
      apply list_elem_of_join in Hin as (l & Hin & Hl).
      apply list_elem_of_fmap in Hl as (line & -> & Hline). by exists line.
  - split; [reflexivity|]. intros i j Hij Hbef. exfalso.
    unfold in_bounds, before in *. lia.
Qed.

(** The matrices the program can hold: built by the constructor from
    well-formed input, or derived by [clone], [play], [play_towards],
    [play_only], or by an [exchange] of two cells. *)
Inductive obtained : Matrix -> Prop :=
  | obtained_init data m :
      well_formed data -> Matrix_init (Some data) = Ret m -> obtained m
  | obtained_clone m :
      obtained m -> obtained (clone m)
  | obtained_play m forbidden l s :
      obtained m -> play m forbidden = Ret l -> s ∈ l -> obtained s
  | obtained_play_towards m towards l s :
      obtained m -> play_towards m towards = Ret l -> s ∈ l -> obtained s
  | obtained_play_only m d s :
      obtained m -> play_only m d = Ret (Some s) -> obtained s
  | obtained_exchange m x1 y1 x2 y2 m' :
      obtained m -> exchange m x1 y1 x2 y2 = Ret m' -> obtained m'.

Lemma play_loop_state m x y fd ds l s :
  state m -> _space_position m = Some (x, y) ->
  play_loop m x y fd ds = Ret l -> s ∈ l -> state s.
Proof.
  intros Hm Hsp Hl Hs. destruct (play_loop_spec m x y fd ds Hm Hsp) as (l' & Hl' & HF).
  rewrite Hl in Hl'. injection Hl' as <-.
  apply list_elem_of_lookup in Hs as [i Hi].
  destruct (Forall2_lookup_l _ _ _ _ _ HF Hi) as (d & _ & Hd).
  assert (play_only m d = Ret (Some s)) as Hp by (unfold play_only; by rewrite Hsp).
  by destruct (play_only_Some m d s Hm Hp) as (? & ? & ? & ? & ? & ? & ? & ? & ?).
Qed.

Lemma obtained_state m : obtained m -> state m.
Proof.
  induction 1 as [data m Hwf Hinit|m _ IH|m fd l s _ IH Hl Hs|m ds l s _ IH Hl Hs
                 |m d s _ IH Hp|m x1 y1 x2 y2 m' _ IH He].
  - by eapply Matrix_init_state.
  - by apply state_clone.
  - destruct (state_space m IH) as (x & y & Hsp & _). unfold play in Hl. rewrite Hsp in Hl.
    by eapply play_loop_state.
  - destruct (state_space m IH) as (x & y & Hsp & _). unfold play_towards in Hl.
    rewrite Hsp in Hl. by eapply play_loop_state.
  - by destruct (play_only_Some m d s IH Hp) as (? & ? & ? & ? & ? & ? & ? & ? & ?).
  - destruct (exchange_state m x1 y1 x2 y2 IH) as (m1 & Hm1 & Hst). congruence.
Qed.

(** C9. In every matrix built by the constructor from well-formed input, or
    derived from such a matrix by [clone], [play], [play_towards],
    [play_only] or [exchange], the cached [_space_position] is a cell of
    the grid, and it is the one cell at which [fetch] finds [SPACE_VALUE]. *)
Theorem space_position_consistent (m : Matrix) :
  obtained m ->
  ∃ row column,
    _space_position m = Some (row, column) ∧ in_bounds row column ∧
    ∀ i j, in_bounds i j -> (fetch m i j = Ret SPACE_VALUE <-> (i, j) = (row, column)).
Proof.
  intros (_ & x & y & Hsp & Hb & Hc)%obtained_state%state_spec.
  exists x, y. split; [done|]. split; [done|]. intros i j Hij.
  rewrite fetch_Ret. specialize (Hc i j Hij). tauto.
Qed.

Lemma well_formed_centre : well_formed ["123"; "4#5"; "678"]%string.
Proof. split; [reflexivity|]. apply (bool_decide_unpack _). by vm_compute. Qed.

Lemma space_position_consistent_witness :
  ∃ row column,
    _space_position centre = Some (row, column) ∧ in_bounds row column ∧
    ∀ i j, in_bounds i j -> (fetch centre i j = Ret SPACE_VALUE <-> (i, j) = (row, column)).
Proof.
  apply (space_position_consistent centre).
  apply (obtained_init ["123"; "4#5"; "678"]%string).
  - split; [reflexivity|]. apply (bool_decide_unpack _). by vm_compute.
  - reflexivity.
Defined.

(** ** [differentiate] and [SolutionStep] *)

Lemma differentiate_loop_spec old new positions :
  shaped (_arrangement old) -> shaped (_arrangement new) ->
  (∀ i j, (i, j) ∈ positions -> in_bounds i j) ->
  ∀ difference,
  ∃ difference',
    differentiate_loop old new positions difference = Ret difference' ∧
    ∀ n, n ∈ difference' <->
      n ∈ difference ∨
      ∃ i j a b, (i, j) ∈ positions ∧
        cell (_arrangement old) i j = Some a ∧ cell (_arrangement new) i j = Some b ∧
        a ≠ b ∧ (n = a ∨ n = b).
Proof.
  intros Hold Hnew. induction positions as [|[i j] rest IH]; intros Hb difference.
  - exists difference. split; [done|]. intros n. split; [by left|].
    intros [H|(i & j & a & b & H & _)]; [done|]. by apply not_elem_of_nil in H.
  - assert (in_bounds i j) as Hij by (apply Hb; left).
    destruct (fetch_spec old i j Hold Hij) as (a & Ha & Hca).
    destruct (fetch_spec new i j Hnew Hij) as (b & Hb' & Hcb).
    cbn [differentiate_loop]. rewrite Ha. simpl. rewrite Hb'. simpl.
    destruct (IH (fun i j H => Hb i j (list_elem_of_further _ _ _ H))
                (if bool_decide (a ≠ b) then {[b]} ∪ ({[a]} ∪ difference) else difference))
      as (D & HD & Hin).
    exists D. split; [done|]. intros n. rewrite Hin. split.
    + intros [H|(i' & j' & a' & b' & Hp & Hrest)].
      * case_bool_decide as Hab.
        -- apply elem_of_union in H as [H|H].
           ++ apply elem_of_singleton in H as ->. right. exists i, j, a, b.
              split; [left|]. tauto.
           ++ apply elem_of_union in H as [H|H]; [|by left].
              apply elem_of_singleton in H as ->. right. exists i, j, a, b.
              split; [left|]. tauto.
        -- by left.
      * right. exists i', j', a', b'. split; [by right|done].
    + intros [H|(i' & j' & a' & b' & Hp & Ha' & Hb'' & Hne & Hn)].
      * left. case_bool_decide; [|done]. set_solver.
      * apply elem_of_cons in Hp as [[= -> ->]|Hp].
        -- left. rewrite Hca in Ha'. rewrite Hcb in Hb''.
           injection Ha' as <-. injection Hb'' as <-.
           rewrite bool_decide_eq_true_2 by done. set_solver.
        -- right. by exists i', j', a', b'.
Qed.

(** The set [differentiate] returns: the numbers that stand, in either
    grid, on a cell where the two grids differ. *)
Lemma differentiate_spec old new :
  shaped (_arrangement old) -> shaped (_arrangement new) ->
  ∃ difference,
    differentiate old new = Ret difference ∧
    ∀ n, n ∈ difference <->
      ∃ i j a b, in_bounds i j ∧
        cell (_arrangement old) i j = Some a ∧ cell (_arrangement new) i j = Some b ∧
        a ≠ b ∧ (n = a ∨ n = b).
Proof.
  intros Hold Hnew.
  destruct (differentiate_loop_spec old new (cells MATRIX_SIZE) Hold Hnew
              (fun i j H => proj1 (elem_of_cells i j) H) ∅) as (D & HD & Hin).
  exists D. split; [exact HD|]. intros n. rewrite Hin. split.
  - intros [H|(i & j & a & b & Hp & Hrest)]; [set_solver|].
    exists i, j, a, b. split; [by apply elem_of_cells|done].
  - intros (i & j & a & b & Hp & Hrest). right.
    exists i, j, a, b. split; [by apply elem_of_cells|done].
Qed.

(** A step between two grids whose difference is the blank and one more
    number [v]. *)
Lemma SolutionStep_init_pair old new difference v :
  differentiate old new = Ret difference ->
  (∀ n, n ∈ difference <-> n = SPACE_VALUE ∨ n = v) -> v ≠ SPACE_VALUE ->
  SolutionStep_init old new = Ret {| click := Some v; target := clone new |}.
Proof.
  intros Hd Hin Hv.
  assert (difference = {[SPACE_VALUE]} ∪ {[v]}) as Hdiff by set_solver.
  assert (SPACE_VALUE ∉ ({[v]} : gset Z)) as Hnin by set_solver.
  assert (size difference = 2%nat) as Hsize.
  { rewrite Hdiff, size_union by set_solver. by rewrite !size_singleton. }
  assert (SPACE_VALUE ∈ difference) as Hspace by set_solver.
  assert (elements difference ≡ₚ [SPACE_VALUE; v]) as Hperm.
  { rewrite Hdiff, elements_union_singleton by done. by rewrite elements_singleton. }
  assert (filter (fun d => d ≠ SPACE_VALUE) (elements difference) = [v]) as Hfilter.
  { apply Permutation_singleton_r. rewrite Hperm.
    rewrite filter_cons, decide_False by (by intros ?).
    rewrite filter_cons, decide_True by done. done. }
  unfold SolutionStep_init. rewrite Hd. cbn [mbind outcome_bind].
  rewrite (bool_decide_eq_true_2 _ Hsize), (bool_decide_eq_true_2 _ Hspace), Hfilter.
  reflexivity.
Qed.

(** The difference between a state and its successor: the blank and the
    number the blank traded places with. *)
Lemma differentiate_play_only A d B :
  state A -> play_only A d = Ret (Some B) ->
  ∃ x y v difference,
    _space_position A = Some (x, y) ∧
    cell (_arrangement A) (destination x y d).1 (destination x y d).2 = Some v ∧
    v ≠ SPACE_VALUE ∧
    differentiate A B = Ret difference ∧
    ∀ n, n ∈ difference <-> n = SPACE_VALUE ∨ n = v.
Proof.
  intros HA Hp.
  destruct (play_only_Some A d B HA Hp)
    as (x & y & v & Hsp & Hlegal & Hv & Hvn & HB & _ & _ & _ & Hc).
  pose proof HA as (HsA & x0 & y0 & Hsp0 & Hxy & Hblank)%state_spec.
  rewrite Hsp in Hsp0. injection Hsp0 as <- <-.
  destruct (differentiate_spec A B HsA (proj1 HB)) as (D & HD & Hin).
  exists x, y, v, D. repeat split; try done.
  - rewrite Hin. intros (i & j & a & b & Hij & Ha & Hb & Hab & Hn).
    rewrite Hc in Hb by done. case_decide as Hdest.
    + injection Hb as <-.
      assert (i = (destination x y d).1 ∧ j = (destination x y d).2) as [-> ->]
        by (by rewrite <- Hdest).
      destruct Hn as [->| ->]; [right; congruence|by left].
    + case_decide as Hxy'.
      * injection Hxy' as -> ->. injection Hb as <-.
        assert (cell (_arrangement A) x y = Some SPACE_VALUE) by (by apply Hblank).
        destruct Hn as [->| ->]; [left; congruence|by right].
      * congruence.
  - intros [->| ->]; apply Hin.
    + exists (destination x y d).1, (destination x y d).2, v, SPACE_VALUE.
      split; [done|]. split; [done|]. split; [|tauto].
      rewrite Hc by done. rewrite decide_True; [done|]. by destruct (destination x y d).
    + exists (destination x y d).1, (destination x y d).2, v, SPACE_VALUE.
      split; [done|]. split; [done|]. split; [|tauto].
      rewrite Hc by done. rewrite decide_True; [done|]. by destruct (destination x y d).
Qed.

Lemma SolutionStep_init_play_only A d B :
  state A -> play_only A d = Ret (Some B) ->
  ∃ x y v,
    _space_position A = Some (x, y) ∧
    cell (_arrangement A) (destination x y d).1 (destination x y d).2 = Some v ∧
    v ≠ SPACE_VALUE ∧
    SolutionStep_init A B = Ret {| click := Some v; target := clone B |}.
Proof.
  intros HA Hp.
  destruct (differentiate_play_only A d B HA Hp) as (x & y & v & D & Hsp & Hv & Hvn & HD & Hin).
  exists x, y, v. repeat split; try done. by eapply SolutionStep_init_pair.
Qed.

(** C3. When [play_only A d] gives a state [B], [SolutionStep(A, B)] is
    built without an exception; its [click] is a number other than the
    blank, and it is the only such number standing, in [A] or in [B], on a
    cell where the two grids differ. *)
Theorem SolutionStep_of_play_only (A B : Matrix) (d : Direction) :
  state A -> play_only A d = Ret (Some B) ->
  ∃ v,
    SolutionStep_init A B = Ret {| click := Some v; target := clone B |} ∧
    v ≠ SPACE_VALUE ∧
    ∀ n, n ≠ SPACE_VALUE ->
      ((∃ i j a b, fetch A i j = Ret a ∧ fetch B i j = Ret b ∧ a ≠ b ∧ (n = a ∨ n = b))
       <-> n = v).
Proof.
  intros HA Hp.
  destruct (differentiate_play_only A d B HA Hp) as (x & y & v & D & Hsp & Hv & Hvn & HD & Hin).
  exists v. split; [by eapply SolutionStep_init_pair|]. split; [done|].
  intros n Hn.
  destruct (play_only_Some A d B HA Hp) as (_ & _ & _ & _ & _ & _ & _ & HB & _).
  destruct (differentiate_spec A B (proj1 HA) (proj1 HB)) as (D' & HD' & Hin').
  rewrite HD in HD'. injection HD' as <-.
  transitivity (n ∈ D).
  - rewrite Hin'. split.
    + intros (i & j & a & b & Ha & Hb & Hrest). apply fetch_Ret in Ha as [Hij Ha].
      apply fetch_Ret in Hb as [_ Hb]. by exists i, j, a, b.
    + intros (i & j & a & b & Hij & Ha & Hb & Hrest). exists i, j, a, b.
      split; [by apply fetch_Ret|]. split; [by apply fetch_Ret|]. done.
  - rewrite Hin. tauto.
Qed.

Lemma SolutionStep_of_play_only_witness :
  ∃ v,
    SolutionStep_init centre centre_then_right
    = Ret {| click := Some v; target := clone centre_then_right |} ∧
    v ≠ SPACE_VALUE ∧
    ∀ n, n ≠ SPACE_VALUE ->
      ((∃ i j a b, fetch centre i j = Ret a ∧ fetch centre_then_right i j = Ret b ∧
          a ≠ b ∧ (n = a ∨ n = b))
       <-> n = v).
Proof.
  apply (SolutionStep_of_play_only centre centre_then_right RIGHT).
  - split; reflexivity.
  - reflexivity.
Defined.

(** The grid ["#23"; "415"; "678"]: [centre] with the blank and the tile 1,
    which are not adjacent, exchanged. *)
Definition corner_swapped : Matrix :=
  {| _arrangement := [[-1; 2; 3]; [4; 1; 5]; [6; 7; 8]];
     _space_position := Some (0, 0);
     parent := None;
     last_direction := None |}.

(** C2, at the failing input.  No legal move leads from [centre] to
    [corner_swapped] (both are states, obtained by the constructor), and
    yet [SolutionStep(centre, corner_swapped)] raises nothing: it reports a
    click on the tile 1. *)
Theorem SolutionStep_init_distant_swap :
  Matrix_init (Some ["123"; "4#5"; "678"]%string) = Ret centre ∧
  Matrix_init (Some ["#23"; "415"; "678"]%string) = Ret corner_swapped ∧
  (∀ d s, play_only centre d = Ret (Some s) ->
          _arrangement s ≠ _arrangement corner_swapped) ∧
  SolutionStep_init centre corner_swapped
  = Ret {| click := Some 1; target := corner_swapped |}.
Proof.
  split; [reflexivity|]. split; [reflexivity|]. split; [|by vm_compute].
  intros d s Hs. destruct d; vm_compute in Hs; injection Hs as <-; discriminate.
Qed.

(** ** Paths of legal moves *)

(** Replaying a list of directions with [play_only]; [None] when a move
    leaves the grid. *)
Fixpoint run (m : Matrix) (ds : list Direction) : outcome (option Matrix) :=
  match ds with
  | [] => Ret (Some m)
  | d :: ds =>
      next ← play_only m d;
      match next with
      | Some m' => run m' ds
      | None => Ret None
      end
  end.

(** A matrix whose parent links go back, legal move by legal move, to a
    state without parent. *)
Fixpoint derived (m : Matrix) : Prop :=
  match m with
  | Build_Matrix _ _ None _ => state m
  | Build_Matrix _ _ (Some p) _ => derived p ∧ ∃ d, play_only p d = Ret (Some m)
  end.

Lemma derived_state m : derived m -> state m.
Proof.
  induction m as [a s d|a s p d IH] using Matrix_ind; simpl; [done|].
  intros [Hp [d' Hd]]. apply IH in Hp.
  by destruct (play_only_Some _ _ _ Hp Hd) as (? & ? & ? & ? & ? & ? & ? & ? & ?).
Qed.

Lemma parent_Some m p :
  parent m = Some p ->
  m = Build_Matrix (_arrangement m) (_space_position m) (Some p) (last_direction m).
Proof. destruct m as [a s q d]. simpl. by intros ->. Qed.

Lemma derived_play_only m d s :
  derived m -> play_only m d = Ret (Some s) -> derived s.
Proof.
  intros Hm Hs.
  destruct (play_only_Some _ _ _ (derived_state m Hm) Hs)
    as (? & ? & ? & ? & ? & ? & ? & ? & ? & Hpar & ?).
  rewrite (parent_Some s m Hpar). simpl. split; [done|].
  exists d. by rewrite <- (parent_Some s m Hpar).
Qed.

Lemma parents_play_only m d s :
  state m -> play_only m d = Ret (Some s) -> parents s = m :: parents m.
Proof.
  intros Hm Hs.
  destruct (play_only_Some _ _ _ Hm Hs) as (? & ? & ? & ? & ? & ? & ? & ? & ? & Hpar & ?).
  by rewrite (parent_Some s m Hpar).
Qed.

Lemma derived_clone m : state m -> derived (clone m).
Proof. intros Hm. simpl. by apply state_clone. Qed.

(** [play_only] looks at the grid and the cached blank only. *)
Lemma play_only_grid a b d :
  _arrangement a = _arrangement b -> _space_position a = _space_position b ->
  match play_only a d with
  | Ret (Some a') =>
      ∃ b', play_only b d = Ret (Some b') ∧
            _arrangement b' = _arrangement a' ∧ _space_position b' = _space_position a'
  | other => play_only b d = other
  end.
Proof.
  intros Ha Hs. assert (clone a = clone b) as Hc by (unfold clone; congruence).
  unfold play_only. rewrite <- Hs. destruct (_space_position a) as [[x y]|]; [|done].
  unfold move. rewrite <- Hc. destruct (value d) as [dx dy].
  destruct (negb (boundary_check [x + dx; y + dy])); [done|].
  destruct (exchange (clone a) x y (x + dx) (y + dy)) as [m| | |]; simpl; try done.
  eexists. split; [reflexivity|]. done.
Qed.

Lemma play_only_grid_Some a b d a' :
  state a -> state b -> _arrangement a = _arrangement b ->
  play_only a d = Ret (Some a') ->
  ∃ b', play_only b d = Ret (Some b') ∧ _arrangement b' = _arrangement a'.
Proof.
  intros Ha Hb Hab Hp.
  pose proof (play_only_grid a b d Hab (state_space_eq a b Ha Hb Hab)) as H.
  rewrite Hp in H. destruct H as (b' & ? & ? & _). by exists b'.
Qed.

Lemma run_snoc m ds d :
  run m (ds ++ [d]) =
  (r ← run m ds; match r with Some m' => play_only m' d | None => Ret None end).
Proof.
  revert m. induction ds as [|d' ds IH]; intros m; simpl.
  - destruct (play_only m d) as [[m'|]| | |]; done.
  - destruct (play_only m d') as [[m'|]| | |]; simpl; first [done | apply IH].
Qed.

Lemma run_snoc_Some m ds d s :
  run m (ds ++ [d]) = Ret (Some s) <->
  ∃ m', run m ds = Ret (Some m') ∧ play_only m' d = Ret (Some s).
Proof.
  rewrite run_snoc. destruct (run m ds) as [[m'|]| | |]; simpl; split; try done.
  - intros H. by exists m'.
  - by intros (? & [= <-] & ?).
  - by intros (? & ? & ?).
  - by intros (? & ? & ?).
  - by intros (? & ? & ?).
  - by intros (? & ? & ?).
Qed.

Lemma run_state m ds s : state m -> run m ds = Ret (Some s) -> state s.
Proof.
  revert m. induction ds as [|d ds IH]; intros m Hm; simpl.
  - by intros [= <-].
  - destruct (play_only m d) as [[m'|]| | |] eqn:Hp; simpl; try done.
    apply IH. by destruct (play_only_Some _ _ _ Hm Hp) as (? & ? & ? & ? & ? & ? & ? & ? & ?).
Qed.

Lemma run_grid a b ds a' :
  state a -> state b -> _arrangement a = _arrangement b ->
  run a ds = Ret (Some a') ->
  ∃ b', run b ds = Ret (Some b') ∧ _arrangement b' = _arrangement a'.
Proof.
  revert a b. induction ds as [|d ds IH]; intros a b Ha Hb Hab; simpl.
  - intros [= <-]. by exists b.
  - destruct (play_only a d) as [[a1|]| | |] eqn:Hp; simpl; try done.
    destruct (play_only_grid_Some a b d a1 Ha Hb Hab Hp) as (b1 & Hb1 & Hab1).
    rewrite Hb1. simpl. apply IH; [| |done].
    + by destruct (play_only_Some _ _ _ Ha Hp) as (? & ? & ? & ? & ? & ? & ? & ? & ?).
    + by destruct (play_only_Some _ _ _ Hb Hb1) as (? & ? & ? & ? & ? & ? & ? & ? & ?).
Qed.

(** ** Path reconstruction *)

Lemma walk_parents_spec m :
  derived m ->
  ∀ acc, ∃ steps,
    walk_parents m acc = Ret (acc ++ steps) ∧ length steps = length (parents m).
Proof.
  induction m as [a s d|a s p d IH] using Matrix_ind; intros Hm acc.
  - exists []. by rewrite app_nil_r.
  - destruct Hm as [Hp [d' Hd]].
    destruct (SolutionStep_init_play_only _ _ _ (derived_state p Hp) Hd)
      as (x & y & v & _ & _ & _ & Hstep).
    destruct (IH Hp (acc ++ [{| click := Some v; target := clone (Build_Matrix a s (Some p) d) |}]))
      as (steps & Hsteps & Hlen).
    eexists (_ :: steps). cbn [walk_parents]. rewrite Hstep. cbn [mbind outcome_bind].
    rewrite Hsteps, <- app_assoc. split; [done|]. simpl. by rewrite Hlen.
Qed.

Lemma reconstruct_spec m :
  derived m -> ∃ steps, reconstruct m = Ret steps ∧ length steps = length (parents m).
Proof.
  intros Hm. destruct (walk_parents_spec m Hm []) as (steps & Hsteps & Hlen).
  exists (reverse steps). unfold reconstruct. rewrite Hsteps. simpl.
  split; [done|]. by rewrite length_reverse.
Qed.

(** ** Breadth-first search *)

(** What one round of the loop appends to the queue. *)
Definition expand (target : Matrix) : list Matrix :=
  match play target None with
  | Ret new_targets =>
      filter (fun new_target => negb (Matrix_in new_target (parents target))) new_targets
  | _ => []
  end.

(** The queue, level by level: the matrices [k] moves away from the root
    along branches that never come back to the grid of an ancestor. *)
Fixpoint level (k : nat) (root : Matrix) : list Matrix :=
  match k with
  | O => [root]
  | S k => level k root ≫= expand
  end.

(** The number of rounds that empty the levels below [k]. *)
Fixpoint rounds (k : nat) (root : Matrix) : nat :=
  match k with
  | O => O
  | S k => (rounds k root + length (level k root))%nat
  end.

Definition goal (final m : Matrix) : Prop := _arrangement m = _arrangement final.

#[global] Instance goal_dec final m : Decision (goal final m).
Proof. unfold goal. apply _. Defined.

Lemma Matrix_eq_goal final m : Matrix_eq m final = bool_decide (goal final m).
Proof. reflexivity. Qed.

Lemma Matrix_in_spec x xs :
  Matrix_in x xs = true <-> ∃ e, e ∈ xs ∧ _arrangement e = _arrangement x.
Proof.
  unfold Matrix_in. rewrite existsb_exists. split.
  - intros (e & He & Heq). exists e. split; [by apply list_elem_of_In|].
    by apply bool_decide_eq_true in Heq.
  - intros (e & He & Heq). exists e. split; [by apply list_elem_of_In|].
    by apply bool_decide_eq_true.
Qed.

Lemma elem_of_expand m s :
  state m ->
  s ∈ expand m <->
  (∃ d, play_only m d = Ret (Some s)) ∧ Matrix_in s (parents m) = false.
Proof.
  intros Hm. unfold expand. destruct (play_elem_of m Hm) as (l & -> & Hl).
  rewrite list_elem_of_filter, Hl.
  destruct (Matrix_in s (parents m)); simpl; intuition done.
Qed.

Lemma bfs_loop_pass final q1 :
  Forall (fun t => state t ∧ ¬ goal final t) q1 ->
  ∀ q2 fuel,
    bfs_loop (length q1 + fuel) final (q1 ++ q2) = bfs_loop fuel final (q2 ++ (q1 ≫= expand)).
Proof.
  induction 1 as [|t q1 [Ht Hg] _ IH]; intros q2 fuel.
  - simpl. by rewrite app_nil_r.
  - cbn [length Nat.add app bfs_loop]. rewrite Matrix_eq_goal, bool_decide_eq_false_2 by done.
    destruct (play_elem_of t Ht) as (l & Hl & _).
    assert (expand t = filter (fun n => negb (Matrix_in n (parents t))) l) as Hexp
      by (unfold expand; by rewrite Hl).
    rewrite Hl. cbn [mbind outcome_bind]. rewrite <- Hexp, <- app_assoc, IH.
    by rewrite <- app_assoc.
Qed.

Lemma bfs_loop_hit final q1 g q2 fuel :
  Forall (fun t => state t ∧ ¬ goal final t) q1 -> goal final g ->
  bfs_loop (length q1 + S fuel) final (q1 ++ g :: q2) =
  (steps ← reconstruct g; Ret (Some steps)).
Proof.
  intros Hq1 Hg. rewrite bfs_loop_pass by done. cbn [app bfs_loop].
  by rewrite Matrix_eq_goal, bool_decide_eq_true_2.
Qed.

Lemma level_derived root k : derived root -> Forall derived (level k root).
Proof.
  intros Hroot. induction k as [|k IH]; simpl; [by constructor|].
  apply Forall_forall. intros s Hs.
  apply list_elem_of_bind in Hs as (t & Hs & Ht).
  rewrite Forall_forall in IH. pose proof (IH t Ht) as Hdt.
  apply (elem_of_expand t s (derived_state t Hdt)) in Hs as [[d Hd] _].
  by eapply derived_play_only.
Qed.

Lemma level_parents root k m :
  derived root -> parents root = [] -> m ∈ level k root ->
  length (parents m) = k ∧
  ∀ a, a ∈ parents m -> ∃ j, (j < k)%nat ∧ a ∈ level j root.
Proof.
  intros Hroot Hnil. revert m. induction k as [|k IH]; intros m Hm.
  - apply list_elem_of_singleton in Hm as ->. rewrite Hnil. split; [done|].
    intros a Ha. by apply not_elem_of_nil in Ha.
  - simpl in Hm. apply list_elem_of_bind in Hm as (t & Hm & Ht).
    pose proof (level_derived root k Hroot) as Hd. rewrite Forall_forall in Hd.
    pose proof (derived_state t (Hd t Ht)) as Hst.
    apply (elem_of_expand t m Hst) in Hm as [[d Hp] _].
    rewrite (parents_play_only t d m Hst Hp). destruct (IH t Ht) as [Hlen Hanc].
    split; [simpl; by rewrite Hlen|].
    intros a [->|Ha]%elem_of_cons.
    + exists k. split; [lia|done].
    + destruct (Hanc a Ha) as (j & Hj & Hin). exists j. split; [lia|done].
Qed.

Lemma level_run root k m :
  derived root -> m ∈ level k root ->
  ∃ ds, length ds = k ∧ run root ds = Ret (Some m).
Proof.
  intros Hroot. revert m. induction k as [|k IH]; intros m Hm.
  - apply list_elem_of_singleton in Hm as ->. by exists [].
  - simpl in Hm. apply list_elem_of_bind in Hm as (t & Hm & Ht).
    pose proof (level_derived root k Hroot) as Hd. rewrite Forall_forall in Hd.
    apply (elem_of_expand t m (derived_state t (Hd t Ht))) in Hm as [[d Hp] _].
    destruct (IH t Ht) as (ds & Hlen & Hrun). exists (ds ++ [d]).
    split; [rewrite length_app; simpl; lia|]. apply run_snoc_Some. by exists t.
Qed.

(** Every grid a path of [n] legal moves reaches stands in a level not
    beyond [n]. *)
Lemma run_level root ds m :
  derived root -> parents root = [] -> run root ds = Ret (Some m) ->
  ∃ k m', (k <= length ds)%nat ∧ m' ∈ level k root ∧ _arrangement m' = _arrangement m.
Proof.
  intros Hroot Hnil. revert m. induction ds as [|d ds IH] using rev_ind; intros m Hrun.
  - injection Hrun as <-. exists O, root. split; [done|]. split; [by left|done].
  - apply run_snoc_Some in Hrun as (m1 & Hrun & Hp).
    destruct (IH m1 Hrun) as (k & t & Hk & Ht & Hgrid).
    pose proof (level_derived root k Hroot) as Hd. rewrite Forall_forall in Hd.
    pose proof (derived_state t (Hd t Ht)) as Hst.
    pose proof (run_state root ds m1 (derived_state root Hroot) Hrun) as Hm1.
    destruct (play_only_grid_Some m1 t d m Hm1 Hst (eq_sym Hgrid) Hp) as (c & Hc & Hcm).
    rewrite length_app. simpl.
    destruct (Matrix_in c (parents t)) eqn:Hin.
    + apply Matrix_in_spec in Hin as (a & Ha & Hac).
      destruct (level_parents root k t Hroot Hnil Ht) as [_ Hanc].
      destruct (Hanc a Ha) as (j & Hj & Hjin). exists j, a.
      split; [lia|]. split; [done|congruence].
    + exists (S k), c. split; [lia|]. split; [|done].
      simpl. apply list_elem_of_bind. exists t. split; [|done].
      apply elem_of_expand; [done|]. split; [by exists d|done].
Qed.

Lemma bfs_levels final root k :
  derived root ->
  (∀ j, (j < k)%nat -> Forall (fun t => ¬ goal final t) (level j root)) ->
  ∀ fuel, bfs_loop (rounds k root + fuel) final [root] = bfs_loop fuel final (level k root).
Proof.
  intros Hroot. induction k as [|k IH]; intros Hno fuel; [done|].
  cbn [rounds]. rewrite <- Nat.add_assoc, IH by (intros j Hj; apply Hno; lia).
  rewrite <- (app_nil_r (level k root)) at 2. rewrite bfs_loop_pass; [done|].
  pose proof (level_derived root k Hroot) as Hd.
  specialize (Hno k (Nat.lt_succ_diag_r k)). rewrite Forall_forall in Hd, Hno.
  apply Forall_forall. intros t Ht. split; [by apply derived_state, Hd|by apply Hno].
Qed.

Lemma least_nat (P : nat -> Prop) `{∀ n, Decision (P n)} n :
  P n -> ∃ k, (k <= n)%nat ∧ P k ∧ ∀ j, (j < k)%nat -> ¬ P j.
Proof.
  assert (∀ n, (∀ j, (j < n)%nat -> ¬ P j) ∨
               ∃ k, (k < n)%nat ∧ P k ∧ ∀ j, (j < k)%nat -> ¬ P j) as Hscan.
  { clear n. induction n as [|n [IH|(k & Hk & HPk & Hmin)]].
    - left. intros j Hj. lia.
    - destruct (decide (P n)) as [Hn|Hn].
      + right. exists n. split; [lia|done].
      + left. intros j Hj. destruct (decide (j = n)) as [->|Hne]; [done|].
        apply IH. lia.
    - right. exists k. split; [lia|done]. }
  intros Hn. destruct (Hscan n) as [Hnone|(k & Hk & HPk & Hmin)].
  - exists n. split; [done|]. split; done.
  - exists k. split; [lia|done].
Qed.

Lemma first_goal final l :
  Exists (goal final) l ->
  ∃ a g b, l = a ++ g :: b ∧ Forall (fun t => ¬ goal final t) a ∧ goal final g.
Proof.
  induction l as [|t l IH]; intros Hex; [by apply Exists_nil in Hex|].
  destruct (decide (goal final t)) as [Ht|Ht].
  - exists [], t, l. split; [done|]. split; [constructor|done].
  - apply Exists_cons in Hex as [Hex|Hex]; [done|].
    destruct (IH Hex) as (a & g & b & -> & Ha & Hg).
    exists (t :: a), g, b. split; [done|]. split; [by constructor|done].
Qed.

(** The search from a root without parent: the first level that holds the
    grid of [final] decides the answer, and no path is shorter. *)
Lemma bfs_loop_shortest final root :
  derived root -> parents root = [] ->
  (∃ ds m, run root ds = Ret (Some m) ∧ goal final m) ->
  ∃ fuel steps ds g,
    (∀ fuel', (fuel <= fuel')%nat -> bfs_loop fuel' final [root] = Ret (Some steps)) ∧
    run root ds = Ret (Some g) ∧ goal final g ∧
    reconstruct g = Ret steps ∧ length steps = length ds ∧
    ∀ ds' m', run root ds' = Ret (Some m') -> goal final m' ->
      (length steps <= length ds')%nat.
Proof.
  intros Hroot Hnil (ds0 & m0 & Hrun0 & Hgoal0).
  destruct (run_level root ds0 m0 Hroot Hnil Hrun0) as (k0 & t0 & _ & Ht0 & Hgrid0).
  assert (Exists (goal final) (level k0 root)) as Hex0.
  { apply Exists_exists. exists t0. split; [done|]. unfold goal in *. congruence. }
  destruct (least_nat (fun k => Exists (goal final) (level k root)) k0 Hex0)
    as (k & _ & Hex & Hmin).
  destruct (first_goal final _ Hex) as (a & g & b & Hlevel & Ha & Hg).
  pose proof (level_derived root k Hroot) as Hd. rewrite Forall_forall in Hd.
  assert (g ∈ level k root) as Hgin by (rewrite Hlevel; set_solver).
  destruct (reconstruct_spec g (Hd g Hgin)) as (steps & Hsteps & Hlen).
  destruct (level_parents root k g Hroot Hnil Hgin) as [Hdepth _].
  destruct (level_run root k g Hroot Hgin) as (ds & Hds & Hrun).
  exists (rounds k root + (length a + 1))%nat, steps, ds, g.
  split; [|split; [done|split; [done|split; [done|split; [lia|]]]]].
  - intros fuel' Hfuel.
    replace fuel' with (rounds k root + (length a + S (fuel' - (rounds k root + (length a + 1)))))%nat
      by lia.
    rewrite bfs_levels; [|done|].
    + rewrite Hlevel, bfs_loop_hit, Hsteps; [done| |done].
      apply Forall_forall. intros t Ht. rewrite Forall_forall in Ha.
      split; [|by apply Ha]. apply derived_state, Hd. rewrite Hlevel. set_solver.
    + intros j Hj. apply Forall_forall. intros t Ht Hgt.
      apply (Hmin j Hj). apply Exists_exists. by exists t.
  - intros ds' m' Hrun' Hgoal'.
    destruct (run_level root ds' m' Hroot Hnil Hrun') as (k' & t' & Hk' & Ht' & Hgrid').
    destruct (decide (k <= k')%nat) as [Hle|Hlt]; [lia|]. exfalso.
    apply (Hmin k'); [lia|]. apply Exists_exists. exists t'. split; [done|].
    unfold goal in *. congruence.
Qed.

(** C1. When some path of legal moves leads from [initial_matrix] to the grid of
    [final_matrix], [BreadthFirstSearch.solve] returns, for every loop bound from
    some bound on, one and the same step list; the list is the
    reconstruction of a path of legal moves from the root to a matrix
    grid-equal to [final_matrix], with one step per move, and no path of legal
    moves from [initial_matrix] to the grid of [final_matrix] has fewer moves. *)
Theorem BreadthFirstSearch_shortest (initial_matrix final_matrix : Matrix) :
  state initial_matrix ->
  (∃ ds m, run initial_matrix ds = Ret (Some m) ∧ Matrix_eq m final_matrix = true) ->
  ∃ fuel steps ds g,
    (∀ fuel', (fuel <= fuel')%nat ->
       BreadthFirstSearch_solve fuel' (SolutionAlgorithm_init initial_matrix final_matrix)
       = Ret (Some steps)) ∧
    run (clone initial_matrix) ds = Ret (Some g) ∧ Matrix_eq g final_matrix = true ∧
    reconstruct g = Ret steps ∧ length steps = length ds ∧
    ∀ ds' m', run initial_matrix ds' = Ret (Some m') -> Matrix_eq m' final_matrix = true ->
      (length steps <= length ds')%nat.
Proof.
  intros Hinit (ds0 & m0 & Hrun0 & Hgoal0).
  apply bool_decide_eq_true in Hgoal0.
  pose proof (state_clone initial_matrix Hinit) as Hclone.
  destruct (run_grid initial_matrix (clone initial_matrix) ds0 m0 Hinit Hclone eq_refl Hrun0)
    as (m1 & Hrun1 & Hgrid1).
  destruct (bfs_loop_shortest (clone final_matrix) (clone initial_matrix) (derived_clone initial_matrix Hinit) eq_refl)
    as (fuel & steps & ds & g & Hfuel & Hrun & Hg & Hsteps & Hlen & Hmin).
  { exists ds0, m1. split; [done|]. unfold goal. simpl. congruence. }
  exists fuel, steps, ds, g. split; [exact Hfuel|]. split; [done|].
  split; [by apply bool_decide_eq_true|]. split; [done|]. split; [done|].
  intros ds' m' Hrun' Hgoal'. apply bool_decide_eq_true in Hgoal'.
  destruct (run_grid initial_matrix (clone initial_matrix) ds' m' Hinit Hclone eq_refl Hrun')
    as (m'' & Hrun'' & Hgrid'').
  apply (Hmin ds' m'' Hrun''). unfold goal. simpl. congruence.
Qed.

Lemma BreadthFirstSearch_shortest_witness :
  ∃ fuel steps ds g,
    (∀ fuel', (fuel <= fuel')%nat ->
       BreadthFirstSearch_solve fuel' (SolutionAlgorithm_init centre centre_right)
       = Ret (Some steps)) ∧
    run (clone centre) ds = Ret (Some g) ∧ Matrix_eq g centre_right = true ∧
    reconstruct g = Ret steps ∧ length steps = length ds ∧
    ∀ ds' m', run centre ds' = Ret (Some m') -> Matrix_eq m' centre_right = true ->
      (length steps <= length ds')%nat.
Proof.
  apply (BreadthFirstSearch_shortest centre centre_right).
  - split; reflexivity.
  - exists [RIGHT], centre_then_right. split; reflexivity.
Defined.

(** The example of the specification: from ["123"; "4#5"; "678"] to
    ["123"; "45#"; "678"] the search returns the one step that clicks the
    tile 5. *)
Example BreadthFirstSearch_centre_right :
  BreadthFirstSearch_solve 4 (SolutionAlgorithm_init centre centre_right)
  = Ret (Some [{| click := Some 5; target := centre_right |}]).
Proof. by vm_compute. Qed.

(** ** Depth-first search *)

(** The matrix the traversal stops at: the first child, in the order of
    [expand], that is grid-equal to [final] or below which the search with
    one level less finds one. *)
Fixpoint first_found (find : Matrix -> option Matrix) (final : Matrix)
    (children : list Matrix) : option Matrix :=
  match children with
  | [] => None
  | child :: rest =>
      if decide (goal final child) then Some child
      else match find child with
           | Some g => Some g
           | None => first_found find final rest
           end
  end.

Fixpoint dfs_find (n : nat) (final target : Matrix) : option Matrix :=
  match n with
  | O => None
  | S n => first_found (dfs_find n final) final (expand target)
  end.

Definition answer (found : option Matrix) : outcome (option (list SolutionStep)) :=
  match found with
  | Some g => steps ← reconstruct g; Ret (Some steps)
  | None => Ret None
  end.

Lemma for_child_answer recurse find final children :
  (∀ child, child ∈ children -> recurse child = answer (find child)) ->
  for_child recurse final children = answer (first_found find final children).
Proof.
  induction children as [|child rest IH]; intros Hrec; [done|].
  cbn [for_child first_found]. rewrite Matrix_eq_goal.
  destruct (decide (goal final child)) as [Hg|Hg].
  - by rewrite bool_decide_eq_true_2.
  - rewrite bool_decide_eq_false_2 by done. rewrite Hrec by left.
    destruct (find child) as [g|]; simpl.
    + by destruct (reconstruct g).
    + apply IH. intros c Hc. apply Hrec. by right.
Qed.

Lemma expand_derived target : derived target -> Forall derived (expand target).
Proof.
  intros Ht. apply Forall_forall. intros s Hs.
  apply (elem_of_expand target s (derived_state target Ht)) in Hs as [[d Hd] _].
  by eapply derived_play_only.
Qed.

Lemma expand_play target :
  state target ->
  ∃ l, play target None = Ret l ∧
       expand target = filter (fun c => negb (Matrix_in c (parents target))) l.
Proof.
  intros Ht. destruct (play_elem_of target Ht) as (l & Hl & _).
  exists l. split; [done|]. unfold expand. by rewrite Hl.
Qed.

(** With enough fuel [_dfs] returns, and what it returns is the
    reconstruction of the matrix [dfs_find] stops at. *)
Lemma _dfs_answer self n :
  ∀ fuel depth target,
    derived target -> n = Z.to_nat (depth_limit self - depth + 1) -> (n < fuel)%nat ->
    _dfs fuel self depth target = answer (dfs_find n (final (dfs_base self)) target).
Proof.
  induction n as [|n IH]; intros fuel depth target Ht Hn Hfuel;
    (destruct fuel as [|fuel]; [lia|]); cbn [_dfs dfs_find]; cbv zeta.
  - assert ((depth >? depth_limit self) = true) as -> by lia. done.
  - assert ((depth >? depth_limit self) = false) as -> by lia.
    destruct (expand_play target (derived_state target Ht)) as (l & Hl & Hexp).
    rewrite Hl. cbn [mbind outcome_bind]. rewrite <- Hexp. apply for_child_answer. intros child Hc.
    pose proof (expand_derived target Ht) as Hd. rewrite Forall_forall in Hd.
    apply IH; [by apply Hd|lia|lia].
Qed.

Lemma first_found_Some find final children g :
  first_found find final children = Some g ->
  ∃ child, child ∈ children ∧ ((g = child ∧ goal final g) ∨ find child = Some g).
Proof.
  induction children as [|child rest IH]; [done|]. cbn [first_found].
  destruct (decide (goal final child)) as [Hg|Hg].
  - intros [= <-]. exists child. split; [left|]. by left.
  - destruct (find child) as [g'|] eqn:Hf.
    + intros [= <-]. exists child. split; [left|]. by right.
    + intros (c & Hc & H)%IH. exists c. split; [by right|done].
Qed.

(** The matrix found is derived, grid-equal to [final], and at most [n]
    moves below [target]. *)
Lemma dfs_find_Some n final :
  ∀ target g,
    derived target -> dfs_find n final target = Some g ->
    derived g ∧ goal final g ∧
    (length (parents target) < length (parents g) <= length (parents target) + n)%nat.
Proof.
  induction n as [|n IH]; intros target g Ht; [done|]. cbn [dfs_find].
  intros (child & Hc & H)%first_found_Some.
  pose proof (expand_derived target Ht) as Hd. rewrite Forall_forall in Hd.
  pose proof (derived_state target Ht) as Hst.
  apply (elem_of_expand target child Hst) in Hc as Hc'. destruct Hc' as [[d Hp] _].
  pose proof (parents_play_only target d child Hst Hp) as Hpar.
  destruct H as [[-> Hg]|Hf].
  - split; [by apply Hd|]. split; [done|]. rewrite Hpar. simpl. lia.
  - destruct (IH child g (Hd child Hc) Hf) as (Hdg & Hg & Hlen).
    split; [done|]. split; [done|]. rewrite Hpar in Hlen. simpl in Hlen. lia.
Qed.

Lemma first_found_goal find final children c :
  c ∈ children -> goal final c -> is_Some (first_found find final children).
Proof.
  induction children as [|child rest IH]; intros Hc Hg; [by apply not_elem_of_nil in Hc|].
  cbn [first_found]. destruct (decide (goal final child)); [by eexists|].
  destruct (find child); [by eexists|]. apply IH; [|done].
  apply elem_of_cons in Hc as [->|Hc]; done.
Qed.

Lemma first_found_unique final children c :
  c ∈ children -> goal final c ->
  (∀ c', c' ∈ children -> goal final c' -> c' = c) ->
  first_found (fun _ => None) final children = Some c.
Proof.
  induction children as [|child rest IH]; intros Hc Hg Huniq; [by apply not_elem_of_nil in Hc|].
  cbn [first_found]. destruct (decide (goal final child)) as [Hg'|Hg'].
  - f_equal. apply Huniq; [left|done].
  - apply IH; [|done|].
    + apply elem_of_cons in Hc as [->|Hc]; done.
    + intros c' Hc'. apply Huniq. by right.
Qed.

Lemma for_child_Some recurse final children steps :
  for_child recurse final children = Ret (Some steps) ->
  ∃ child, child ∈ children ∧
    ((goal final child ∧ reconstruct child = Ret steps) ∨ recurse child = Ret (Some steps)).
Proof.
  induction children as [|child rest IH]; [done|]. cbn [for_child].
  rewrite Matrix_eq_goal. case_bool_decide as Hg.
  - destruct (reconstruct child) as [s| | |] eqn:Hr; try done. intros [= <-].
    exists child. split; [left|]. by left.
  - destruct (recurse child) as [[s|]| | |] eqn:Hr; try done.
    + intros [= <-]. exists child. split; [left|]. by right.
    + intros (c & Hc & H)%IH. exists c. split; [by right|done].
Qed.

(** Whatever the fuel, a step list [_dfs] returns at depth [depth] is no
    longer than the limit. *)
Lemma _dfs_length self fuel :
  ∀ depth target steps,
    derived target -> depth = Z.of_nat (length (parents target)) + 1 ->
    _dfs fuel self depth target = Ret (Some steps) ->
    Z.of_nat (length steps) <= depth_limit self.
Proof.
  induction fuel as [|fuel IH]; intros depth target steps Ht Hdepth; [done|].
  cbn [_dfs]. cbv zeta. destruct (depth >? depth_limit self) eqn:Hlimit; [done|].
  destruct (expand_play target (derived_state target Ht)) as (l & Hl & Hexp).
  rewrite Hl. cbn [mbind outcome_bind]. rewrite <- Hexp.
  intros (child & Hc & H)%for_child_Some.
  pose proof (expand_derived target Ht) as Hd. rewrite Forall_forall in Hd.
  pose proof (derived_state target Ht) as Hst.
  apply (elem_of_expand target child Hst) in Hc as Hc'. destruct Hc' as [[d Hp] _].
  pose proof (parents_play_only target d child Hst Hp) as Hpar.
  destruct H as [[_ Hr]|Hr].
  - destruct (reconstruct_spec child (Hd child Hc)) as (steps' & Hr' & Hlen).
    rewrite Hr in Hr'. injection Hr' as <-. rewrite Hlen, Hpar. simpl. lia.
  - apply (IH (depth + 1) child steps (Hd child Hc)); [|done]. rewrite Hpar. simpl. lia.
Qed.

Lemma destination_inj x y d d' : destination x y d = destination x y d' -> d = d'.
Proof.
  destruct d, d'; unfold destination; simpl; intros H; try done;
    pose proof (f_equal fst H) as H1; pose proof (f_equal snd H) as H2; simpl in *; lia.
Qed.

(** Two successors of a state with equal grids are one successor. *)
Lemma play_only_inj m d d' s s' :
  state m -> play_only m d = Ret (Some s) -> play_only m d' = Ret (Some s') ->
  _arrangement s = _arrangement s' -> s = s'.
Proof.
  intros Hm Hs Hs' Hgrid.
  destruct (play_only_Some m d s Hm Hs) as (x & y & _ & Hsp & _ & _ & _ & Hst & Hd & _).
  destruct (play_only_Some m d' s' Hm Hs') as (x' & y' & _ & Hsp' & _ & _ & _ & Hst' & Hd' & _).
  rewrite Hsp in Hsp'. injection Hsp' as <- <-.
  pose proof (state_space_eq s s' Hst Hst' Hgrid) as Heq. rewrite Hd, Hd' in Heq.
  assert (d = d') as <- by (apply (destination_inj x y); congruence). congruence.
Qed.

Lemma dfs_find_run n final :
  ∀ target g,
    derived target -> dfs_find n final target = Some g ->
    ∃ ds, run target ds = Ret (Some g) ∧
          (length (parents g) = length (parents target) + length ds)%nat.
Proof.
  induction n as [|n IH]; intros target g Ht; [done|]. cbn [dfs_find].
  intros (child & Hc & H)%first_found_Some.
  pose proof (expand_derived target Ht) as Hd. rewrite Forall_forall in Hd.
  pose proof (derived_state target Ht) as Hst.
  apply (elem_of_expand target child Hst) in Hc as Hc'. destruct Hc' as [[d Hp] _].
  pose proof (parents_play_only target d child Hst Hp) as Hpar.
  destruct H as [[-> Hg]|Hf].
  - exists [d]. simpl. rewrite Hp. simpl. split; [done|]. rewrite Hpar. simpl. lia.
  - destruct (IH child g (Hd child Hc) Hf) as (ds & Hrun & Hlen).
    exists (d :: ds). simpl. rewrite Hp. simpl. split; [done|].
    rewrite Hlen, Hpar. simpl. lia.
Qed.

Definition corner : Matrix :=
  {| _arrangement := [[-1; 1; 2]; [3; 4; 5]; [6; 7; 8]];
     _space_position := Some (0, 0);
     parent := None;
     last_direction := None |}.

Definition corner_down : Matrix :=
  {| _arrangement := [[3; 1; 2]; [-1; 4; 5]; [6; 7; 8]];
     _space_position := Some (1, 0);
     parent := None;
     last_direction := None |}.

(** C4 as the code has it.  From a state [initial_matrix]: with limit 0 and a
    [final_matrix] with another grid the search returns [None]; with a limit of
    at least 1 and [final_matrix] one legal move away it returns, whatever the
    fuel beyond the limit, the reconstruction of a path of legal moves from
    the root to the grid of [final_matrix] with between 1 and [limit] steps, and
    with limit 1 this is the one step of that move; and no step list it
    returns is longer than the limit. *)
Theorem DepthFirstSearch_depth_limit (initial_matrix final_matrix : Matrix) :
  state initial_matrix ->
  (Matrix_eq initial_matrix final_matrix = false ->
   ∀ fuel, (0 < fuel)%nat ->
     DepthFirstSearch_solve fuel (DepthFirstSearch_init 0 initial_matrix final_matrix) = Ret None) ∧
  (∀ limit d B,
     1 <= limit -> play_only (clone initial_matrix) d = Ret (Some B) -> Matrix_eq B final_matrix = true ->
     ∃ steps ds g,
       (∀ fuel, (Z.to_nat limit < fuel)%nat ->
          DepthFirstSearch_solve fuel (DepthFirstSearch_init limit initial_matrix final_matrix)
          = Ret (Some steps)) ∧
       run (clone initial_matrix) ds = Ret (Some g) ∧ Matrix_eq g final_matrix = true ∧
       reconstruct g = Ret steps ∧ length steps = length ds ∧
       1 <= Z.of_nat (length steps) <= limit ∧
       (limit = 1 ->
        ∃ step, SolutionStep_init (clone initial_matrix) B = Ret step ∧ steps = [step])) ∧
  (∀ limit fuel steps,
     DepthFirstSearch_solve fuel (DepthFirstSearch_init limit initial_matrix final_matrix) = Ret (Some steps) ->
     Z.of_nat (length steps) <= limit).
Proof.
  intros Hinit. pose proof (derived_clone initial_matrix Hinit) as Hroot.
  split; [|split].
  - intros _ [|fuel] Hfuel; [lia|]. reflexivity.
  - intros limit d B Hlimit HB Hgoal. apply bool_decide_eq_true in Hgoal.
    assert (goal (clone final_matrix) B) as HgB by done.
    assert (B ∈ expand (clone initial_matrix)) as HBin.
    { apply elem_of_expand; [by apply state_clone|]. split; [by exists d|done]. }
    set (self := DepthFirstSearch_init limit initial_matrix final_matrix).
    destruct (Z.to_nat limit) as [|n] eqn:Hn; [lia|].
    destruct (first_found_goal (dfs_find n (clone final_matrix)) (clone final_matrix) _ B HBin HgB)
      as [g Hfound].
    assert (dfs_find (S n) (clone final_matrix) (clone initial_matrix) = Some g) as Hfind by done.
    destruct (dfs_find_Some _ _ _ _ Hroot Hfind) as (Hdg & Hg & Hlen).
    destruct (dfs_find_run _ _ _ _ Hroot Hfind) as (ds & Hrun & Hlen').
    destruct (reconstruct_spec g Hdg) as (steps & Hsteps & Hlens).
    exists steps, ds, g. simpl in Hlen, Hlen'.
    split; [|split; [done|split; [by apply bool_decide_eq_true|split; [done|split; [lia|split; [lia|]]]]]].
    + intros fuel Hfuel. unfold DepthFirstSearch_solve.
      rewrite (_dfs_answer self (S n)); [|done|change (depth_limit self) with limit; lia|lia].
      change (final (dfs_base self)) with (clone final_matrix).
      change (initial (dfs_base self)) with (clone initial_matrix).
      rewrite Hfind. cbn [answer]. by rewrite Hsteps.
    + intros ->. assert (n = O) as -> by lia.
      assert (g = B) as ->.
      { change (first_found (fun _ => None) (clone final_matrix) (expand (clone initial_matrix)) = Some g)
          in Hfound.
        rewrite (first_found_unique (clone final_matrix) _ B HBin HgB) in Hfound; [congruence|].
        intros c Hc Hgc.
        apply (elem_of_expand _ _ (state_clone initial_matrix Hinit)) in Hc as [[d' Hc] _].
        apply (play_only_inj (clone initial_matrix) d' d c B (state_clone initial_matrix Hinit) Hc HB).
        unfold goal in *. congruence. }
      destruct (SolutionStep_init_play_only _ _ _ (state_clone initial_matrix Hinit) HB)
        as (x & y & v & _ & _ & _ & Hstep).
      eexists. split; [exact Hstep|].
      destruct (play_only_Some _ _ _ (state_clone initial_matrix Hinit) HB)
        as (_ & _ & _ & _ & _ & _ & _ & _ & _ & Hpar & _).
      rewrite (parent_Some B _ Hpar) in Hsteps. unfold reconstruct in Hsteps.
      cbn [walk_parents] in Hsteps. rewrite <- (parent_Some B _ Hpar) in Hsteps.
      rewrite Hstep in Hsteps. simpl in Hsteps. by injection Hsteps as <-.
  - intros limit fuel steps Hsolve.
    apply (_dfs_length (DepthFirstSearch_init limit initial_matrix final_matrix) fuel 1 (clone initial_matrix) steps);
      done.
Qed.

Lemma DepthFirstSearch_depth_limit_witness :
  (Matrix_eq centre centre_right = false ->
   ∀ fuel, (0 < fuel)%nat ->
     DepthFirstSearch_solve fuel (DepthFirstSearch_init 0 centre centre_right) = Ret None) ∧
  (∀ limit d B,
     1 <= limit -> play_only (clone centre) d = Ret (Some B) ->
     Matrix_eq B centre_right = true ->
     ∃ steps ds g,
       (∀ fuel, (Z.to_nat limit < fuel)%nat ->
          DepthFirstSearch_solve fuel (DepthFirstSearch_init limit centre centre_right)
          = Ret (Some steps)) ∧
       run (clone centre) ds = Ret (Some g) ∧ Matrix_eq g centre_right = true ∧
       reconstruct g = Ret steps ∧ length steps = length ds ∧
       1 <= Z.of_nat (length steps) <= limit ∧
       (limit = 1 ->
        ∃ step, SolutionStep_init (clone centre) B = Ret step ∧ steps = [step])) ∧
  (∀ limit fuel steps,
     DepthFirstSearch_solve fuel (DepthFirstSearch_init limit centre centre_right)
     = Ret (Some steps) ->
     Z.of_nat (length steps) <= limit).
Proof. apply (DepthFirstSearch_depth_limit centre centre_right). split; reflexivity. Defined.

(** C4 as stated fails twice.  With limit 0 and [initial] grid-equal to
    [final] the search returns [None], not the empty step list.  With limit
    11 on a pair one move apart ([DOWN] from ["#12"; "345"; "678"]) the
    search goes [RIGHT] first and returns eleven steps, not the one step. *)
Lemma DepthFirstSearch_counterexample :
  Matrix_eq centre centre = true ∧
  DepthFirstSearch_solve 1 (DepthFirstSearch_init 0 centre centre) = Ret None ∧
  (∃ B, play_only (clone corner) DOWN = Ret (Some B) ∧ Matrix_eq B corner_down = true) ∧
  ∃ steps,
    DepthFirstSearch_solve 12 (DepthFirstSearch_init 11 corner corner_down)
    = Ret (Some steps) ∧
    length steps = 11%nat ∧
    click <$> steps = Some <$> [1; 4; 3; 1; 4; 3; 1; 4; 3; 1; 4].
Proof.
  split; [reflexivity|]. split; [reflexivity|]. split.
  - eexists. split; reflexivity.
  - eexists. split; [by vm_compute|]. split; reflexivity.
Qed.

(** ** Fitness of an individual *)

Lemma positional_inner_le ideal element i j positions :
  ∀ value v, positional_inner ideal element i j positions value = Ret v -> v <= value.
Proof.
  induction positions as [|[m n] rest IH]; intros value v; simpl.
  - intros [= <-]. lia.
  - destruct (fetch ideal m n) as [number| | |]; try done. simpl.
    intros H%IH. destruct (number =? element); [|done].
    assert (0 <= (Z.abs (i - m) + Z.abs (j - n)) ^ 2) by (apply Z.pow_nonneg; lia). lia.
Qed.

Lemma positional_outer_le target ideal positions :
  ∀ value v, positional_outer target ideal positions value = Ret v -> v <= value.
Proof.
  induction positions as [|[i j] rest IH]; intros value v; cbn [positional_outer].
  - intros [= <-]. lia.
  - destruct (fetch target i j) as [element| | |]; try done. cbn [mbind outcome_bind].
    destruct (positional_inner ideal element i j (cells MATRIX_SIZE) value) as [v'| | |] eqn:Hin;
      try done.
    cbn [mbind outcome_bind]. intros H%IH. apply positional_inner_le in Hin. lia.
Qed.

Lemma positional_adaptivity_le target ideal v :
  positional_adaptivity target ideal = Ret v -> v <= 0.
Proof. apply positional_outer_le. Qed.

Lemma positional_inner_total ideal element i j positions :
  shaped (_arrangement ideal) -> (∀ m n, (m, n) ∈ positions -> in_bounds m n) ->
  ∀ value, ∃ v, positional_inner ideal element i j positions value = Ret v.
Proof.
  intros Hs. induction positions as [|[m n] rest IH]; intros Hb value; simpl; [by eexists|].
  destruct (fetch_spec ideal m n Hs (Hb m n (list_elem_of_here _ _))) as (number & -> & _).
  simpl. apply IH. intros m' n' H. apply Hb. by right.
Qed.

Lemma positional_outer_total target ideal positions :
  shaped (_arrangement target) -> shaped (_arrangement ideal) ->
  (∀ i j, (i, j) ∈ positions -> in_bounds i j) ->
  ∀ value, ∃ v, positional_outer target ideal positions value = Ret v.
Proof.
  intros Ht Hi. induction positions as [|[i j] rest IH]; intros Hb value;
    cbn [positional_outer]; [by eexists|].
  destruct (fetch_spec target i j Ht (Hb i j (list_elem_of_here _ _))) as (element & -> & _).
  cbn [mbind outcome_bind].
  destruct (positional_inner_total ideal element i j (cells MATRIX_SIZE) Hi
              (fun m n H => proj1 (elem_of_cells m n) H) value) as (v' & ->).
  cbn [mbind outcome_bind]. apply IH. intros i' j' H. apply Hb. by right.
Qed.

Lemma positional_adaptivity_total target ideal :
  state target -> state ideal ->
  ∃ v, positional_adaptivity target ideal = Ret v ∧ v <= 0.
Proof.
  intros [Ht _] [Hi _].
  destruct (positional_outer_total target ideal (cells MATRIX_SIZE) Ht Hi
              (fun m n H => proj1 (elem_of_cells m n) H) 0) as (v & Hv).
  exists v. split; [done|]. by apply (positional_adaptivity_le target ideal).
Qed.

(** The genome reaches [final]: the state after some move of its legal
    prefix is grid-equal to [final]. *)
Fixpoint reaches (final candidate : Matrix) (genes : list Direction) : bool :=
  match genes with
  | [] => false
  | d :: rest =>
      match play_only candidate d with
      | Ret (Some next) => Matrix_eq next final || reaches final next rest
      | _ => false
      end
  end.

(** The loop left by [return]: the genome cut after index [i] reaches
    [final]. *)
Lemma replay_Returned final genes :
  ∀ i0 candidate last_candidate a i,
    0 <= i0 ->
    replay final i0 genes candidate last_candidate a = Ret (Returned i) ->
    i0 <= i ∧ reaches final candidate (take (Z.to_nat (i - i0 + 1)) genes) = true.
Proof.
  induction genes as [|d genes IH]; intros i0 candidate last a i Hi0; [done|].
  cbn [replay]. destruct (play_only candidate d) as [[next|]| | |] eqn:Hp; try done.
  simpl. destruct (Matrix_eq next final) eqn:Heq.
  - intros [= <-]. split; [lia|]. replace (i0 - i0 + 1) with 1 by lia.
    simpl. by rewrite Hp, Heq.
  - intros [Hle Hr]%IH; [|lia]. split; [lia|].
    replace (Z.to_nat (i - i0 + 1)) with (S (Z.to_nat (i - (i0 + 1) + 1))) by lia.
    rewrite firstn_cons. cbn [reaches]. by rewrite Hp, Heq, Hr.
Qed.

(** The loop left by [break] or by exhaustion: the genome does not reach
    [final], and what was added to [adaptivity] is an index of a gene, or
    nothing. *)
Lemma replay_Left_loop final genes :
  ∀ i0 candidate last_candidate a a' last',
    0 <= i0 ->
    replay final i0 genes candidate last_candidate a = Ret (Left_loop a' last') ->
    reaches final candidate genes = false ∧
    a <= a' <= a + Z.max 0 (i0 + Z.of_nat (length genes) - 1).
Proof.
  induction genes as [|d genes IH]; intros i0 candidate last a a' last' Hi0.
  - intros [= <- <-]. split; [done|]. simpl. lia.
  - cbn [replay reaches].
    destruct (play_only candidate d) as [[next|]| | |] eqn:Hp; try done; simpl.
    + destruct (Matrix_eq next final) eqn:Heq; [done|].
      intros [Hno Hle]%IH; [|lia]. split; [done|]. simpl length. lia.
    + intros [= <- <-]. split; [done|]. simpl length. lia.
Qed.

(** The loop left by [break] at the gene after [prefix]. *)
Lemma replay_break final prefix :
  ∀ i0 candidate last_candidate a last d rest,
    run candidate prefix = Ret (Some last) ->
    reaches final candidate prefix = false ->
    play_only last d = Ret None ->
    replay final i0 (prefix ++ d :: rest) candidate last_candidate a
    = Ret (Left_loop (a + (i0 + Z.of_nat (length prefix))) last).
Proof.
  induction prefix as [|d' prefix IH]; intros i0 candidate last_c a last d rest.
  - intros [= <-] _ Hp. cbn [app replay]. rewrite Hp. simpl. do 2 f_equal. lia.
  - cbn [run reaches app replay].
    destruct (play_only candidate d') as [[next|]| | |] eqn:Hp; try done.
    cbn [mbind outcome_bind]. intros Hrun Hno Hd.
    apply orb_false_iff in Hno as [Heq Hno]. rewrite Heq.
    rewrite (IH (i0 + 1) next candidate a last d rest Hrun Hno Hd).
    do 2 f_equal. simpl length. lia.
Qed.

(** C5 as the code has it.  When the genome, replayed from the state
    [initial], leaves the grid at the gene of index [i] without having
    reached [final], the fitness is [i] plus
    [positional_adaptivity(last, final)], a term that is never positive,
    where [last] is the state the [i] legal moves lead to; the genome is
    kept whole. *)
Theorem calculate_adaptivity_illegal (self : Individual) (initial final last : Matrix)
    (i : nat) (d : Direction) :
  state initial -> state final ->
  gene self !! i = Some d ->
  run (clone initial) (take i (gene self)) = Ret (Some last) ->
  reaches final (clone initial) (take i (gene self)) = false ->
  play_only last d = Ret None ->
  ∃ value,
    positional_adaptivity last final = Ret value ∧ value <= 0 ∧
    calculate_adaptivity self initial final
    = Ret {| gene := gene self; adaptivity := Z.of_nat i + value |}.
Proof.
  intros Hinit Hfinal Hd Hrun Hno Hout.
  pose proof (run_state _ _ _ (state_clone _ Hinit) Hrun) as Hlast.
  destruct (positional_adaptivity_total last final Hlast Hfinal) as (value & Hvalue & Hle).
  exists value. split; [done|]. split; [done|]. unfold calculate_adaptivity.
  rewrite <- (take_drop_middle _ _ _ Hd) at 1.
  rewrite (replay_break final _ 0 _ _ 0 last d _ Hrun Hno Hout).
  cbn [mbind outcome_bind]. rewrite Hvalue. cbn [mbind outcome_bind].
  do 2 f_equal. rewrite length_take_le; [lia|].
  apply lookup_lt_Some in Hd. lia.
Qed.

Lemma calculate_adaptivity_illegal_witness :
  ∃ value,
    positional_adaptivity
      {| _arrangement := [[1; -1; 2]; [3; 4; 5]; [6; 7; 8]];
         _space_position := Some (0, 1);
         parent := Some (clone corner);
         last_direction := Some RIGHT |} corner_down = Ret value ∧ value <= 0 ∧
    calculate_adaptivity {| gene := [RIGHT; UP]; adaptivity := 0 |} corner corner_down
    = Ret {| gene := [RIGHT; UP]; adaptivity := Z.of_nat 1 + value |}.
Proof.
  apply (calculate_adaptivity_illegal {| gene := [RIGHT; UP]; adaptivity := 0 |}
           corner corner_down _ 1 UP).
  - split; reflexivity.
  - split; reflexivity.
  - reflexivity.
  - reflexivity.
  - reflexivity.
  - reflexivity.
Defined.

(** C5 as stated fails: from ["#12"; "345"; "678"] the genome
    [RIGHT, UP] makes one legal move and leaves the grid at index 1, never
    reaching ["312"; "#45"; "678"], and the fitness is 1 - 6, not 1. *)
Lemma calculate_adaptivity_counterexample :
  (∃ last, run (clone corner) [RIGHT] = Ret (Some last) ∧ play_only last UP = Ret None) ∧
  reaches corner_down (clone corner) [RIGHT; UP] = false ∧
  calculate_adaptivity {| gene := [RIGHT; UP]; adaptivity := 0 |} corner corner_down
  = Ret {| gene := [RIGHT; UP]; adaptivity := -5 |}.
Proof.
  split; [eexists; split; reflexivity|]. split; [reflexivity|]. by vm_compute.
Qed.

(** ** Evaluation of a population *)

(** The two ways [calculate_adaptivity] ends. *)
Lemma calculate_adaptivity_cases self initial final evaluated :
  calculate_adaptivity self initial final = Ret evaluated ->
  (reaches final (clone initial) (gene evaluated) = true ∧
   adaptivity evaluated = FINAL_ADAPTIVITY) ∨
  (reaches final (clone initial) (gene evaluated) = false ∧
   gene evaluated = gene self ∧
   adaptivity evaluated <= Z.max 0 (Z.of_nat (length (gene evaluated)) - 1)).
Proof.
  unfold calculate_adaptivity.
  destruct (replay final 0 (gene self) (clone initial) (clone initial) 0)
    as [[i|a last]| | |] eqn:Hreplay; try done; cbn [mbind outcome_bind].
  - intros [= <-]. left. apply replay_Returned in Hreplay as [Hi Hr]; [|done].
    simpl. split; [|done]. by replace (i + 1) with (i - 0 + 1) by lia.
  - destruct (positional_adaptivity last final) as [value| | |] eqn:Hvalue; try done.
    cbn [mbind outcome_bind]. intros [= <-]. right.
    apply replay_Left_loop in Hreplay as [Hno Hle]; [|done].
    apply positional_adaptivity_le in Hvalue. simpl. split; [done|]. split; [done|]. lia.
Qed.

Lemma evaluate_all_elem_of population initial final evaluated :
  evaluate_all population initial final = Ret evaluated ->
  ∀ individual', individual' ∈ evaluated ->
    ∃ individual, individual ∈ population ∧
      calculate_adaptivity individual initial final = Ret individual'.
Proof.
  revert evaluated. induction population as [|individual rest IH]; intros evaluated.
  - intros [= <-] ? H. by apply not_elem_of_nil in H.
  - cbn [evaluate_all].
    destruct (calculate_adaptivity individual initial final) as [first| | |] eqn:Hfirst;
      try done.
    cbn [mbind outcome_bind].
    destruct (evaluate_all rest initial final) as [others| | |]; try done.
    cbn [mbind outcome_bind]. intros [= <-] individual' [->|Hin]%elem_of_cons.
    + exists individual. split; [left|done].
    + destruct (IH others eq_refl individual' Hin) as (x & Hx & Hcalc).
      exists x. split; [by right|done].
Qed.

Lemma insert_desc_Permutation x sorted : insert_desc x sorted ≡ₚ x :: sorted.
Proof.
  induction sorted as [|y rest IH]; [done|]. simpl.
  destruct (adaptivity y >? adaptivity x); [|done].
  rewrite IH. apply Permutation_swap.
Qed.

Lemma sort_desc_Permutation l : sort_desc l ≡ₚ l.
Proof.
  induction l as [|x l IH]; [done|]. unfold sort_desc in *. simpl.
  by rewrite insert_desc_Permutation, IH.
Qed.

Lemma _evaluate_population self self' r :
  _evaluate self = Ret (self', r) ->
  ∃ evaluated,
    evaluate_all (population self) (initial (ga_base self)) (final (ga_base self))
    = Ret evaluated ∧
    population self' = sort_desc evaluated.
Proof.
  unfold _evaluate.
  destruct (evaluate_all _ _ _) as [evaluated| | |]; try done. cbn [mbind outcome_bind].
  intros H. exists evaluated. split; [done|]. cbn [population] in H.
  destruct (sort_desc evaluated) as [|best rest] eqn:Hsort; [done|].
  destruct (adaptivity best =? FINAL_ADAPTIVITY).
  - destruct (evaluate_steps _ _ _); try done. cbn [mbind outcome_bind] in H.
    injection H as Hs Hr. by rewrite <- Hs.
  - injection H as Hs Hr. by rewrite <- Hs.
Qed.

(** C6 as the code has it.  After [_evaluate], an individual whose genome
    reaches [final] has fitness [FINAL_ADAPTIVITY]; and this is more than
    the fitness of every individual of the population whose genome does not
    reach [final] and has at most [FINAL_ADAPTIVITY] genes. *)
Theorem _evaluate_sentinel (self self' : GeneticAlgorithm)
    (r : option (list SolutionStep)) :
  _evaluate self = Ret (self', r) ->
  (∀ a, a ∈ population self' ->
     reaches (final (ga_base self)) (clone (initial (ga_base self))) (gene a) = true ->
     adaptivity a = FINAL_ADAPTIVITY) ∧
  (∀ a b, a ∈ population self' -> b ∈ population self' ->
     reaches (final (ga_base self)) (clone (initial (ga_base self))) (gene a) = true ->
     reaches (final (ga_base self)) (clone (initial (ga_base self))) (gene b) = false ->
     Z.of_nat (length (gene b)) <= FINAL_ADAPTIVITY ->
     adaptivity b < adaptivity a).
Proof.
  intros Hrun. apply _evaluate_population in Hrun as (evaluated & Hall & Hpop).
  assert (Hcases : ∀ x, x ∈ population self' ->
            (reaches (final (ga_base self)) (clone (initial (ga_base self))) (gene x) = true ∧
             adaptivity x = FINAL_ADAPTIVITY) ∨
            (reaches (final (ga_base self)) (clone (initial (ga_base self))) (gene x) = false ∧
             adaptivity x <= Z.max 0 (Z.of_nat (length (gene x)) - 1))).
  { intros x Hx. rewrite Hpop, sort_desc_Permutation in Hx.
    destruct (evaluate_all_elem_of _ _ _ _ Hall x Hx) as (x0 & _ & Hcalc).
    apply calculate_adaptivity_cases in Hcalc. tauto. }
  assert (Hsentinel : ∀ a, a ∈ population self' ->
            reaches (final (ga_base self)) (clone (initial (ga_base self))) (gene a) = true ->
            adaptivity a = FINAL_ADAPTIVITY).
  { intros a Ha Hr. destruct (Hcases a Ha) as [[_ ?]|[? _]]; [done|congruence]. }
  split; [exact Hsentinel|].
  intros a b Ha Hb Hra Hrb Hlen. rewrite (Hsentinel a Ha Hra).
  destruct (Hcases b Hb) as [[? _]|[_ Hle]]; [congruence|].
  unfold FINAL_ADAPTIVITY in *. lia.
Qed.

(** A population of two on the pair ["#12"; "345"; "678"],
    ["312"; "#45"; "678"]. *)
Definition small_ga : GeneticAlgorithm :=
  {| ga_base := SolutionAlgorithm_init corner corner_down;
     ga_depth_limit := 2;
     population := [ {| gene := [RIGHT; UP]; adaptivity := 0 |};
                     {| gene := [DOWN; RIGHT]; adaptivity := 0 |} ] |}.

Lemma _evaluate_sentinel_witness :
  ∃ self' r,
    _evaluate small_ga = Ret (self', r) ∧
    (∀ a, a ∈ population self' ->
       reaches (final (ga_base small_ga)) (clone (initial (ga_base small_ga))) (gene a) = true ->
       adaptivity a = FINAL_ADAPTIVITY) ∧
    (∀ a b, a ∈ population self' -> b ∈ population self' ->
       reaches (final (ga_base small_ga)) (clone (initial (ga_base small_ga))) (gene a) = true ->
       reaches (final (ga_base small_ga)) (clone (initial (ga_base small_ga))) (gene b) = false ->
       Z.of_nat (length (gene b)) <= FINAL_ADAPTIVITY ->
       adaptivity b < adaptivity a).
Proof.
  eexists _, _. split; [by vm_compute|].
  eapply (_evaluate_sentinel small_ga). by vm_compute.
Defined.

(** *** A genome longer than the sentinel *)

(** From ["#12"; "345"; "678"]: [RIGHT, LEFT] 61730 times over, then
    [LEFT], which leaves the grid at index 123460. *)
Definition wandering : list Direction :=
  mjoin (replicate (Z.to_nat 61730) [RIGHT; LEFT]) ++ [LEFT].

Definition wanderer : Individual := {| gene := wandering; adaptivity := 0 |}.

(** [DOWN] solves the pair at once; the rest of the genome is cut off. *)
Definition solver : Individual :=
  {| gene := DOWN :: replicate (Z.to_nat 123460) LEFT; adaptivity := 0 |}.

(** A population of [POPULATION_SIZE] individuals with genomes of 123461
    genes. *)
Definition crowded_ga : GeneticAlgorithm :=
  {| ga_base := SolutionAlgorithm_init corner corner_down;
     ga_depth_limit := 123461;
     population := solver :: replicate (S (Z.to_nat (POPULATION_SIZE - 2))) wanderer |}.

Definition corner_then_right : Matrix :=
  {| _arrangement := [[1; -1; 2]; [3; 4; 5]; [6; 7; 8]];
     _space_position := Some (0, 1);
     parent := Some corner;
     last_direction := Some RIGHT |}.

Definition grid_eq (a b : Matrix) : Prop :=
  _arrangement a = _arrangement b ∧ _space_position a = _space_position b.

Lemma wander_step c :
  grid_eq c corner ->
  play_only c LEFT = Ret None ∧
  ∃ c1 c2, play_only c RIGHT = Ret (Some c1) ∧ Matrix_eq c1 corner_down = false ∧
           play_only c1 LEFT = Ret (Some c2) ∧ Matrix_eq c2 corner_down = false ∧
           grid_eq c2 corner.
Proof.
  intros [Ha Hs]. split.
  - pose proof (play_only_grid corner c LEFT (eq_sym Ha) (eq_sym Hs)) as H.
    by change (play_only corner LEFT) with (@Ret (option Matrix) None) in H.
  - pose proof (play_only_grid corner c RIGHT (eq_sym Ha) (eq_sym Hs)) as H.
    change (play_only corner RIGHT) with (Ret (Some corner_then_right)) in H.
    destruct H as (c1 & Hc1 & Ha1 & Hs1).
    pose proof (play_only_grid corner_then_right c1 LEFT (eq_sym Ha1) (eq_sym Hs1)) as H.
    change (play_only corner_then_right LEFT)
      with (Ret (Some {| _arrangement := _arrangement corner;
                         _space_position := _space_position corner;
                         parent := Some corner_then_right;
                         last_direction := Some LEFT |})) in H.
    destruct H as (c2 & Hc2 & Ha2 & Hs2). simpl in Ha2, Hs2.
    exists c1, c2. split; [done|]. split; [|split; [done|split]].
    + unfold Matrix_eq. by rewrite Ha1.
    + unfold Matrix_eq. by rewrite Ha2.
    + by split.
Qed.

Lemma replay_wander n :
  ∀ i0 c last_candidate a,
    grid_eq c corner ->
    ∃ c', grid_eq c' corner ∧
      replay corner_down i0 (mjoin (replicate n [RIGHT; LEFT]) ++ [LEFT]) c last_candidate a
      = Ret (Left_loop (a + (i0 + 2 * Z.of_nat n)) c').
Proof.
  induction n as [|n IH]; intros i0 c last a Hc;
    destruct (wander_step c Hc) as (Hleft & c1 & c2 & Hc1 & He1 & Hc2 & He2 & Hg2).
  - exists c. split; [done|].
    change (mjoin (replicate 0 [RIGHT; LEFT]) ++ [LEFT]) with [LEFT]. cbn [replay].
    rewrite Hleft. cbn [mbind outcome_bind]. do 2 f_equal. lia.
  - destruct (IH (i0 + 1 + 1) c2 c1 a Hg2) as (c' & Hg' & Hreplay).
    exists c'. split; [done|].
    change (mjoin (replicate (S n) [RIGHT; LEFT]) ++ [LEFT])
      with (RIGHT :: LEFT :: (mjoin (replicate n [RIGHT; LEFT]) ++ [LEFT])).
    cbn [replay]. rewrite Hc1. cbn [mbind outcome_bind]. rewrite He1. cbn [replay].
    rewrite Hc2. cbn [mbind outcome_bind]. rewrite He2, Hreplay.
    do 2 f_equal. lia.
Qed.

Lemma positional_adaptivity_grid target target' ideal :
  _arrangement target = _arrangement target' ->
  positional_adaptivity target ideal = positional_adaptivity target' ideal.
Proof. destruct target, target'. simpl. by intros ->. Qed.

Lemma calculate_adaptivity_wanderer :
  calculate_adaptivity wanderer corner corner_down
  = Ret {| gene := wandering; adaptivity := 123458 |}.
Proof.
  destruct (replay_wander (Z.to_nat 61730) 0 (clone corner) (clone corner) 0)
    as (c' & [Ha _] & Hreplay); [by split|].
  unfold calculate_adaptivity. cbv zeta.
  change (gene wanderer) with (mjoin (replicate (Z.to_nat 61730) [RIGHT; LEFT]) ++ [LEFT]).
  rewrite Hreplay. cbn [mbind outcome_bind].
  rewrite (positional_adaptivity_grid c' corner corner_down Ha).
  assert (positional_adaptivity corner corner_down = Ret (-2)) as -> by (by vm_compute).
  cbn [mbind outcome_bind]. rewrite Z2Nat.id by lia. reflexivity.
Qed.

Lemma calculate_adaptivity_solver :
  calculate_adaptivity solver corner corner_down
  = Ret {| gene := [DOWN]; adaptivity := FINAL_ADAPTIVITY |}.
Proof. reflexivity. Qed.

Lemma evaluate_all_replicate n individual evaluated initial final :
  calculate_adaptivity individual initial final = Ret evaluated ->
  evaluate_all (replicate n individual) initial final = Ret (replicate n evaluated).
Proof.
  intros H. induction n as [|n IH]; [done|].
  cbn [replicate evaluate_all]. rewrite H. cbn [mbind outcome_bind]. by rewrite IH.
Qed.

Lemma insert_desc_replicate_below x y n :
  adaptivity y > adaptivity x ->
  insert_desc x (replicate n y) = replicate n y ++ [x].
Proof.
  intros H. induction n as [|n IH]; [done|]. cbn [replicate insert_desc app].
  assert ((adaptivity y >? adaptivity x) = true) as -> by lia. by rewrite IH.
Qed.

Lemma sort_desc_replicate y n : sort_desc (replicate n y) = replicate n y.
Proof.
  induction n as [|n IH]; [done|]. unfold sort_desc in *. cbn [replicate foldr].
  rewrite IH. destruct n as [|n]; [done|]. cbn [replicate insert_desc].
  by assert ((adaptivity y >? adaptivity y) = false) as -> by lia.
Qed.

(** A population of one individual [s] and copies of an individual [w]
    that scores higher, evaluated: the copies of [w] come first, and
    without the sentinel at the head no solution is returned. *)
Lemma _evaluate_crowd base depth n s w s' w' :
  calculate_adaptivity s (initial base) (final base) = Ret s' ->
  calculate_adaptivity w (initial base) (final base) = Ret w' ->
  adaptivity w' > adaptivity s' -> adaptivity w' ≠ FINAL_ADAPTIVITY ->
  _evaluate {| ga_base := base; ga_depth_limit := depth;
               population := s :: replicate (S n) w |}
  = Ret ({| ga_base := base; ga_depth_limit := depth;
            population := replicate (S n) w' ++ [s'] |}, None).
Proof.
  intros Hs Hw Hgt Hne. unfold _evaluate. cbn [population ga_base ga_depth_limit].
  cbn [evaluate_all]. rewrite Hs. cbn [mbind outcome_bind].
  rewrite (evaluate_all_replicate (S n) w w' _ _ Hw).
  cbn [mbind outcome_bind]. unfold sort_desc. cbn [foldr].
  fold (sort_desc (replicate (S n) w')).
  rewrite sort_desc_replicate, insert_desc_replicate_below by done.
  cbn [replicate app]. apply Z.eqb_neq in Hne. by rewrite Hne.
Qed.

(** C6 as stated fails once genomes are longer than the sentinel.  In a
    population of [POPULATION_SIZE] individuals with 123461 genes, [solver]
    reaches [final] and gets the fitness 123456 while every [wanderer],
    which does not reach it, gets 123460 - 2; the population is sorted with
    the [wanderer]s first and [_evaluate] returns [None]. *)
Lemma _evaluate_counterexample :
  ∃ self' a b,
    Z.of_nat (length (population crowded_ga)) = POPULATION_SIZE ∧
    _evaluate crowded_ga = Ret (self', None) ∧
    a ∈ population self' ∧ b ∈ population self' ∧
    reaches (final (ga_base crowded_ga)) (clone (initial (ga_base crowded_ga))) (gene a) = true ∧
    reaches (final (ga_base crowded_ga)) (clone (initial (ga_base crowded_ga))) (gene b) = false ∧
    adaptivity a = FINAL_ADAPTIVITY ∧
    adaptivity b = 123458 ∧
    ¬ adaptivity b < adaptivity a.
Proof.
  eexists _, {| gene := [DOWN]; adaptivity := FINAL_ADAPTIVITY |},
    {| gene := wandering; adaptivity := 123458 |}.
  split; [|split; [|split; [|split; [|split; [|split; [|split; [|split]]]]]]].
  - unfold crowded_ga. cbn [population length]. rewrite length_replicate.
    unfold POPULATION_SIZE. lia.
  - unfold crowded_ga.
    apply (_evaluate_crowd _ _ _ solver wanderer
             {| gene := [DOWN]; adaptivity := FINAL_ADAPTIVITY |}
             {| gene := wandering; adaptivity := 123458 |}).
    + exact calculate_adaptivity_solver.
    + exact calculate_adaptivity_wanderer.
    + cbn [adaptivity]. unfold FINAL_ADAPTIVITY. lia.
    + cbn [adaptivity]. unfold FINAL_ADAPTIVITY. lia.
  - cbn [population]. apply elem_of_app. right. by left.
  - cbn [population]. apply elem_of_app. left. by left.
  - reflexivity.
  - destruct (replay_wander (Z.to_nat 61730) 0 (clone corner) (clone corner) 0)
      as (c' & _ & Hreplay); [by split|].
    apply replay_Left_loop in Hreplay as [Hno _]; [|done].
    exact Hno.
  - reflexivity.
  - reflexivity.
  - cbn [adaptivity]. unfold FINAL_ADAPTIVITY. lia.
Qed.

(** ** Selection *)

Lemma choice_total {A : Type} rnd k (seq : list A) :
  seq ≠ [] -> ∃ x, choice rnd k seq = Ret x ∧ x ∈ seq.
Proof.
  intros Hne. unfold choice.
  assert (0 < Z.of_nat (length seq)) as Hlen by (destruct seq; [done|simpl; lia]).
  pose proof (Z.mod_pos_bound (integer rnd k) _ Hlen) as Hmod.
  destruct (seq !! Z.to_nat (integer rnd k `mod` Z.of_nat (length seq))) as [x|] eqn:Hx.
  - exists x. split; [done|]. by eapply list_elem_of_lookup_2.
  - apply lookup_ge_None in Hx. lia.
Qed.

(** The winner of one tournament, as [_select] writes it. *)
Definition winner (a b : Individual) : Individual :=
  if adaptivity a >=? adaptivity b then Individual_clone a else Individual_clone b.

(** [m] more rounds fill the new population; the [n]-th individual added
    is the winner of the draws [k + 2n] and [k + 2n + 1]. *)
Lemma select_loop_spec rnd population m :
  population ≠ [] ->
  ∀ fuel k new_population,
    Z.of_nat (length new_population) + Z.of_nat m = POPULATION_SIZE -> (m <= fuel)%nat ->
    ∃ added,
      select_loop fuel rnd k population new_population
      = Ret (new_population ++ added, (k + 2 * m)%nat) ∧
      length added = m ∧
      ∀ n a b, (n < m)%nat ->
        choice rnd (k + 2 * n) population = Ret a ->
        choice rnd (k + 2 * n + 1) population = Ret b ->
        added !! n = Some (winner a b).
Proof.
  intros Hne. induction m as [|m IH]; intros fuel k new Hlen Hfuel.
  - exists []. assert ((Z.of_nat (length new) <? POPULATION_SIZE) = false) as Hcond by lia.
    destruct fuel; cbn [select_loop]; rewrite Hcond, app_nil_r, Nat.add_0_r.
    all: split; [done|]; split; [done|]; intros n a b Hn; lia.
  - destruct fuel as [|fuel]; [lia|].
    assert ((Z.of_nat (length new) <? POPULATION_SIZE) = true) as Hcond by lia.
    cbn [select_loop]. rewrite Hcond.
    destruct (choice_total rnd k population Hne) as (a & Ha & _).
    destruct (choice_total rnd (k + 1) population Hne) as (b & Hb & _).
    rewrite Ha. cbn [mbind outcome_bind]. rewrite Hb. cbn [mbind outcome_bind].
    destruct (IH fuel (k + 2)%nat (new ++ [winner a b])) as (added & Hrun & Hadded & Hwin).
    { rewrite length_app. simpl. lia. }
    { lia. }
    exists (winner a b :: added). fold (winner a b). rewrite Hrun, <- app_assoc.
    split; [do 2 f_equal; lia|]. split; [simpl; lia|].
    intros [|n] a' b' Hn Ha' Hb'.
    + rewrite Nat.mul_0_r, Nat.add_0_r in Ha', Hb'.
      assert (a' = a) as -> by congruence. assert (b' = b) as -> by congruence. done.
    + simpl. apply Hwin; [lia| |].
      * by replace (k + 2 + 2 * n)%nat with (k + 2 * S n)%nat by lia.
      * by replace (k + 2 + 2 * n + 1)%nat with (k + 2 * S n + 1)%nat by lia.
Qed.

(** C7 as the code has it.  With enough fuel [_select] returns a new
    population of [POPULATION_SIZE] individuals, as many as the old one
    has; the [n]-th is the clone of the fitter of the two individuals drawn
    for it, and when both are equally fit it is the clone of the first one
    drawn, [a]. *)
Theorem _select_tournament (rnd : Random) (k fuel : nat) (self : GeneticAlgorithm) :
  Z.of_nat (length (population self)) = POPULATION_SIZE ->
  (Z.to_nat POPULATION_SIZE <= fuel)%nat ->
  ∃ self' k',
    _select fuel rnd k self = Ret (self', k') ∧
    length (population self') = length (population self) ∧
    ∀ n a b, (n < length (population self'))%nat ->
      choice rnd (k + 2 * n) (population self) = Ret a ->
      choice rnd (k + 2 * n + 1) (population self) = Ret b ->
      population self' !! n = Some (winner a b) ∧
      (adaptivity a = adaptivity b -> population self' !! n = Some (Individual_clone a)).
Proof.
  intros Hlen Hfuel.
  assert (population self ≠ []) as Hne.
  { intros H. rewrite H in Hlen. unfold POPULATION_SIZE in Hlen. simpl in Hlen. lia. }
  destruct (select_loop_spec rnd (population self) (Z.to_nat POPULATION_SIZE) Hne fuel k [])
    as (added & Hrun & Hadded & Hwin); [unfold POPULATION_SIZE; simpl; lia|done|].
  eexists _, _. unfold _select. rewrite Hrun. cbn [mbind outcome_bind fst snd app].
  split; [reflexivity|]. cbn [population]. split; [lia|].
  intros n a b Hn Ha Hb. rewrite Hadded in Hn. split; [by apply Hwin|].
  intros Heq. rewrite (Hwin n a b Hn Ha Hb). unfold winner.
  by assert ((adaptivity a >=? adaptivity b) = true) as -> by lia.
Qed.

(** Two individuals of equal fitness, and a population of
    [POPULATION_SIZE] with the first of them at its head. *)
Definition tie_a : Individual := {| gene := [LEFT]; adaptivity := 7 |}.
Definition tie_b : Individual := {| gene := [RIGHT]; adaptivity := 7 |}.

Definition tied_ga : GeneticAlgorithm :=
  {| ga_base := SolutionAlgorithm_init corner corner_down;
     ga_depth_limit := 1;
     population := tie_a :: replicate (Z.to_nat (POPULATION_SIZE - 1)) tie_b |}.

(** A random source whose [k]-th draw is [k]. *)
Definition counting : Random :=
  {| integer := fun k => Z.of_nat k; uniform := fun _ => 0%Q |}.

Lemma _select_tournament_witness :
  ∃ self' k',
    _select (Z.to_nat POPULATION_SIZE) counting 0 tied_ga = Ret (self', k') ∧
    length (population self') = length (population tied_ga) ∧
    ∀ n a b, (n < length (population self'))%nat ->
      choice counting (0 + 2 * n) (population tied_ga) = Ret a ->
      choice counting (0 + 2 * n + 1) (population tied_ga) = Ret b ->
      population self' !! n = Some (winner a b) ∧
      (adaptivity a = adaptivity b -> population self' !! n = Some (Individual_clone a)).
Proof.
  apply (_select_tournament counting 0 (Z.to_nat POPULATION_SIZE) tied_ga).
  - by vm_compute.
  - lia.
Defined.

(** C7 as stated fails on ties: the draws 0 and 1 pick [tie_a] and then
    [tie_b], equally fit, and the first individual of the new population is
    the clone of [tie_a], the first one drawn, not of [tie_b]. *)
Lemma _select_counterexample :
  ∃ self' k',
    Z.of_nat (length (population tied_ga)) = POPULATION_SIZE ∧
    _select (Z.to_nat POPULATION_SIZE) counting 0 tied_ga = Ret (self', k') ∧
    choice counting 0 (population tied_ga) = Ret tie_a ∧
    choice counting 1 (population tied_ga) = Ret tie_b ∧
    adaptivity tie_a = adaptivity tie_b ∧
    population self' !! 0%nat = Some (Individual_clone tie_a) ∧
    Individual_clone tie_a ≠ Individual_clone tie_b.
Proof.
  assert (choice counting 0 (population tied_ga) = Ret tie_a) as Ha by (by vm_compute).
  assert (choice counting 1 (population tied_ga) = Ret tie_b) as Hb by (by vm_compute).
  destruct (select_loop_spec counting (population tied_ga) (Z.to_nat POPULATION_SIZE))
    with (fuel := Z.to_nat POPULATION_SIZE) (k := 0%nat) (new_population := @nil Individual)
    as (added & Hrun & Hadded & Hwin); [done|by vm_compute|lia|].
  eexists _, _. split; [by vm_compute|]. split.
  { unfold _select. rewrite Hrun. reflexivity. }
  split; [done|]. split; [done|]. split; [done|]. split; [|done].
  cbn [population app]. apply (Hwin 0%nat tie_a tie_b); [|done|done].
  unfold POPULATION_SIZE. lia.
Qed.

(** ** Mutation *)

(** With [depth_limit = 1] the only position is 0 and the resampling loop
    uses up any fuel. *)
Lemma resample_one rnd fuel : ∀ k, resample fuel rnd k 1 0 0 = Diverge.
Proof.
  induction fuel as [|fuel IH]; intros k; [done|]. cbn [resample].
  change (0 =? 0) with true. cbv iota. unfold randrange. change (1 <=? 0) with false.
  cbv iota. cbn [mbind outcome_bind]. rewrite Z.mod_1_r. apply IH.
Qed.

(** Some individual of the population draws a mutation: the individuals
    before it use one draw each. *)
Definition fires (rnd : Random) (k : nat) (population : list Individual) : Prop :=
  ∃ j, (j < length population)%nat ∧ random_below rnd (k + j) MUTATE_POSSIBILITY = true.

Lemma mutate_loop_one rnd fuel population :
  ∀ k, fires rnd k population -> mutate_loop fuel rnd k 1 population = Diverge.
Proof.
  induction population as [|individual rest IH]; intros k (j & Hj & Hfire);
    [simpl in Hj; lia|].
  cbn [mutate_loop]. destruct (random_below rnd k MUTATE_POSSIBILITY) eqn:Hk.
  - cbv zeta iota. unfold randrange. change (1 <=? 0) with false. cbv iota.
    cbn [mbind outcome_bind]. rewrite !Z.mod_1_r. by rewrite resample_one.
  - cbv zeta iota. rewrite IH; [done|].
    destruct j as [|j]; [rewrite Nat.add_0_r in Hfire; congruence|].
    exists j. split; [simpl in Hj; lia|].
    by replace (k + 1 + j)%nat with (k + S j)%nat by lia.
Qed.

Lemma mutate_loop_none rnd fuel population :
  ∀ k depth_limit, depth_limit <= 0 -> fires rnd k population ->
    mutate_loop fuel rnd k depth_limit population = Raise ValueError.
Proof.
  induction population as [|individual rest IH]; intros k depth_limit Hd (j & Hj & Hfire);
    [simpl in Hj; lia|].
  cbn [mutate_loop]. destruct (random_below rnd k MUTATE_POSSIBILITY) eqn:Hk.
  - cbv zeta iota. unfold randrange.
    by assert ((depth_limit <=? 0) = true) as -> by lia.
  - cbv zeta iota. rewrite IH; [done|done|].
    destruct j as [|j]; [rewrite Nat.add_0_r in Hfire; congruence|].
    exists j. split; [simpl in Hj; lia|].
    by replace (k + 1 + j)%nat with (k + S j)%nat by lia.
Qed.

(** A random source is fair for [stop] within [bound] draws when, after
    any draw, one of the next [bound] draws gives another position. *)
Definition fair (rnd : Random) (stop : Z) (bound : nat) : Prop :=
  ∀ k, ∃ j, (j < bound)%nat ∧
    integer rnd (k + 1 + j) `mod` stop ≠ integer rnd k `mod` stop.

Lemma resample_fair rnd stop pos_a m :
  0 < stop ->
  ∀ fuel k pos_b,
    integer rnd (k + m) `mod` stop ≠ pos_a -> (m < fuel)%nat ->
    0 <= pos_b < stop ->
    ∃ pos k', resample fuel rnd k stop pos_a pos_b = Ret (pos, k') ∧
              0 <= pos < stop ∧ pos ≠ pos_a.
Proof.
  intros Hstop. induction m as [|m IH]; intros fuel k pos_b Hm Hfuel Hb;
    (destruct fuel as [|fuel]; [lia|]); cbn [resample];
    destruct (pos_b =? pos_a) eqn:Heq;
    try (exists pos_b, k; split; [done|]; split; [done|]; lia).
  - unfold randrange. assert ((stop <=? 0) = false) as -> by lia. cbn [mbind outcome_bind].
    rewrite Nat.add_0_r in Hm.
    destruct fuel as [|fuel]; cbn [resample];
      (assert ((integer rnd k `mod` stop =? pos_a) = false) as -> by lia);
      exists (integer rnd k `mod` stop), (k + 1)%nat;
      (split; [done|]); (split; [by apply Z.mod_pos_bound|done]).
  - unfold randrange. assert ((stop <=? 0) = false) as -> by lia. cbn [mbind outcome_bind].
    apply IH; [|lia|by apply Z.mod_pos_bound].
    by replace (k + 1 + m)%nat with (k + S m)%nat by lia.
Qed.

Lemma swap_genes_total gene pos_a pos_b :
  0 <= pos_a < Z.of_nat (length gene) -> 0 <= pos_b < Z.of_nat (length gene) ->
  ∃ gene', swap_genes gene pos_a pos_b = Ret gene' ∧ length gene' = length gene.
Proof.
  intros Ha Hb. unfold swap_genes.
  destruct (lookup_lt_is_Some_2 gene (Z.to_nat pos_b)) as [gb ->]; [lia|].
  destruct (lookup_lt_is_Some_2 gene (Z.to_nat pos_a)) as [ga ->]; [lia|].
  eexists. split; [done|]. by rewrite !length_insert.
Qed.

Lemma mutate_loop_fair rnd depth_limit bound fuel population :
  2 <= depth_limit -> fair rnd depth_limit bound -> (bound < fuel)%nat ->
  Forall (fun individual => Z.of_nat (length (gene individual)) = depth_limit) population ->
  ∀ k, ∃ mutated k',
    mutate_loop fuel rnd k depth_limit population = Ret (mutated, k') ∧
    length mutated = length population.
Proof.
  intros Hd Hfair Hfuel. induction 1 as [|individual rest Hlen _ IH]; intros k.
  - by exists [], k.
  - cbn [mutate_loop]. destruct (random_below rnd k MUTATE_POSSIBILITY); cbv zeta iota.
    + unfold randrange at 1 2. assert ((depth_limit <=? 0) = false) as -> by lia.
      cbn [mbind outcome_bind].
      set (pos_a := integer rnd (k + 1) `mod` depth_limit).
      set (pos_b := integer rnd (k + 1 + 1) `mod` depth_limit).
      assert (0 <= pos_a < depth_limit) as Ha by (apply Z.mod_pos_bound; lia).
      assert (0 <= pos_b < depth_limit) as Hb by (apply Z.mod_pos_bound; lia).
      destruct (Hfair (k + 1)%nat) as (j & Hj & Hne).
      assert (∃ pos k1, resample fuel rnd (k + 1 + 2) depth_limit pos_a pos_b = Ret (pos, k1) ∧
                        0 <= pos < depth_limit) as (pos & k1 & Hres & Hpos).
      { destruct j as [|j].
        - exists pos_b, (k + 1 + 2)%nat. split; [|done].
          rewrite Nat.add_0_r in Hne. fold pos_a pos_b in Hne.
          destruct fuel; cbn [resample]; by assert ((pos_b =? pos_a) = false) as -> by lia.
        - destruct (resample_fair rnd depth_limit pos_a j ltac:(lia) fuel (k + 1 + 2)%nat pos_b)
            as (pos & k1 & Hres & Hpos & _); [|lia|done|by exists pos, k1].
          by replace (k + 1 + 2 + j)%nat with (k + 1 + 1 + S j)%nat by lia. }
      rewrite Hres. cbn [mbind outcome_bind fst snd].
      destruct (swap_genes_total (gene individual) pos_a pos) as (gene' & -> & _); [lia|lia|].
      cbn [mbind outcome_bind]. destruct (IH k1) as (mutated & k' & -> & Hmut).
      cbn [mbind outcome_bind fst snd]. eexists _, _. split; [done|]. simpl. by rewrite Hmut.
    + destruct (IH (k + 1)%nat) as (mutated & k' & -> & Hmut).
      cbn [mbind outcome_bind fst snd]. eexists _, _. split; [done|]. simpl. by rewrite Hmut.
Qed.

(** C10.  When a mutation is drawn for some individual: with
    [depth_limit = 1] [_mutate] does not return whatever the fuel, the
    resampling loop never finding a second position; with [depth_limit]
    0 or less the first [randrange] raises [ValueError].  With
    [depth_limit] at least 2, genomes of that length and a fair random
    source, [_mutate] returns a population of the same size. *)
Theorem _mutate_depth_limit (rnd : Random) (k : nat) (self : GeneticAlgorithm) :
  (ga_depth_limit self = 1 -> fires rnd k (population self) ->
   ∀ fuel, _mutate fuel rnd k self = Diverge) ∧
  (ga_depth_limit self <= 0 -> fires rnd k (population self) ->
   ∀ fuel, _mutate fuel rnd k self = Raise ValueError) ∧
  (2 <= ga_depth_limit self ->
   Forall (fun individual => Z.of_nat (length (gene individual)) = ga_depth_limit self)
     (population self) ->
   ∀ bound fuel, fair rnd (ga_depth_limit self) bound -> (bound < fuel)%nat ->
     ∃ self' k', _mutate fuel rnd k self = Ret (self', k') ∧
                 length (population self') = length (population self)).
Proof.
  split; [|split].
  - intros Hd Hfires fuel. unfold _mutate. rewrite Hd. by rewrite mutate_loop_one.
  - intros Hd Hfires fuel. unfold _mutate. by rewrite mutate_loop_none.
  - intros Hd Hlen bound fuel Hfair Hfuel.
    destruct (mutate_loop_fair rnd _ bound fuel _ Hd Hfair Hfuel Hlen k)
      as (mutated & k' & Hrun & Hmut).
    eexists _, _. unfold _mutate. rewrite Hrun. cbn [mbind outcome_bind fst snd].
    split; [reflexivity|]. done.
Qed.

(** A population of two genomes of length [n]. *)
Definition pair_ga (n : nat) : GeneticAlgorithm :=
  {| ga_base := SolutionAlgorithm_init corner corner_down;
     ga_depth_limit := Z.of_nat n;
     population := [ {| gene := replicate n LEFT; adaptivity := 0 |};
                     {| gene := replicate n DOWN; adaptivity := 0 |} ] |}.

Lemma fires_counting k population : population ≠ [] -> fires counting k population.
Proof.
  intros Hne. exists 0%nat. split; [destruct population; [done|simpl; lia]|]. reflexivity.
Qed.

Lemma fair_counting : fair counting 3 1.
Proof.
  intros k. exists 0%nat. split; [lia|]. cbn [integer counting].
  rewrite Nat.add_0_r. rewrite Nat2Z.inj_add. change (Z.of_nat 1) with 1.
  pose proof (Z.mod_pos_bound (Z.of_nat k) 3 ltac:(lia)).
  pose proof (Z.mod_pos_bound (Z.of_nat k + 1) 3 ltac:(lia)).
  pose proof (Z.div_mod (Z.of_nat k) 3 ltac:(lia)).
  pose proof (Z.div_mod (Z.of_nat k + 1) 3 ltac:(lia)). lia.
Qed.

Lemma _mutate_depth_limit_witness :
  (∀ fuel, _mutate fuel counting 0 (pair_ga 1) = Diverge) ∧
  (∀ fuel, _mutate fuel counting 0 (pair_ga 0) = Raise ValueError) ∧
  (∃ self' k', _mutate 2 counting 0 (pair_ga 3) = Ret (self', k') ∧
               length (population self') = length (population (pair_ga 3))).
Proof.
  split; [|split].
  - apply (_mutate_depth_limit counting 0 (pair_ga 1)); [reflexivity|].
    by apply fires_counting.
  - apply (_mutate_depth_limit counting 0 (pair_ga 0)); [simpl; lia|].
    by apply fires_counting.
  - apply (_mutate_depth_limit counting 0 (pair_ga 3)) with (bound := 1%nat).
    + simpl. lia.
    + repeat constructor.
    + exact fair_counting.
    + lia.
Defined.

(** * Further properties of the code *)

(** ** [exchange] and moves, composed *)

Lemma shaped_ext a b :
  shaped a -> shaped b ->
  (∀ i j, in_bounds i j -> cell a i j = cell b i j) -> a = b.
Proof.
  intros (a0 & a1 & a2 & a3 & a4 & a5 & a6 & a7 & a8 & ->)%shaped_inv
         (b0 & b1 & b2 & b3 & b4 & b5 & b6 & b7 & b8 & ->)%shaped_inv H.
  pose proof (H 0 0 ltac:(by vm_compute)). pose proof (H 0 1 ltac:(by vm_compute)).
  pose proof (H 0 2 ltac:(by vm_compute)). pose proof (H 1 0 ltac:(by vm_compute)).
  pose proof (H 1 1 ltac:(by vm_compute)). pose proof (H 1 2 ltac:(by vm_compute)).
  pose proof (H 2 0 ltac:(by vm_compute)). pose proof (H 2 1 ltac:(by vm_compute)).
  pose proof (H 2 2 ltac:(by vm_compute)). clear H. cbv in *. congruence.
Qed.

(** [exchange] applied twice to the same two cells of a state gives back
    the grid and the cached blank (outside the grid it does nothing, both
    times). *)
Theorem exchange_twice (m : Matrix) (x1 y1 x2 y2 : Z) :
  state m ->
  ∃ m1 m2,
    exchange m x1 y1 x2 y2 = Ret m1 ∧ exchange m1 x1 y1 x2 y2 = Ret m2 ∧
    _arrangement m2 = _arrangement m ∧ _space_position m2 = _space_position m.
Proof.
  intros Hm. destruct (exchange_state m x1 y1 x2 y2 Hm) as (m1 & Hm1 & Hs1).
  destruct (exchange_state m1 x1 y1 x2 y2 Hs1) as (m2 & Hm2 & Hs2).
  exists m1, m2. split; [done|]. split; [done|].
  assert (_arrangement m2 = _arrangement m) as Harr.
  { destruct (decide (in_bounds x1 y1 ∧ in_bounds x2 y2)) as [[H1 H2]|Hout].
    - destruct (exchange_spec m x1 y1 x2 y2 (proj1 Hm) H1 H2)
        as (m1' & t & o & He & Ht & Ho & _ & _ & _ & _ & Hc).
      rewrite Hm1 in He. injection He as <-.
      destruct (exchange_spec m1 x1 y1 x2 y2 (proj1 Hs1) H1 H2)
        as (m2' & t' & o' & He' & Ht' & Ho' & _ & _ & _ & _ & Hc').
      rewrite Hm2 in He'. injection He' as <-.
      rewrite Hc in Ht', Ho' by done. rewrite decide_True in Ho' by done.
      injection Ho' as <-.
      apply shaped_ext; [apply Hs2|apply Hm|]. intros i j Hij.
      rewrite Hc' by done. destruct (decide ((i, j) = (x2, y2))) as [Hp2|Hp2].
      + injection Hp2 as -> ->. destruct (decide ((x1, y1) = (x2, y2))) as [Hp|Hp].
        * injection Hp as <- <-. congruence.
        * rewrite decide_True in Ht' by done. congruence.
      + destruct (decide ((i, j) = (x1, y1))) as [Hp1|Hp1]; [by injection Hp1 as -> ->|].
        rewrite Hc by done. by rewrite !decide_False.
    - rewrite (exchange_out m _ _ _ _ Hout) in Hm1. injection Hm1 as <-.
      rewrite (exchange_out m _ _ _ _ Hout) in Hm2. by injection Hm2 as <-. }
  split; [done|]. by apply state_space_eq.
Qed.

Lemma exchange_twice_witness :
  ∃ m1 m2,
    exchange centre 1 1 0 2 = Ret m1 ∧ exchange m1 1 1 0 2 = Ret m2 ∧
    _arrangement m2 = _arrangement centre ∧ _space_position m2 = _space_position centre.
Proof. apply (exchange_twice centre 1 1 0 2). split; reflexivity. Defined.

(** The direction that undoes a move. *)
Definition opposite (d : Direction) : Direction :=
  match d with
  | LEFT => RIGHT
  | UP => DOWN
  | RIGHT => LEFT
  | DOWN => UP
  end.

(** A move can be taken back: after [play_only] in a direction,
    [play_only] in the opposite direction is legal and gives a matrix
    grid-equal to the first one (and two moves down its parent chain). *)
Theorem play_only_opposite (m m' : Matrix) (d : Direction) :
  state m -> play_only m d = Ret (Some m') ->
  ∃ m'', play_only m' (opposite d) = Ret (Some m'') ∧
         Matrix_eq m'' m = true ∧ parents m'' = m' :: m :: parents m.
Proof.
  intros Hm Hp.
  destruct (play_only_Some m d m' Hm Hp)
    as (x & y & v & Hsp & Hlegal & Hv & Hvn & Hm' & Hsp' & Hpar & _ & Hc).
  pose proof Hm as (Hs & x0 & y0 & Hsp0 & Hxy & Hblank)%state_spec.
  rewrite Hsp in Hsp0. injection Hsp0 as <- <-.
  destruct (destination x y d) as [x' y'] eqn:Hdest. simpl in *.
  assert (destination x' y' (opposite d) = (x, y)) as Hback.
  { destruct d; unfold destination in *; simpl in *; injection Hdest as <- <-; f_equal; lia. }
  assert (legal x' y' (opposite d)) as Hlegal' by (unfold legal; by rewrite Hback).
  destruct (play_only_spec m' x' y' (opposite d) Hm' Hsp') as [[Hno _]|[_ [m'' Hp'']]]; [done|].
  exists m''. split; [done|].
  destruct (play_only_Some m' (opposite d) m'' Hm' Hp'')
    as (x1 & y1 & v' & Hsp1 & _ & Hv' & _ & Hm'' & _ & _ & _ & Hc').
  rewrite Hsp' in Hsp1. injection Hsp1 as <- <-. rewrite Hback in Hv', Hc'. simpl in Hv'.
  split.
  - apply bool_decide_eq_true. apply shaped_ext; [apply Hm''|done|].
    intros i j Hij. rewrite Hc' by done. case_decide as Hq.
    + injection Hq as -> ->. symmetry. by apply Hblank.
    + case_decide as Hq'.
      * injection Hq' as -> ->. rewrite Hc in Hv' by done.
        rewrite decide_False, decide_True in Hv' by done. congruence.
      * rewrite Hc by done. by rewrite !decide_False.
  - rewrite (parents_play_only m' _ m'' Hm' Hp''). by rewrite (parents_play_only m d m' Hm Hp).
Qed.

Lemma play_only_opposite_witness :
  ∃ m'', play_only centre_then_right (opposite RIGHT) = Ret (Some m'') ∧
         Matrix_eq m'' centre = true ∧ parents m'' = centre_then_right :: centre :: parents centre.
Proof. apply (play_only_opposite centre centre_then_right RIGHT); [split|]; reflexivity. Defined.

(** The number of successors: two from a corner, three from an edge,
    four from the centre. *)
Theorem play_count (G : Matrix) (x y : Z) :
  state G -> _space_position G = Some (x, y) ->
  ∃ l, play G None = Ret l ∧
       length l = Nat.add (if decide (x = 1) then 2%nat else 1%nat)
                          (if decide (y = 1) then 2%nat else 1%nat).
Proof.
  intros HG Hsp. destruct (play_spec G x y None HG Hsp) as (l & Hl & HF).
  exists l. split; [done|]. rewrite (Forall2_length _ _ _ HF).
  pose proof HG as (_ & x0 & y0 & Hsp0 & Hxy & _)%state_spec.
  rewrite Hsp in Hsp0. injection Hsp0 as <- <-.
  apply in_bounds_cases in Hxy as [[->|[->| ->]] [->|[->| ->]]]; by vm_compute.
Qed.

Lemma play_count_witness :
  ∃ l, play corner None = Ret l ∧
       length l = Nat.add (if decide (0 = 1) then 2%nat else 1%nat)
                          (if decide (0 = 1) then 2%nat else 1%nat).
Proof. apply (play_count corner 0 0); [split|]; reflexivity. Defined.

(** ** Steps that are refused *)

(** [SolutionStep] between two 3x3 matrices with equal grids raises
    [InvalidStepException]: nothing differs. *)
Theorem SolutionStep_init_same_grid (old new : Matrix) :
  shaped (_arrangement old) -> _arrangement new = _arrangement old ->
  SolutionStep_init old new = Raise InvalidStepException.
Proof.
  intros Hs Heq.
  destruct (differentiate_spec old new Hs ltac:(by rewrite Heq)) as (D & HD & Hin).
  assert (D = ∅) as ->.
  { apply set_eq. intros n. rewrite Hin. split; [|set_solver].
    intros (i & j & a & b & _ & Ha & Hb & Hne & _). rewrite Heq in Hb. congruence. }
  unfold SolutionStep_init. rewrite HD. cbn [mbind outcome_bind].
  by rewrite size_empty.
Qed.

Lemma SolutionStep_init_same_grid_witness :
  SolutionStep_init centre (clone centre) = Raise InvalidStepException.
Proof. apply (SolutionStep_init_same_grid centre (clone centre)); reflexivity. Defined.

(** ** Branches of the searches *)

Lemma play_only_changes_grid m d s :
  state m -> play_only m d = Ret (Some s) -> _arrangement s ≠ _arrangement m.
Proof.
  intros Hm Hp Heq.
  destruct (play_only_Some m d s Hm Hp) as (x & y & v & Hsp & _ & _ & Hvn & _ & _ & _ & _ & Hc).
  pose proof Hm as (_ & x0 & y0 & Hsp0 & Hxy & Hblank)%state_spec.
  rewrite Hsp in Hsp0. injection Hsp0 as <- <-.
  pose proof (Hc x y Hxy) as Hcell. rewrite Heq in Hcell.
  rewrite decide_False in Hcell by (intros H; by apply (destination_neq x y d)).
  rewrite decide_True in Hcell by done.
  assert (cell (_arrangement m) x y = Some SPACE_VALUE) by (by apply Hblank). congruence.
Qed.

Lemma Matrix_in_false x xs :
  Matrix_in x xs = false <-> _arrangement x ∉ _arrangement <$> xs.
Proof.
  rewrite <- not_true_iff_false, Matrix_in_spec, list_elem_of_fmap. split.
  - intros H (e & Heq & He). apply H. by exists e.
  - intros H (e & He & Heq). apply H. by exists e.
Qed.



Lemma first_found_None find final children :
  (∀ c, c ∈ children -> ¬ goal final c ∧ find c = None) ->
  first_found find final children = None.
Proof.
  induction children as [|child rest IH]; intros H; [done|]. cbn [first_found].
  destruct (H child ltac:(left)) as [Hg Hf]. rewrite decide_False by done. rewrite Hf.
  apply IH. intros c Hc. apply H. by right.
Qed.

Lemma first_found_None_inv find final children :
  first_found find final children = None ->
  ∀ c, c ∈ children -> ¬ goal final c ∧ find c = None.
Proof.
  induction children as [|child rest IH]; intros H c Hc; [by apply not_elem_of_nil in Hc|].
  cbn [first_found] in H. destruct (decide (goal final child)) as [Hg|Hg]; [done|].
  destruct (find child) as [g|] eqn:Hf; [done|].
  apply elem_of_cons in Hc as [->|Hc]; [done|by apply IH].
Qed.

(** Below a branch that already holds the grid of [final] nothing is
    found. *)
Lemma dfs_find_behind n final :
  ∀ target,
    derived target ->
    _arrangement final ∈ _arrangement <$> (target :: parents target) ->
    dfs_find n final target = None.
Proof.
  induction n as [|n IH]; intros target Ht Hin; [done|]. cbn [dfs_find].
  apply first_found_None. intros c Hc.
  pose proof (derived_state target Ht) as Hst.
  pose proof (expand_derived target Ht) as Hd. rewrite Forall_forall in Hd.
  apply (elem_of_expand target c Hst) in Hc as Hc'. destruct Hc' as [[d Hp] Hnin].
  pose proof (parents_play_only target d c Hst Hp) as Hpar.
  split.
  - unfold goal. intros Hg. rewrite <- Hg in Hin. rewrite fmap_cons in Hin.
    apply elem_of_cons in Hin as [Heq|Hin].
    + by apply (play_only_changes_grid target d c Hst Hp).
    + by apply Matrix_in_false in Hnin.
  - apply IH; [by apply Hd|]. rewrite Hpar, fmap_cons. by right.
Qed.

(** When [initial] and [final] have the same grid, the depth-first search
    returns [None] whatever the limit: the root is never compared with
    [final], and no node below it may repeat its grid. *)
Theorem DepthFirstSearch_same_grid (initial_matrix final_matrix : Matrix)
    (limit : Z) (fuel : nat) :
  state initial_matrix -> Matrix_eq initial_matrix final_matrix = true ->
  (Z.to_nat limit < fuel)%nat ->
  DepthFirstSearch_solve fuel (DepthFirstSearch_init limit initial_matrix final_matrix)
  = Ret None.
Proof.
  intros Hinit Heq Hfuel. apply bool_decide_eq_true in Heq.
  unfold DepthFirstSearch_solve.
  rewrite (_dfs_answer _ (Z.to_nat limit)); [|by apply derived_clone|simpl; lia|done].
  cbn [DepthFirstSearch_init dfs_base SolutionAlgorithm_init].
  rewrite dfs_find_behind; [done|by apply derived_clone|].
  rewrite fmap_cons. apply elem_of_cons. left. simpl. by symmetry.
Qed.

Lemma DepthFirstSearch_same_grid_witness :
  DepthFirstSearch_solve 31 (DepthFirstSearch_init 30 centre centre) = Ret None.
Proof.
  apply (DepthFirstSearch_same_grid centre centre 30 31); [split; reflexivity|reflexivity|lia].
Defined.

(** ** The depth-first search within its limit *)

Lemma level_S_elem j :
  ∀ t m, m ∈ level (S j) t -> ∃ c, c ∈ expand t ∧ m ∈ level j c.
Proof.
  induction j as [|j IH]; intros t m Hm.
  - cbn [level] in Hm. apply list_elem_of_bind in Hm as (y & Hm & Hy).
    apply list_elem_of_singleton in Hy as ->. exists m. split; [done|]. simpl.
    by apply list_elem_of_singleton.
  - change (level (S (S j)) t) with (level (S j) t ≫= expand) in Hm.
    apply list_elem_of_bind in Hm as (y & Hm & Hy).
    apply IH in Hy as (c & Hc & Hy). exists c. split; [done|].
    change (level (S j) c) with (level j c ≫= expand).
    apply list_elem_of_bind. by exists y.
Qed.

(** A search that finds nothing has seen no goal on the levels 1 to [n]
    below its target. *)
Lemma dfs_find_None n final :
  ∀ target, dfs_find n final target = None ->
  ∀ j m, (1 <= j <= n)%nat -> m ∈ level j target -> ¬ goal final m.
Proof.
  induction n as [|n IH]; intros target Hnone j m Hj Hm; [lia|].
  cbn [dfs_find] in Hnone.
  destruct j as [|j]; [lia|].
  apply level_S_elem in Hm as (c & Hc & Hm).
  destruct (first_found_None_inv _ _ _ Hnone c Hc) as [Hg Hf].
  destruct j as [|j].
  - simpl in Hm. by apply list_elem_of_singleton in Hm as ->.
  - apply (IH c Hf (S j) m); [lia|done].
Qed.

(** The depth-first search is complete within its limit: when [initial]
    and [final] have different grids and some path of at most [limit] legal
    moves leads from [initial] to the grid of [final], the search returns,
    whatever the fuel beyond the limit, the reconstruction of a path of
    legal moves from the root to the grid of [final] with between 1 and
    [limit] steps. *)
Theorem DepthFirstSearch_complete (initial_matrix final_matrix : Matrix)
    (limit : Z) (ds : list Direction) (m : Matrix) :
  state initial_matrix -> Matrix_eq initial_matrix final_matrix = false ->
  run initial_matrix ds = Ret (Some m) -> Matrix_eq m final_matrix = true ->
  Z.of_nat (length ds) <= limit ->
  ∃ steps ds' g,
    (∀ fuel, (Z.to_nat limit < fuel)%nat ->
       DepthFirstSearch_solve fuel (DepthFirstSearch_init limit initial_matrix final_matrix)
       = Ret (Some steps)) ∧
    run (clone initial_matrix) ds' = Ret (Some g) ∧ Matrix_eq g final_matrix = true ∧
    reconstruct g = Ret steps ∧ length steps = length ds' ∧
    1 <= Z.of_nat (length steps) <= limit.
Proof.
  intros Hinit Hne Hrun Hgoal Hlen.
  apply bool_decide_eq_true in Hgoal. apply bool_decide_eq_false in Hne.
  pose proof (state_clone initial_matrix Hinit) as Hclone.
  pose proof (derived_clone initial_matrix Hinit) as Hroot.
  destruct (run_grid initial_matrix (clone initial_matrix) ds m Hinit Hclone eq_refl Hrun)
    as (m1 & Hrun1 & Hgrid1).
  destruct (run_level (clone initial_matrix) ds m1 Hroot eq_refl Hrun1)
    as (k & m' & Hk & Hm' & Hgrid').
  assert (goal (clone final_matrix) m') as Hg by (unfold goal; simpl; congruence).
  destruct (dfs_find (Z.to_nat limit) (clone final_matrix) (clone initial_matrix)) as [g|] eqn:Hfind.
  - destruct (dfs_find_Some _ _ _ _ Hroot Hfind) as (Hdg & Hgg & Hpar).
    destruct (dfs_find_run _ _ _ _ Hroot Hfind) as (ds' & Hrun' & Hlen').
    destruct (reconstruct_spec g Hdg) as (steps & Hrec & Hsteps).
    simpl in Hpar, Hlen'.
    exists steps, ds', g. repeat split.
    + intros fuel Hfuel. unfold DepthFirstSearch_solve.
      rewrite (_dfs_answer _ (Z.to_nat limit)); [|done|simpl; lia|done].
      cbn [DepthFirstSearch_init dfs_base SolutionAlgorithm_init final initial].
      rewrite Hfind. cbn [answer]. by rewrite Hrec.
    + done.
    + by apply bool_decide_eq_true.
    + done.
    + lia.
    + lia.
    + lia.
  - exfalso. destruct k as [|k].
    + simpl in Hm'. apply list_elem_of_singleton in Hm' as ->. by apply Hne.
    + apply (dfs_find_None _ _ _ Hfind (S k) m'); [lia|done|done].
Qed.

Lemma DepthFirstSearch_complete_witness :
  ∃ steps ds' g,
    (∀ fuel, (Z.to_nat 5 < fuel)%nat ->
       DepthFirstSearch_solve fuel (DepthFirstSearch_init 5 corner corner_then_right)
       = Ret (Some steps)) ∧
    run (clone corner) ds' = Ret (Some g) ∧ Matrix_eq g corner_then_right = true ∧
    reconstruct g = Ret steps ∧ length steps = length ds' ∧
    1 <= Z.of_nat (length steps) <= 5.
Proof.
  apply (DepthFirstSearch_complete corner corner_then_right 5 [RIGHT] corner_then_right).
  - split; reflexivity.
  - reflexivity.
  - reflexivity.
  - reflexivity.
  - simpl. lia.
Defined.

(** An insufficient limit gives [None]: when no path of between 1 and
    [limit] legal moves leads from [initial] to the grid of [final], the
    depth-first search returns [None]. *)
Theorem DepthFirstSearch_insufficient (initial_matrix final_matrix : Matrix)
    (limit : Z) (fuel : nat) :
  state initial_matrix ->
  (∀ ds m, 1 <= Z.of_nat (length ds) <= limit ->
           run initial_matrix ds = Ret (Some m) -> Matrix_eq m final_matrix = false) ->
  (Z.to_nat limit < fuel)%nat ->
  DepthFirstSearch_solve fuel (DepthFirstSearch_init limit initial_matrix final_matrix)
  = Ret None.
Proof.
  intros Hinit Hno Hfuel.
  pose proof (state_clone initial_matrix Hinit) as Hclone.
  pose proof (derived_clone initial_matrix Hinit) as Hroot.
  unfold DepthFirstSearch_solve.
  rewrite (_dfs_answer _ (Z.to_nat limit)); [|done|simpl; lia|done].
  cbn [DepthFirstSearch_init dfs_base SolutionAlgorithm_init final initial].
  destruct (dfs_find (Z.to_nat limit) (clone final_matrix) (clone initial_matrix)) as [g|] eqn:Hfind;
    [exfalso|done].
  destruct (dfs_find_Some _ _ _ _ Hroot Hfind) as (Hdg & Hgg & Hpar).
  destruct (dfs_find_run _ _ _ _ Hroot Hfind) as (ds' & Hrun' & Hlen').
  simpl in Hpar, Hlen'.
  destruct (run_grid (clone initial_matrix) initial_matrix ds' g Hclone Hinit eq_refl Hrun')
    as (m & Hrun & Hgrid).
  assert (Matrix_eq m final_matrix = false) as Hne by (apply (Hno ds'); [lia|done]).
  apply bool_decide_eq_false in Hne. apply Hne. unfold goal in Hgg. simpl in Hgg. congruence.
Qed.

(** The grid two moves (RIGHT, then UP) away from [centre]. *)
Definition centre_right_up : Matrix :=
  {| _arrangement := [[1; 2; -1]; [4; 5; 3]; [6; 7; 8]];
     _space_position := Some (0, 2);
     parent := None;
     last_direction := None |}.

Lemma DepthFirstSearch_insufficient_witness :
  DepthFirstSearch_solve 2 (DepthFirstSearch_init 1 centre centre_right_up) = Ret None.
Proof.
  apply (DepthFirstSearch_insufficient centre centre_right_up 1 2);
    [split; reflexivity| |lia].
  intros ds m Hlen Hrun. destruct ds as [|d [|d' ds]]; simpl in Hlen; try lia.
  destruct d; vm_compute in Hrun; injection Hrun as <-; reflexivity.
Defined.

(** ** What the breadth-first search returns *)

Lemma run_parents ds :
  ∀ m g, derived m -> run m ds = Ret (Some g) ->
         length (parents g) = (length (parents m) + length ds)%nat.
Proof.
  induction ds as [|d ds IH]; intros m g Hm Hrun.
  - injection Hrun as <-. simpl. lia.
  - cbn [run] in Hrun. destruct (play_only m d) as [[m'|]| | |] eqn:Hp; try done.
    simpl in Hrun. rewrite (IH m' g); [|by eapply derived_play_only|done].
    rewrite (parents_play_only m d m'); [simpl; lia|by apply derived_state|done].
Qed.

(** More fuel does not change an answer. *)
Lemma bfs_loop_mono final fuel :
  ∀ q r fuel', bfs_loop fuel final q = Ret r -> (fuel <= fuel')%nat ->
               bfs_loop fuel' final q = Ret r.
Proof.
  induction fuel as [|fuel IH]; intros q r fuel' Hrun Hle; [done|].
  destruct fuel' as [|fuel']; [lia|]. cbn [bfs_loop] in *.
  destruct q as [|target q]; [done|].
  destruct (Matrix_eq target final); [done|].
  destruct (play target None) as [l| | |]; try done.
  cbn [mbind outcome_bind] in *. apply IH; [done|lia].
Qed.

(** An answer is the reconstruction of a goal below some matrix of the
    queue. *)
Lemma bfs_loop_found final fuel :
  ∀ q steps, Forall derived q -> bfs_loop fuel final q = Ret (Some steps) ->
  ∃ t ds g, t ∈ q ∧ run t ds = Ret (Some g) ∧ goal final g ∧ reconstruct g = Ret steps.
Proof.
  induction fuel as [|fuel IH]; intros q steps Hq Hrun; [done|].
  cbn [bfs_loop] in Hrun. destruct q as [|target q]; [done|].
  apply Forall_cons in Hq as [Ht Hq].
  rewrite Matrix_eq_goal in Hrun. case_bool_decide as Hg.
  - destruct (reconstruct target) as [steps'| | |] eqn:Hrec; try done.
    injection Hrun as <-. exists target, [], target. split; [by left|done].
  - destruct (expand_play target (derived_state target Ht)) as (l & Hplay & Hexp).
    rewrite Hplay in Hrun. cbn [mbind outcome_bind] in Hrun. rewrite <- Hexp in Hrun.
    apply IH in Hrun as (t & ds & g & Hin & Hds & Hgoal & Hrec).
    + apply elem_of_app in Hin as [Hin|Hin].
      * exists t, ds, g. split; [by right|done].
      * apply (elem_of_expand target t (derived_state target Ht)) in Hin as [[d Hp] _].
        exists target, (d :: ds), g. split; [by left|]. split; [|done].
        cbn [run]. by rewrite Hp.
    + apply Forall_app. split; [done|by apply expand_derived].
Qed.

(** Whatever the loop bound, an answer of the breadth-first search can be
    trusted: a step list it returns is the reconstruction of a path of
    legal moves from the root to the grid of [final], and no path of legal
    moves from [initial] to that grid is shorter; and it returns [None]
    only when no path of legal moves leads from [initial] to the grid of
    [final]. *)
Theorem BreadthFirstSearch_sound (initial_matrix final_matrix : Matrix) (fuel : nat)
    (r : option (list SolutionStep)) :
  state initial_matrix ->
  BreadthFirstSearch_solve fuel (SolutionAlgorithm_init initial_matrix final_matrix) = Ret r ->
  match r with
  | Some steps =>
      ∃ ds g,
        run (clone initial_matrix) ds = Ret (Some g) ∧ Matrix_eq g final_matrix = true ∧
        reconstruct g = Ret steps ∧ length steps = length ds ∧
        ∀ ds' m', run initial_matrix ds' = Ret (Some m') ->
                  Matrix_eq m' final_matrix = true -> (length steps <= length ds')%nat
  | None =>
      ∀ ds m, run initial_matrix ds = Ret (Some m) -> Matrix_eq m final_matrix = false
  end.
Proof.
  intros Hinit Hsolve. unfold BreadthFirstSearch_solve in Hsolve.
  cbn [SolutionAlgorithm_init initial final] in Hsolve.
  pose proof (state_clone initial_matrix Hinit) as Hclone.
  pose proof (derived_clone initial_matrix Hinit) as Hroot.
  assert (∀ ds m, run initial_matrix ds = Ret (Some m) -> Matrix_eq m final_matrix = true ->
            ∃ steps0 ds0 g0,
              r = Some steps0 ∧
              run (clone initial_matrix) ds0 = Ret (Some g0) ∧ goal (clone final_matrix) g0 ∧
              reconstruct g0 = Ret steps0 ∧ length steps0 = length ds0 ∧
              ∀ ds' m', run (clone initial_matrix) ds' = Ret (Some m') ->
                        goal (clone final_matrix) m' -> (length steps0 <= length ds')%nat)
    as Hpath.
  { intros ds m Hrun Hgoal. apply bool_decide_eq_true in Hgoal.
    destruct (run_grid initial_matrix (clone initial_matrix) ds m Hinit Hclone eq_refl Hrun)
      as (m1 & Hrun1 & Hgrid1).
    destruct (bfs_loop_shortest (clone final_matrix) (clone initial_matrix) Hroot eq_refl)
      as (fuel0 & steps0 & ds0 & g0 & Hall & H0).
    { exists ds, m1. split; [done|]. unfold goal. simpl. congruence. }
    exists steps0, ds0, g0. split; [|done].
    pose proof (Hall (fuel0 + fuel)%nat ltac:(lia)) as H1.
    rewrite (bfs_loop_mono _ _ _ _ (fuel0 + fuel)%nat Hsolve) in H1 by lia. congruence. }
  destruct r as [steps|].
  - apply bfs_loop_found in Hsolve as (t & ds & g & Hin & Hrun & Hgoal & Hrec);
      [|by apply Forall_singleton].
    apply list_elem_of_singleton in Hin as ->.
    destruct (run_grid (clone initial_matrix) initial_matrix ds g Hclone Hinit eq_refl Hrun)
      as (m & Hrunm & Hgridm).
    destruct (Hpath ds m Hrunm) as (steps0 & ds0 & g0 & [= <-] & Hrun0 & Hg0 & Hrec0 & Hlen0 & Hmin).
    { apply bool_decide_eq_true. unfold goal in Hgoal. simpl in Hgoal. congruence. }
    exists ds0, g0. split; [done|]. split; [by apply bool_decide_eq_true|].
    split; [done|]. split; [done|].
    intros ds' m' Hrun' Hgoal'. apply bool_decide_eq_true in Hgoal'.
    destruct (run_grid initial_matrix (clone initial_matrix) ds' m' Hinit Hclone eq_refl Hrun')
      as (m1 & Hrun1 & Hgrid1).
    apply (Hmin ds' m1 Hrun1). unfold goal. simpl. congruence.
  - intros ds m Hrun. destruct (Matrix_eq m final_matrix) eqn:Hgoal; [exfalso|done].
    by destruct (Hpath ds m Hrun Hgoal) as (? & ? & ? & ? & _).
Qed.

Lemma BreadthFirstSearch_sound_witness :
  ∃ ds g,
    run (clone centre) ds = Ret (Some g) ∧ Matrix_eq g centre_right_up = true ∧
    reconstruct g
    = Ret [{| click := Some 5; target := centre_right |};
           {| click := Some 3; target := centre_right_up |}] ∧
    length [{| click := Some 5; target := centre_right |};
            {| click := Some 3; target := centre_right_up |}] = length ds ∧
    ∀ ds' m', run centre ds' = Ret (Some m') ->
              Matrix_eq m' centre_right_up = true -> (2 <= length ds')%nat.
Proof.
  apply (BreadthFirstSearch_sound centre centre_right_up 20
           (Some [{| click := Some 5; target := centre_right |};
                  {| click := Some 3; target := centre_right_up |}])).
  - split; reflexivity.
  - by vm_compute.
Defined.

(** When [initial] and [final] have the same grid, the breadth-first
    search answers with the empty step list at its first round (where the
    depth-first search answers [None]). *)
Theorem BreadthFirstSearch_same_grid (initial_matrix final_matrix : Matrix) (fuel : nat) :
  Matrix_eq initial_matrix final_matrix = true -> (0 < fuel)%nat ->
  BreadthFirstSearch_solve fuel (SolutionAlgorithm_init initial_matrix final_matrix)
  = Ret (Some []).
Proof.
  intros Heq Hfuel. destruct fuel as [|fuel]; [lia|].
  unfold BreadthFirstSearch_solve. cbn [SolutionAlgorithm_init initial final bfs_loop].
  change (Matrix_eq (clone initial_matrix) (clone final_matrix))
    with (Matrix_eq initial_matrix final_matrix).
  by rewrite Heq.
Qed.

Lemma BreadthFirstSearch_same_grid_witness :
  BreadthFirstSearch_solve 1 (SolutionAlgorithm_init centre_right centre_then_right)
  = Ret (Some []).
Proof.
  apply (BreadthFirstSearch_same_grid centre_right centre_then_right 1); [reflexivity|lia].
Defined.

(** ** The constructor *)

(** The symbols of a well-formed input. *)
Definition symbols : list ascii := list_ascii_of_string "#12345678".

(** The number the constructor stores for a symbol. *)
Definition number_of (char : ascii) : Z :=
  if bool_decide (char = SPACE_SYMBOL) then SPACE_VALUE
  else Z.of_N (N_of_ascii char) - 48.

(** The locals [spaced] and [appeared] record the symbols seen so far. *)
Definition tracks (seen : list ascii) (spaced : bool) (appeared : gmap Z bool) : Prop :=
  spaced = bool_decide (SPACE_SYMBOL ∈ seen) ∧
  ∀ char, char ∈ symbols -> char ≠ SPACE_SYMBOL ->
    appeared !! number_of char = Some (bool_decide (char ∈ seen)).

Lemma elem_of_symbols char :
  char ∈ symbols ->
  is_space char = false ∧
  (char ≠ SPACE_SYMBOL -> int char = Ret (number_of char)).
Proof.
  unfold symbols. simpl. intros H.
  repeat (apply elem_of_cons in H as [->|H]); try (split; [reflexivity|]; intros Hne; done).
  by apply not_elem_of_nil in H.
Qed.

Lemma number_of_inj a b :
  a ≠ SPACE_SYMBOL -> b ≠ SPACE_SYMBOL -> number_of a = number_of b -> a = b.
Proof.
  intros Ha Hb. unfold number_of. rewrite !bool_decide_eq_false_2 by done.
  intros H. assert (N_of_ascii a = N_of_ascii b) as Heq by lia.
  by rewrite <- (ascii_N_embedding a), <- (ascii_N_embedding b), Heq.
Qed.

Lemma tracks_init : tracks [] false appeared_init.
Proof.
  split; [done|]. unfold symbols. simpl. intros char H Hne.
  repeat (apply elem_of_cons in H as [->|H]); try done; try by vm_compute.
  by apply not_elem_of_nil in H.
Qed.

Lemma lstrip_id l : Forall (fun c => is_space c = false) l -> lstrip l = l.
Proof. intros [|c l' Hc _]; [done|]. simpl. by rewrite Hc. Qed.

Lemma strip_id l : Forall (fun c => is_space c = false) l -> strip l = l.
Proof.
  intros H. unfold strip. rewrite (lstrip_id l H).
  rewrite lstrip_id; [by rewrite reverse_involutive|]. by apply Forall_reverse.
Qed.

Lemma init_chars_ok r line :
  ∀ c self spaced appeared seen,
    shaped (_arrangement self) -> 0 <= r < MATRIX_SIZE -> 0 <= c ->
    c + Z.of_nat (length line) <= MATRIX_SIZE ->
    Forall (fun char => char ∈ symbols) line -> NoDup (seen ++ line) ->
    tracks seen spaced appeared ->
    ∃ self' spaced' appeared',
      init_chars r c line (self, spaced, appeared) = Ret (self', spaced', appeared') ∧
      shaped (_arrangement self') ∧ tracks (seen ++ line) spaced' appeared' ∧
      (∀ j char, line !! j = Some char ->
         cell (_arrangement self') r (c + Z.of_nat j) = Some (number_of char)) ∧
      (∀ i j, in_bounds i j -> i ≠ r ∨ j < c ->
         cell (_arrangement self') i j = cell (_arrangement self) i j).
Proof.
  induction line as [|char rest IH]; intros c self spaced appeared seen Hs Hr Hc Hlen Hsym Hnd Htr.
  - exists self, spaced, appeared. rewrite app_nil_r. repeat split; try done; apply Htr.
  - apply Forall_cons in Hsym as [Hchar Hsym].
    destruct (elem_of_symbols char Hchar) as [_ Hint].
    assert (in_bounds r c) as Hrc.
    { unfold in_bounds, MATRIX_SIZE in *. simpl in Hlen. lia. }
    assert (char ∉ seen) as Hnew.
    { apply NoDup_app in Hnd as (_ & Hnd & _). intros Hin. apply (Hnd char Hin). by left. }
    assert (NoDup ((seen ++ [char]) ++ rest)) as Hnd' by (by rewrite <- app_assoc).
    destruct Htr as [Hsp Hap].
    assert (c + 1 + Z.of_nat (length rest) <= MATRIX_SIZE) as Hlen' by (simpl in Hlen; lia).
    cbn [init_chars]. destruct (decide (char = SPACE_SYMBOL)) as [Hspace|Hspace];
      [rewrite (bool_decide_eq_true_2 (char = SPACE_SYMBOL)) by done
      |rewrite (bool_decide_eq_false_2 (char = SPACE_SYMBOL)) by done].
    + subst char. rewrite bool_decide_eq_false_2 in Hsp by done. subst spaced.
      destruct (place_spec self r c SPACE_VALUE Hs Hrc) as (self1 & Hp & Hs1 & _ & _ & _ & Hc1).
      rewrite Hp. cbn [mbind outcome_bind].
      destruct (IH (c + 1) self1 true appeared (seen ++ [SPACE_SYMBOL]) Hs1 Hr ltac:(lia) Hlen' Hsym Hnd')
        as (self' & spaced' & appeared' & Hrun & Hs' & Htr' & Hw & Hu).
      { split.
        - symmetry. apply bool_decide_eq_true_2, elem_of_app. right. by left.
        - intros ch Hch Hne. rewrite (Hap ch Hch Hne). f_equal. apply bool_decide_ext.
          rewrite elem_of_app, list_elem_of_singleton. tauto. }
      exists self', spaced', appeared'. split; [done|]. split; [done|].
      rewrite <- app_assoc in Htr'. split; [done|]. split.
      * intros [|j] ch Hj.
        -- injection Hj as <-. rewrite Z.add_0_r.
           rewrite Hu by (done || (right; lia)). rewrite Hc1 by done.
           rewrite decide_True by done. done.
        -- replace (c + Z.of_nat (S j)) with (c + 1 + Z.of_nat j) by lia. by apply Hw.
      * intros i j Hij Hor. rewrite Hu by (done || lia). rewrite Hc1 by done.
        rewrite decide_False; [done|]. intros [= -> ->]. lia.
    + rewrite (Hint Hspace). cbn [mbind outcome_bind].
      rewrite (Hap char Hchar Hspace). rewrite bool_decide_eq_false_2 by done.
      destruct (place_spec self r c (number_of char) Hs Hrc) as (self1 & Hp & Hs1 & _ & _ & _ & Hc1).
      rewrite Hp. cbn [mbind outcome_bind].
      destruct (IH (c + 1) self1 spaced (<[number_of char := true]> appeared) (seen ++ [char])
                  Hs1 Hr ltac:(lia) Hlen' Hsym Hnd')
        as (self' & spaced' & appeared' & Hrun & Hs' & Htr' & Hw & Hu).
      { split.
        - rewrite Hsp. apply bool_decide_ext.
          rewrite elem_of_app, list_elem_of_singleton. split; [tauto|].
          intros [H|H]; [done|]. by subst.
        - intros ch Hch Hne. destruct (decide (ch = char)) as [->|Hne'].
          + rewrite lookup_insert_eq. f_equal. symmetry.
            apply bool_decide_eq_true_2, elem_of_app. right. by left.
          + rewrite lookup_insert_ne by (intros H; apply Hne'; symmetry; by apply number_of_inj).
            rewrite (Hap ch Hch Hne). f_equal. apply bool_decide_ext.
            rewrite elem_of_app, list_elem_of_singleton. tauto. }
      exists self', spaced', appeared'. split; [done|]. split; [done|].
      rewrite <- app_assoc in Htr'. split; [done|]. split.
      * intros [|j] ch Hj.
        -- injection Hj as <-. rewrite Z.add_0_r.
           rewrite Hu by (done || (right; lia)). rewrite Hc1 by done.
           rewrite decide_True by done. done.
        -- replace (c + Z.of_nat (S j)) with (c + 1 + Z.of_nat j) by lia. by apply Hw.
      * intros i j Hij Hor. rewrite Hu by (done || lia). rewrite Hc1 by done.
        rewrite decide_False; [done|]. intros [= -> ->]. lia.
Qed.

Lemma init_lines_ok data :
  ∀ r self spaced appeared seen,
    shaped (_arrangement self) -> 0 <= r -> r + Z.of_nat (length data) <= MATRIX_SIZE ->
    Forall (fun line => length (list_ascii_of_string line) = 3%nat ∧
                        Forall (fun char => char ∈ symbols) (list_ascii_of_string line)) data ->
    NoDup (seen ++ mjoin (list_ascii_of_string <$> data)) ->
    tracks seen spaced appeared ->
    ∃ self' spaced' appeared',
      init_lines r data (self, spaced, appeared) = Ret (self', spaced', appeared') ∧
      shaped (_arrangement self') ∧
      tracks (seen ++ mjoin (list_ascii_of_string <$> data)) spaced' appeared' ∧
      (∀ i j line char,
         data !! i = Some line -> list_ascii_of_string line !! j = Some char ->
         cell (_arrangement self') (r + Z.of_nat i) (Z.of_nat j) = Some (number_of char)) ∧
      (∀ i j, in_bounds i j -> i < r ->
         cell (_arrangement self') i j = cell (_arrangement self) i j).
Proof.
  induction data as [|line rest IH]; intros r self spaced appeared seen Hs Hr Hlen Hall Hnd Htr.
  - exists self, spaced, appeared. simpl. rewrite app_nil_r.
    split; [done|]. split; [done|]. split; [done|]. split; [|done].
    intros i j line char Hi. by rewrite lookup_nil in Hi.
  - apply Forall_cons in Hall as [[Hl Hsym] Hall].
    assert (0 <= r < MATRIX_SIZE) as Hr' by (simpl in Hlen; lia).
    cbn [init_lines]. rewrite (proj2 (boundary_check_one r) Hr'). cbn [negb].
    rewrite strip_id.
    2:{ eapply Forall_impl; [exact Hsym|]. intros ch Hch. by apply elem_of_symbols in Hch as [? _]. }
    rewrite Hl. cbn [negb Z.eqb Z.of_nat MATRIX_SIZE Pos.of_succ_nat Pos.succ Pos.eqb].
    cbn [fmap list_fmap mjoin list_join] in Hnd. rewrite app_assoc in Hnd.
    assert (NoDup (seen ++ list_ascii_of_string line)) as Hnd1 by (by apply NoDup_app in Hnd as [? _]).
    destruct (init_chars_ok r (list_ascii_of_string line) 0 self spaced appeared seen Hs Hr'
                ltac:(lia) ltac:(rewrite Hl; unfold MATRIX_SIZE; lia) Hsym Hnd1 Htr)
      as (self1 & spaced1 & appeared1 & Hrun1 & Hs1 & Htr1 & Hw1 & Hu1).
    rewrite Hrun1. cbn [mbind outcome_bind].
    destruct (IH (r + 1) self1 spaced1 appeared1 (seen ++ list_ascii_of_string line) Hs1
                ltac:(lia) ltac:(simpl in Hlen; lia) Hall Hnd Htr1)
      as (self' & spaced' & appeared' & Hrun & Hs' & Htr' & Hw & Hu).
    exists self', spaced', appeared'. split; [done|]. split; [done|].
    cbn [fmap list_fmap mjoin list_join]. rewrite app_assoc. split; [done|]. split.
    + intros [|i] j l ch Hi Hj.
      * injection Hi as <-. rewrite Z.add_0_r.
        assert (j < 3)%nat as Hj3 by (rewrite <- Hl; by eapply lookup_lt_Some).
        rewrite Hu by (unfold in_bounds, MATRIX_SIZE in *; lia).
        by rewrite <- (Hw1 j ch Hj).
      * replace (r + Z.of_nat (S i)) with (r + 1 + Z.of_nat i) by lia. by eapply Hw.
    + intros i j Hij Hi. rewrite Hu by (done || lia). apply Hu1; [done|]. left. lia.
Qed.

Lemma NoDup_symbols : NoDup symbols.
Proof. apply (bool_decide_unpack _). by vm_compute. Qed.

(** The constructor accepts every well-formed input and stores what it
    reads: the matrix it returns is a state, and [fetch] finds at row [i],
    column [j] the number of the [j]-th character of the [i]-th line,
    [SPACE_VALUE] for the blank symbol. *)
Theorem Matrix_init_well_formed (data : list string) :
  well_formed data ->
  ∃ m, Matrix_init (Some data) = Ret m ∧ state m ∧
       ∀ i j line char,
         data !! i = Some line -> list_ascii_of_string line !! j = Some char ->
         fetch m (Z.of_nat i) (Z.of_nat j) = Ret (number_of char).
Proof.
  intros Hwf. pose proof Hwf as [Hlen Hperm].
  assert (length data = 3%nat) as Hdata.
  { apply (f_equal length) in Hlen. by rewrite !length_fmap in Hlen. }
  assert (Forall (fun line => length (list_ascii_of_string line) = 3%nat ∧
                    Forall (fun char => char ∈ symbols) (list_ascii_of_string line)) data)
    as Hall.
  { apply Forall_forall. intros line Hline. split.
    - apply list_elem_of_lookup in Hline as [i Hi].
      assert ((length <$> (list_ascii_of_string <$> data)) !! i
              = Some (length (list_ascii_of_string line))) as H
        by (by rewrite !list_lookup_fmap, Hi).
      rewrite Hlen in H. by destruct i as [|[|[|i]]]; inversion H.
    - apply Forall_forall. intros ch Hch. unfold symbols. rewrite <- Hperm.
      apply list_elem_of_join. exists (list_ascii_of_string line). split; [done|].
      apply list_elem_of_fmap. by exists line. }
  destruct (init_lines_ok data 0 Matrix_empty false appeared_init [] ltac:(reflexivity)
              ltac:(lia) ltac:(rewrite Hdata; unfold MATRIX_SIZE; lia) Hall)
    as (self' & spaced' & appeared' & Hrun & Hs' & _ & Hw & _).
  { simpl. rewrite Hperm. apply NoDup_symbols. }
  { apply tracks_init. }
  exists self'. unfold Matrix_init at 1. rewrite Hrun. cbn [mbind outcome_bind fst].
  split; [done|].
  assert (Matrix_init (Some data) = Ret self') as Hinit
    by (unfold Matrix_init; by rewrite Hrun).
  split; [by apply (Matrix_init_state data)|].
  intros i j line ch Hi Hj. apply fetch_Ret.
  assert (i < 3)%nat as Hi3 by (rewrite <- Hdata; by eapply lookup_lt_Some).
  assert (j < 3)%nat as Hj3.
  { rewrite Forall_forall in Hall. destruct (Hall line) as [Hl _].
    - by eapply list_elem_of_lookup_2.
    - rewrite <- Hl. by eapply lookup_lt_Some. }
  split; [unfold in_bounds, MATRIX_SIZE; lia|].
  by rewrite <- (Hw i j line ch Hi Hj).
Qed.

Lemma Matrix_init_well_formed_witness :
  ∃ m, Matrix_init (Some ["123"; "4#5"; "678"]%string) = Ret m ∧ state m ∧
       ∀ i j line char,
         ["123"; "4#5"; "678"]%string !! i = Some line ->
         list_ascii_of_string line !! j = Some char ->
         fetch m (Z.of_nat i) (Z.of_nat j) = Ret (number_of char).
Proof.
  apply (Matrix_init_well_formed ["123"; "4#5"; "678"]%string).
  split; [reflexivity|]. apply (bool_decide_unpack _). by vm_compute.
Defined.

(** The numbers [appeared] still maps to [False]. *)
Definition unseen (appeared : gmap Z bool) : nat :=
  size (filter (fun kv => kv.2 = false) appeared).

Lemma unseen_insert appeared n :
  appeared !! n = Some false -> S (unseen (<[n := true]> appeared)) = unseen appeared.
Proof.
  intros Hn. unfold unseen. rewrite map_filter_insert_False by done.
  rewrite map_filter_delete.
  assert (filter (fun kv : Z * bool => kv.2 = false) appeared !! n = Some false) as Hf
    by (by apply map_lookup_filter_Some_2).
  rewrite map_size_delete_Some by done.
  assert (size (filter (fun kv : Z * bool => kv.2 = false) appeared) ≠ 0%nat); [|lia].
  intros H%map_size_empty_inv. by rewrite H in Hf.
Qed.

Definition flag (spaced : bool) : nat := if spaced then 1%nat else 0%nat.

(** Every character the inner loop gets past uses up the blank or one of
    the numbers not yet seen. *)
Lemma init_chars_count r line :
  ∀ c self spaced appeared self' spaced' appeared',
    init_chars r c line (self, spaced, appeared) = Ret (self', spaced', appeared') ->
    (unseen appeared' + length line + flag spaced = unseen appeared + flag spaced')%nat.
Proof.
  induction line as [|char rest IH]; intros c self spaced appeared self' spaced' appeared' Hrun.
  - injection Hrun as <- <- <-. simpl. lia.
  - cbn [init_chars] in Hrun.
    destruct (bool_decide (char = SPACE_SYMBOL)).
    + destruct spaced; [done|].
      destruct (place self r c SPACE_VALUE) as [self1| | |]; try done.
      cbn [mbind outcome_bind] in Hrun. apply IH in Hrun. simpl in *. lia.
    + destruct (int char) as [number| | |]; try done. cbn [mbind outcome_bind] in Hrun.
      destruct (appeared !! number) as [[|]|] eqn:Hn; try done.
      destruct (place self r c number) as [self1| | |]; try done.
      cbn [mbind outcome_bind] in Hrun. apply IH in Hrun.
      apply unseen_insert in Hn. simpl in *. lia.
Qed.

Lemma init_lines_count data :
  ∀ r self spaced appeared self' spaced' appeared',
    init_lines r data (self, spaced, appeared) = Ret (self', spaced', appeared') ->
    r <= MATRIX_SIZE ->
    r + Z.of_nat (length data) <= MATRIX_SIZE ∧
    (unseen appeared' + 3 * length data + flag spaced = unseen appeared + flag spaced')%nat.
Proof.
  induction data as [|line rest IH]; intros r self spaced appeared self' spaced' appeared' Hrun Hr.
  - injection Hrun as <- <- <-. simpl. split; lia.
  - cbn [init_lines] in Hrun.
    destruct (boundary_check [r]) eqn:Hb; [|done]. apply boundary_check_one in Hb.
    cbn [negb] in Hrun.
    destruct (Z.of_nat (length (strip (list_ascii_of_string line))) =? MATRIX_SIZE) eqn:Hlen;
      [|done].
    cbn [negb] in Hrun. apply Z.eqb_eq in Hlen.
    destruct (init_chars r 0 (strip (list_ascii_of_string line)) (self, spaced, appeared))
      as [[[self1 spaced1] appeared1]| | |] eqn:Hchars; try done.
    cbn [mbind outcome_bind] in Hrun.
    apply init_chars_count in Hchars. apply IH in Hrun as [Hle Hcount]; [|lia].
    unfold MATRIX_SIZE in *. simpl. split; lia.
Qed.

(** The rows the loops have not reached keep what they held. *)
Lemma init_chars_rows r line :
  ∀ c st st',
    init_chars r c line st = Ret st' -> shaped (_arrangement st.1.1) ->
    shaped (_arrangement st'.1.1) ∧
    ∀ i j, in_bounds i j -> i ≠ r ->
      cell (_arrangement st'.1.1) i j = cell (_arrangement st.1.1) i j.
Proof.
  induction line as [|char rest IH]; intros c [[self spaced] appeared] st' Hrun Hs.
  - by injection Hrun as <-.
  - cbn [init_chars] in Hrun. simpl in Hs.
    destruct (bool_decide (char = SPACE_SYMBOL)).
    + destruct spaced; [done|].
      destruct (place self r c SPACE_VALUE) as [self1| | |] eqn:Hp; try done.
      cbn [mbind outcome_bind] in Hrun.
      destruct (place_Ret _ _ _ _ _ Hs Hp) as (_ & Hs1 & _ & Hc1).
      apply IH in Hrun as [Hs' Hc']; [|done]. split; [done|].
      intros i j Hij Hne. rewrite Hc' by done. simpl. rewrite Hc1 by done.
      rewrite decide_False; [done|]. by intros [= -> ->].
    + destruct (int char) as [number| | |]; try done. cbn [mbind outcome_bind] in Hrun.
      destruct (appeared !! number) as [[|]|] eqn:Hn; try done.
      destruct (place self r c number) as [self1| | |] eqn:Hp; try done.
      cbn [mbind outcome_bind] in Hrun.
      destruct (place_Ret _ _ _ _ _ Hs Hp) as (_ & Hs1 & _ & Hc1).
      apply IH in Hrun as [Hs' Hc']; [|done]. split; [done|].
      intros i j Hij Hne. rewrite Hc' by done. simpl. rewrite Hc1 by done.
      rewrite decide_False; [done|]. by intros [= -> ->].
Qed.

Lemma init_lines_rows data :
  ∀ r st st',
    init_lines r data st = Ret st' -> shaped (_arrangement st.1.1) ->
    ∀ i j, in_bounds i j -> r + Z.of_nat (length data) <= i ->
      cell (_arrangement st'.1.1) i j = cell (_arrangement st.1.1) i j.
Proof.
  induction data as [|line rest IH]; intros r st st' Hrun Hs i j Hij Hi.
  - by injection Hrun as <-.
  - cbn [init_lines] in Hrun.
    destruct (boundary_check [r]); [|done]. cbn [negb] in Hrun.
    destruct (Z.of_nat (length (strip (list_ascii_of_string line))) =? MATRIX_SIZE); [|done].
    cbn [negb] in Hrun.
    destruct (init_chars r 0 (strip (list_ascii_of_string line)) st) as [st1| | |] eqn:Hchars;
      try done.
    cbn [mbind outcome_bind] in Hrun.
    destruct (init_chars_rows _ _ _ _ _ Hchars Hs) as [Hs1 Hc1].
    rewrite (IH (r + 1) st1 st' Hrun Hs1 i j Hij) by (simpl in Hi; lia).
    apply Hc1; [done|]. simpl in Hi. lia.
Qed.

(** The constructor returns on at most three lines, and what it returns is
    a state exactly when there were three: with fewer lines the rows not
    given stay filled with [SPACE_VALUE], and nothing is reported. *)
Theorem Matrix_init_lines (data : list string) (m : Matrix) :
  Matrix_init (Some data) = Ret m ->
  (length data <= 3)%nat ∧ (state m <-> length data = 3%nat).
Proof.
  intros Hinit. unfold Matrix_init in Hinit.
  destruct (init_lines 0 data (Matrix_empty, false, appeared_init))
    as [[[self spaced] appeared]| | |] eqn:Hrun; try done.
  cbn [mbind outcome_bind fst] in Hinit. injection Hinit as <-.
  destruct (init_lines_count _ _ _ _ _ _ _ _ Hrun) as [Hle Hcount]; [done|].
  unfold MATRIX_SIZE in Hle. split; [lia|]. split.
  - intros (_ & x & y & _ & _ & Hblank)%state_spec.
    destruct (decide (length data = 3%nat)) as [|Hne]; [done|]. exfalso.
    pose proof (init_lines_rows _ _ _ _ Hrun ltac:(reflexivity)) as Hrows. simpl in Hrows.
    assert (in_bounds 2 0 ∧ in_bounds 2 1) as [H0 H1] by (unfold in_bounds, MATRIX_SIZE; lia).
    pose proof (proj1 (Hblank 2 0 H0) ltac:(by rewrite Hrows by (done || lia))) as E0.
    pose proof (proj1 (Hblank 2 1 H1) ltac:(by rewrite Hrows by (done || lia))) as E1.
    congruence.
  - intros Hlen. rewrite Hlen in Hcount.
    assert (unseen appeared_init = 8%nat) as Hinit8 by (by vm_compute).
    rewrite Hinit8 in Hcount. assert (spaced = true) as -> by (destruct spaced; simpl in *; [done|lia]).
    apply init_lines_inv in Hrun as [Hinv _].
    + rewrite Hlen in Hinv. by apply init_inv_state in Hinv.
    + split; [reflexivity|]. intros i j Hij Hbef. exfalso.
      unfold in_bounds, before in *. lia.
Qed.

Lemma Matrix_init_lines_witness :
  (length ["123"; "4#5"]%string <= 3)%nat ∧
  (state {| _arrangement := [[1; 2; 3]; [4; -1; 5]; [-1; -1; -1]];
            _space_position := Some (1, 1);
            parent := None;
            last_direction := None |}
   <-> length ["123"; "4#5"]%string = 3%nat).
Proof.
  apply (Matrix_init_lines ["123"; "4#5"]%string). by vm_compute.
Defined.

(** ** Cells and moves *)

(** [place] and [fetch] on a 3x3 grid: within bounds [place] returns, and
    then [fetch] finds the number placed at that cell and what [fetch]
    found before at every other cell; out of bounds [place] ends the
    program. *)
Theorem place_fetch (m : Matrix) (row column number : Z) :
  shaped (_arrangement m) ->
  (in_bounds row column ->
   ∃ m', place m row column number = Ret m' ∧
         fetch m' row column = Ret number ∧
         ∀ i j, (i, j) ≠ (row, column) -> fetch m' i j = fetch m i j) ∧
  (¬ in_bounds row column -> place m row column number = Exit).
Proof.
  intros Hs. split.
  - intros Hrc.
    destruct (place_spec m row column number Hs Hrc) as (m' & Hp & Hs' & _ & _ & _ & Hc).
    exists m'. split; [done|]. split.
    + apply fetch_Ret. split; [done|]. rewrite Hc by done. by rewrite decide_True.
    + intros i j Hne. unfold fetch.
      destruct (boundary_check [i; j]) eqn:Hb; [|done]. apply boundary_check_two in Hb.
      cbn [negb]. rewrite Hc by done. by rewrite decide_False.
  - intros Hrc. unfold place.
    destruct (boundary_check [row; column]) eqn:Hb; [|done].
    by apply boundary_check_two in Hb.
Qed.

Lemma place_fetch_witness :
  (in_bounds 0 2 ->
   ∃ m', place centre 0 2 7 = Ret m' ∧
         fetch m' 0 2 = Ret 7 ∧
         ∀ i j, (i, j) ≠ (0, 2) -> fetch m' i j = fetch centre i j) ∧
  (¬ in_bounds 0 2 -> place centre 0 2 7 = Exit).
Proof. apply (place_fetch centre 0 2 7). reflexivity. Defined.

Lemma play_loop_allowed m x y fd ds :
  play_loop m x y fd ds = play_loop m x y None (filter (allowed fd) ds).
Proof.
  induction ds as [|d ds IH]; [done|]. rewrite filter_cons. cbn [play_loop].
  destruct fd as [forbidden|].
  - cbn [allowed] in *. destruct (decide (d ∉ forbidden)) as [Hd|Hd].
    + rewrite bool_decide_eq_false_2 by done. cbn [play_loop]. by rewrite IH.
    + rewrite bool_decide_eq_true_2; [done|]. by apply dec_stable.
  - cbn [allowed] in *. rewrite decide_True by done. cbn [play_loop]. by rewrite IH.
Qed.

(** [play] is [play_towards] on the directions of the enumeration that are
    not forbidden. *)
Theorem play_as_play_towards (m : Matrix) (forbidden_directions : option (list Direction)) :
  play m forbidden_directions
  = play_towards m (filter (allowed forbidden_directions) [LEFT; UP; RIGHT; DOWN]).
Proof.
  unfold play, play_towards. destruct (_space_position m) as [[x y]|]; [|done].
  apply play_loop_allowed.
Qed.

(** On a state, [play_towards] returns, in the order of the directions
    given and as often as they are given, the result of [play_only] for
    each of them that is legal, each recording its direction and the
    matrix played on as its parent. *)
Theorem play_towards_successors (G : Matrix) (towards_directions : list Direction) :
  state G ->
  ∃ x y l,
    _space_position G = Some (x, y) ∧
    play_towards G towards_directions = Ret l ∧
    Forall2 (fun s d => play_only G d = Ret (Some s) ∧
                        last_direction s = Some d ∧ parent s = Some G) l
      (filter (legal x y) towards_directions).
Proof.
  intros HG. destruct (state_space G HG) as (x & y & Hsp & Hxy).
  destruct (play_loop_spec G x y None towards_directions HG Hsp) as (l & Hl & HF).
  exists x, y, l. split; [done|]. split; [by unfold play_towards; rewrite Hsp|].
  assert (filter (fun d => allowed None d ∧ legal x y d) towards_directions
          = filter (legal x y) towards_directions) as Heq.
  { apply list_filter_iff. intros d. simpl. tauto. }
  rewrite Heq in HF. eapply Forall2_impl; [exact HF|]. intros s d Hs.
  assert (play_only G d = Ret (Some s)) as Hp by (by unfold play_only; rewrite Hsp).
  split; [done|].
  by destruct (play_only_Some G d s HG Hp) as (? & ? & ? & ? & ? & ? & ? & ? & ? & ? & ? & ?).
Qed.

Lemma play_towards_successors_witness :
  ∃ x y l,
    _space_position corner = Some (x, y) ∧
    play_towards corner [RIGHT; UP; RIGHT] = Ret l ∧
    Forall2 (fun s d => play_only corner d = Ret (Some s) ∧
                        last_direction s = Some d ∧ parent s = Some corner) l
      (filter (legal x y) [RIGHT; UP; RIGHT]).
Proof. apply (play_towards_successors corner [RIGHT; UP; RIGHT]). split; reflexivity. Defined.

(** ** Fitness of a genome *)

(** The loop left by [return] at the gene after [prefix]. *)
Lemma replay_return final prefix :
  ∀ i0 candidate last_candidate a last d g rest,
    run candidate prefix = Ret (Some last) ->
    reaches final candidate prefix = false ->
    play_only last d = Ret (Some g) -> Matrix_eq g final = true ->
    replay final i0 (prefix ++ d :: rest) candidate last_candidate a
    = Ret (Returned (i0 + Z.of_nat (length prefix))).
Proof.
  induction prefix as [|d' prefix IH]; intros i0 candidate last_c a last d g rest.
  - intros [= <-] _ Hp Hg. cbn [app replay]. rewrite Hp. cbn [mbind outcome_bind].
    rewrite Hg. do 2 f_equal. simpl. lia.
  - cbn [run reaches app replay].
    destruct (play_only candidate d') as [[next|]| | |] eqn:Hp; try done.
    cbn [mbind outcome_bind]. intros Hrun Hno Hd Hg.
    apply orb_false_iff in Hno as [Heq Hno]. rewrite Heq.
    rewrite (IH (i0 + 1) next candidate a last d g rest Hrun Hno Hd Hg).
    do 2 f_equal. simpl length. lia.
Qed.

(** The loop left by exhaustion: [last_candidate] is the state before the
    last move. *)
Lemma replay_exhausted final prefix :
  ∀ i0 candidate last_candidate a last d g,
    run candidate prefix = Ret (Some last) ->
    play_only last d = Ret (Some g) ->
    reaches final candidate (prefix ++ [d]) = false ->
    replay final i0 (prefix ++ [d]) candidate last_candidate a = Ret (Left_loop a last).
Proof.
  induction prefix as [|d' prefix IH]; intros i0 candidate last_c a last d g.
  - intros [= <-] Hp Hno. cbn [app replay reaches] in *. rewrite Hp in *.
    cbn [mbind outcome_bind]. apply orb_false_iff in Hno as [-> _]. done.
  - cbn [run reaches app replay].
    destruct (play_only candidate d') as [[next|]| | |] eqn:Hp; try done.
    cbn [mbind outcome_bind]. intros Hrun Hd Hno.
    apply orb_false_iff in Hno as [Heq Hno]. rewrite Heq.
    by apply (IH (i0 + 1) next candidate a last d g).
Qed.

(** A genome that reaches [final] for the first time with its gene of
    index [i] is cut after that gene and gets the fitness
    [FINAL_ADAPTIVITY]. *)
Theorem calculate_adaptivity_reaching (self : Individual) (initial final last g : Matrix)
    (i : nat) (d : Direction) :
  gene self !! i = Some d ->
  run (clone initial) (take i (gene self)) = Ret (Some last) ->
  reaches final (clone initial) (take i (gene self)) = false ->
  play_only last d = Ret (Some g) -> Matrix_eq g final = true ->
  calculate_adaptivity self initial final
  = Ret {| gene := take (S i) (gene self); adaptivity := FINAL_ADAPTIVITY |}.
Proof.
  intros Hd Hrun Hno Hp Hg. unfold calculate_adaptivity.
  rewrite <- (take_drop_middle _ _ _ Hd) at 1.
  rewrite (replay_return final _ 0 _ _ 0 last d g _ Hrun Hno Hp Hg).
  cbn [mbind outcome_bind]. do 3 f_equal.
  rewrite length_take_le; [lia|]. apply lookup_lt_Some in Hd. lia.
Qed.

Lemma calculate_adaptivity_reaching_witness :
  calculate_adaptivity {| gene := [RIGHT; LEFT; DOWN; UP]; adaptivity := 0 |} corner corner_down
  = Ret {| gene := take 3 [RIGHT; LEFT; DOWN; UP]; adaptivity := FINAL_ADAPTIVITY |}.
Proof.
  eapply (calculate_adaptivity_reaching {| gene := [RIGHT; LEFT; DOWN; UP]; adaptivity := 0 |}
           corner corner_down _ _ 2 DOWN); reflexivity.
Defined.

(** A genome of legal moves that never reaches [final] is scored on the
    state before its last move: the fitness is
    [positional_adaptivity(last, final)] where [last] is the state the
    genes but the last lead to, whatever the last move gives. *)
Theorem calculate_adaptivity_exhausted (self : Individual) (initial final last g : Matrix)
    (prefix : list Direction) (d : Direction) :
  state initial -> state final ->
  gene self = prefix ++ [d] ->
  run (clone initial) prefix = Ret (Some last) ->
  play_only last d = Ret (Some g) ->
  reaches final (clone initial) (gene self) = false ->
  ∃ value,
    positional_adaptivity last final = Ret value ∧ value <= 0 ∧
    calculate_adaptivity self initial final
    = Ret {| gene := gene self; adaptivity := value |}.
Proof.
  intros Hinit Hfinal Hgene Hrun Hp Hno.
  pose proof (run_state _ _ _ (state_clone _ Hinit) Hrun) as Hlast.
  destruct (positional_adaptivity_total last final Hlast Hfinal) as (value & Hvalue & Hle).
  exists value. split; [done|]. split; [done|]. unfold calculate_adaptivity.
  rewrite Hgene in Hno |- *.
  rewrite (replay_exhausted final prefix 0 _ _ 0 last d g Hrun Hp Hno).
  cbn [mbind outcome_bind]. rewrite Hvalue. done.
Qed.

Lemma calculate_adaptivity_exhausted_witness :
  ∃ value,
    positional_adaptivity
      {| _arrangement := [[1; -1; 2]; [3; 4; 5]; [6; 7; 8]];
         _space_position := Some (0, 1);
         parent := Some (clone corner);
         last_direction := Some RIGHT |} corner_down = Ret value ∧ value <= 0 ∧
    calculate_adaptivity {| gene := [RIGHT; LEFT]; adaptivity := 0 |} corner corner_down
    = Ret {| gene := [RIGHT; LEFT]; adaptivity := value |}.
Proof.
  eapply (calculate_adaptivity_exhausted {| gene := [RIGHT; LEFT]; adaptivity := 0 |}
            corner corner_down _ _ [RIGHT] LEFT).
  - split; reflexivity.
  - split; reflexivity.
  - reflexivity.
  - reflexivity.
  - reflexivity.
  - reflexivity.
Defined.

(** ** What [_evaluate] leaves and returns *)

(** No later individual is fitter. *)
Definition descending (l : list Individual) : Prop :=
  ∀ i j a b, (i <= j)%nat -> l !! i = Some a -> l !! j = Some b ->
             adaptivity b <= adaptivity a.

Lemma descending_cons x l :
  descending (x :: l) <-> (∀ y, y ∈ l -> adaptivity y <= adaptivity x) ∧ descending l.
Proof.
  split.
  - intros H. split.
    + intros y [j Hj]%list_elem_of_lookup. by apply (H 0%nat (S j) x y); [lia| |].
    + intros i j a b Hij Ha Hb. by apply (H (S i) (S j) a b); [lia| |].
  - intros [Hx Hl] [|i] [|j] a b Hij Ha Hb; simpl in *.
    + injection Ha as <-. injection Hb as <-. lia.
    + injection Ha as <-. apply Hx. by eapply list_elem_of_lookup_2.
    + lia.
    + apply (Hl i j a b); [lia|done|done].
Qed.

Lemma insert_desc_descending x l : descending l -> descending (insert_desc x l).
Proof.
  induction l as [|y l IH]; intros Hl.
  - apply descending_cons. split; [|done]. intros y Hy. by apply not_elem_of_nil in Hy.
  - cbn [insert_desc]. apply descending_cons in Hl as [Hy Hl].
    destruct (adaptivity y >? adaptivity x) eqn:Hgt.
    + apply descending_cons. split; [|by apply IH].
      intros z Hz. rewrite insert_desc_Permutation in Hz.
      apply elem_of_cons in Hz as [->|Hz]; [lia|by apply Hy].
    + apply descending_cons. split; [|by apply descending_cons].
      intros z Hz. apply elem_of_cons in Hz as [->|Hz]; [lia|].
      specialize (Hy z Hz). lia.
Qed.

Lemma sort_desc_descending l : descending (sort_desc l).
Proof.
  induction l as [|x l IH]; [by intros [|i] j a b _ Ha|].
  by apply insert_desc_descending.
Qed.

Lemma evaluate_all_length population initial final evaluated :
  evaluate_all population initial final = Ret evaluated ->
  length evaluated = length population.
Proof.
  revert evaluated. induction population as [|x rest IH]; intros evaluated.
  - by intros [= <-].
  - cbn [evaluate_all]. destruct (calculate_adaptivity x initial final); try done.
    cbn [mbind outcome_bind]. destruct (evaluate_all rest initial final); try done.
    cbn [mbind outcome_bind]. intros [= <-]. simpl. by rewrite IH.
Qed.

(** After [_evaluate] the population is the evaluated individuals, as many
    as before, in descending order of fitness: no individual is fitter
    than one before it, and the first is a fittest one. *)
Theorem _evaluate_sorted (self self' : GeneticAlgorithm) (r : option (list SolutionStep)) :
  _evaluate self = Ret (self', r) ->
  ∃ evaluated,
    evaluate_all (population self) (initial (ga_base self)) (final (ga_base self))
    = Ret evaluated ∧
    population self' ≡ₚ evaluated ∧
    length (population self') = length (population self) ∧
    ∀ i j a b, (i <= j)%nat ->
      population self' !! i = Some a -> population self' !! j = Some b ->
      adaptivity b <= adaptivity a.
Proof.
  intros Hrun. apply _evaluate_population in Hrun as (evaluated & Hev & Hpop).
  exists evaluated. split; [done|]. rewrite Hpop. split; [apply sort_desc_Permutation|].
  split.
  - rewrite sort_desc_Permutation. by eapply evaluate_all_length.
  - apply sort_desc_descending.
Qed.

Lemma _evaluate_sorted_witness :
  ∃ evaluated,
    evaluate_all (population small_ga) (initial (ga_base small_ga)) (final (ga_base small_ga))
    = Ret evaluated ∧
    [ {| gene := [DOWN]; adaptivity := FINAL_ADAPTIVITY |};
      {| gene := [RIGHT; UP]; adaptivity := -5 |} ] ≡ₚ evaluated ∧
    length [ {| gene := [DOWN]; adaptivity := FINAL_ADAPTIVITY |};
             {| gene := [RIGHT; UP]; adaptivity := -5 |} ] = length (population small_ga) ∧
    ∀ i j a b, (i <= j)%nat ->
      [ {| gene := [DOWN]; adaptivity := FINAL_ADAPTIVITY |};
        {| gene := [RIGHT; UP]; adaptivity := -5 |} ] !! i = Some a ->
      [ {| gene := [DOWN]; adaptivity := FINAL_ADAPTIVITY |};
        {| gene := [RIGHT; UP]; adaptivity := -5 |} ] !! j = Some b ->
      adaptivity b <= adaptivity a.
Proof.
  eapply (_evaluate_sorted small_ga
            {| ga_base := ga_base small_ga; ga_depth_limit := ga_depth_limit small_ga;
               population := [ {| gene := [DOWN]; adaptivity := FINAL_ADAPTIVITY |};
                               {| gene := [RIGHT; UP]; adaptivity := -5 |} ] |}).
  by vm_compute.
Defined.

(** The loop left by [return]: the genome cut after index [i] is a path of
    legal moves that ends on the grid of [final]. *)
Lemma replay_Returned_run final genes :
  ∀ i0 candidate last_candidate a i,
    0 <= i0 ->
    replay final i0 genes candidate last_candidate a = Ret (Returned i) ->
    ∃ g, run candidate (take (Z.to_nat (i - i0 + 1)) genes) = Ret (Some g) ∧
         Matrix_eq g final = true.
Proof.
  induction genes as [|d genes IH]; intros i0 candidate last a i Hi0; [done|].
  cbn [replay]. destruct (play_only candidate d) as [[next|]| | |] eqn:Hp; try done.
  cbn [mbind outcome_bind]. destruct (Matrix_eq next final) eqn:Heq.
  - intros [= <-]. exists next. replace (i0 - i0 + 1) with 1 by lia.
    simpl. by rewrite Hp.
  - intros Hrun. pose proof (replay_Returned final genes (i0 + 1) next candidate a i ltac:(lia) Hrun) as [Hle _].
    apply IH in Hrun as (g & Hrun & Hg); [|lia]. exists g. split; [|done].
    replace (Z.to_nat (i - i0 + 1)) with (S (Z.to_nat (i - (i0 + 1) + 1))) by lia.
    rewrite firstn_cons. cbn [run]. by rewrite Hp.
Qed.


(** The replay of the best genome returns only along legal moves, one step
    per gene. *)
Lemma evaluate_steps_run genes :
  ∀ last_matrix steps result,
    evaluate_steps genes last_matrix steps = Ret result ->
    ∃ g, run last_matrix genes = Ret (Some g) ∧
         length result = (length steps + length genes)%nat.
Proof.
  induction genes as [|d genes IH]; intros last_matrix steps result.
  - intros [= <-]. exists last_matrix. split; [done|]. simpl. lia.
  - cbn [evaluate_steps run].
    destruct (play_only last_matrix d) as [[current|]| | |] eqn:Hp; try done;
      cbn [mbind outcome_bind].
    + destruct (SolutionStep_init last_matrix current) as [step| | |]; try done.
      cbn [mbind outcome_bind]. intros (g & Hrun & Hlen)%IH. exists g. split; [done|].
      rewrite Hlen, length_app. simpl. lia.
    + by destruct (fetch last_matrix 0 0).
Qed.




(** ** What mutation and selection keep *)

Lemma swap_Permutation {A : Type} (l : list A) (a b : nat) (x y : A) :
  l !! a = Some x -> l !! b = Some y -> <[b := x]> (<[a := y]> l) ≡ₚ l.
Proof.
  intros Ha Hb.
  pose proof (lookup_lt_Some _ _ _ Ha) as Hla. pose proof (lookup_lt_Some _ _ _ Hb) as Hlb.
  apply Permutation_inj. split; [by rewrite !length_insert|].
  exists (fun i => if decide (i = a) then b else if decide (i = b) then a else i). split.
  - intros i j. repeat case_decide; intros; subst; congruence.
  - intros i. cbv beta. destruct (decide (i = b)) as [Hib|Hib].
    + subst i. rewrite list_lookup_insert_eq by (by rewrite length_insert).
      destruct (decide (b = a)) as [Heq|Hne]; [congruence|].
      done.
    + rewrite list_lookup_insert_ne by done.
      destruct (decide (i = a)) as [Hia|Hia].
      * subst i. by rewrite list_lookup_insert_eq.
      * by rewrite list_lookup_insert_ne.
Qed.

Lemma swap_genes_Permutation gene pos_a pos_b gene' :
  swap_genes gene pos_a pos_b = Ret gene' -> gene' ≡ₚ gene.
Proof.
  unfold swap_genes.
  destruct (gene !! Z.to_nat pos_b) as [gene_b|] eqn:Hb; [|done].
  destruct (gene !! Z.to_nat pos_a) as [gene_a|] eqn:Ha; [|done].
  intros [= <-]. by apply swap_Permutation.
Qed.

Lemma mutate_loop_Permutation fuel rnd depth_limit population :
  ∀ k mutated k',
    mutate_loop fuel rnd k depth_limit population = Ret (mutated, k') ->
    Forall2 (fun old new => gene new ≡ₚ gene old ∧ adaptivity new = adaptivity old)
      population mutated.
Proof.
  induction population as [|individual rest IH]; intros k mutated k'.
  - intros [= <- <-]. constructor.
  - cbn [mutate_loop]. cbv zeta.
    destruct (random_below rnd k MUTATE_POSSIBILITY).
    + destruct (randrange rnd (k + 1) depth_limit) as [pos_a| | |]; try done.
      cbn [mbind outcome_bind].
      destruct (randrange rnd (k + 1 + 1) depth_limit) as [pos_b| | |]; try done.
      cbn [mbind outcome_bind].
      destruct (resample fuel rnd (k + 1 + 2) depth_limit pos_a pos_b) as [[pos k1]| | |];
        try done.
      cbn [mbind outcome_bind fst snd].
      destruct (swap_genes (gene individual) pos_a pos) as [gene'| | |] eqn:Hswap; try done.
      cbn [mbind outcome_bind].
      destruct (mutate_loop fuel rnd k1 depth_limit rest) as [[rest' k2]| | |] eqn:Hrest;
        try done.
      cbn [mbind outcome_bind fst snd]. intros [= <- <-]. constructor; [|by eapply IH].
      split; [|done]. simpl. by eapply swap_genes_Permutation.
    + destruct (mutate_loop fuel rnd (k + 1) depth_limit rest) as [[rest' k2]| | |] eqn:Hrest;
        try done.
      cbn [mbind outcome_bind fst snd]. intros [= <- <-]. constructor; [done|by eapply IH].
Qed.

(** A mutation only reorders genes: when [_mutate] returns, every
    individual has the genes it had, each as often as before, and the
    fitness stored with it is the one computed before the mutation. *)
Theorem _mutate_permutes (fuel : nat) (rnd : Random) (k k' : nat)
    (self self' : GeneticAlgorithm) :
  _mutate fuel rnd k self = Ret (self', k') ->
  Forall2 (fun old new => gene new ≡ₚ gene old ∧ adaptivity new = adaptivity old)
    (population self) (population self').
Proof.
  unfold _mutate.
  destruct (mutate_loop fuel rnd k (ga_depth_limit self) (population self))
    as [[mutated k1]| | |] eqn:Hloop; try done.
  cbn [mbind outcome_bind fst snd]. intros [= <- <-]. cbn [population].
  by eapply mutate_loop_Permutation.
Qed.

Lemma _mutate_permutes_witness :
  Forall2 (fun old new => gene new ≡ₚ gene old ∧ adaptivity new = adaptivity old)
    (population {| ga_base := SolutionAlgorithm_init corner corner_down;
                   ga_depth_limit := 3;
                   population := [ {| gene := [LEFT; UP; DOWN]; adaptivity := 4 |} ] |})
    [ {| gene := [LEFT; DOWN; UP]; adaptivity := 4 |} ].
Proof.
  apply (_mutate_permutes 3 counting 0 3
           {| ga_base := SolutionAlgorithm_init corner corner_down;
              ga_depth_limit := 3;
              population := [ {| gene := [LEFT; UP; DOWN]; adaptivity := 4 |} ] |}
           {| ga_base := SolutionAlgorithm_init corner corner_down;
              ga_depth_limit := 3;
              population := [ {| gene := [LEFT; DOWN; UP]; adaptivity := 4 |} ] |}).
  reflexivity.
Defined.

Lemma Individual_clone_id (a : Individual) : Individual_clone a = a.
Proof. by destruct a. Qed.

(** Selection brings any non-empty population, whatever its size, to
    [POPULATION_SIZE] individuals, each of them one of the old population,
    and uses two draws for each. *)
Theorem _select_resizes (rnd : Random) (k fuel : nat) (self : GeneticAlgorithm) :
  population self ≠ [] -> (Z.to_nat POPULATION_SIZE <= fuel)%nat ->
  ∃ self',
    _select fuel rnd k self = Ret (self', (k + 2 * Z.to_nat POPULATION_SIZE)%nat) ∧
    Z.of_nat (length (population self')) = POPULATION_SIZE ∧
    ∀ individual, individual ∈ population self' -> individual ∈ population self.
Proof.
  intros Hne Hfuel.
  destruct (select_loop_spec rnd (population self) (Z.to_nat POPULATION_SIZE) Hne fuel k [])
    as (added & Hloop & Hlen & Hadded); [done|done|].
  unfold _select. rewrite Hloop. cbn [mbind outcome_bind fst snd app].
  eexists. split; [done|]. cbn [population]. split; [rewrite Hlen; done|].
  intros individual [n Hn]%list_elem_of_lookup.
  destruct (choice_total rnd (k + 2 * n) (population self) Hne) as (a & Ha & Hina).
  destruct (choice_total rnd (k + 2 * n + 1) (population self) Hne) as (b & Hb & Hinb).
  pose proof (lookup_lt_Some _ _ _ Hn) as Hlt. rewrite Hlen in Hlt.
  rewrite (Hadded n a b Hlt Ha Hb) in Hn.
  injection Hn as <-. unfold winner. rewrite !Individual_clone_id. by destruct (_ >=? _).
Qed.

Lemma _select_resizes_witness :
  ∃ self',
    _select (Z.to_nat POPULATION_SIZE) counting 0 small_ga
    = Ret (self', (0 + 2 * Z.to_nat POPULATION_SIZE)%nat) ∧
    Z.of_nat (length (population self')) = POPULATION_SIZE ∧
    ∀ individual, individual ∈ population self' -> individual ∈ population small_ga.
Proof.
  apply (_select_resizes counting 0 (Z.to_nat POPULATION_SIZE) small_ga); [done|lia].
Defined.

(** ** The steps of a reconstructed path *)

Lemma walk_parents_acc m :
  ∀ acc, walk_parents m acc = (steps ← walk_parents m []; Ret (acc ++ steps)).
Proof.
  induction m as [a s d|a s p d IH] using Matrix_ind; intros acc.
  - cbn [walk_parents mbind outcome_bind]. by rewrite app_nil_r.
  - cbn [walk_parents]. destruct (SolutionStep_init p _) as [step| | |]; try done.
    cbn [mbind outcome_bind app]. rewrite (IH (acc ++ [step])), (IH [step]).
    destruct (walk_parents p []) as [steps| | |]; try done.
    cbn [mbind outcome_bind]. by rewrite <- app_assoc.
Qed.

Lemma reconstruct_snoc p n steps step :
  parent n = Some p -> reconstruct p = Ret steps -> SolutionStep_init p n = Ret step ->
  reconstruct n = Ret (steps ++ [step]).
Proof.
  intros Hpar Hrec Hstep. rewrite (parent_Some n p Hpar). unfold reconstruct in *.
  cbn [walk_parents]. rewrite <- (parent_Some n p Hpar). rewrite Hstep.
  cbn [mbind outcome_bind app]. rewrite walk_parents_acc.
  destruct (walk_parents p []) as [l| | |]; try done. cbn [mbind outcome_bind] in *.
  injection Hrec as <-. cbn [app]. by rewrite reverse_cons.
Qed.

(** The step list reconstructed for the end of a path of legal moves from
    a root without parent tells the path move by move: it has one step
    per move, and the step of the [k]-th move shows the grid that move
    gives and clicks the number that the move slides into the blank, the
    one found before the move where the blank is after it. *)
Theorem reconstruct_path (root g : Matrix) (ds : list Direction) :
  state root -> parent root = None -> run root ds = Ret (Some g) ->
  ∃ steps,
    reconstruct g = Ret steps ∧ length steps = length ds ∧
    ∀ k d, ds !! k = Some d ->
      ∃ p n v x y,
        run root (take k ds) = Ret (Some p) ∧ play_only p d = Ret (Some n) ∧
        steps !! k = Some {| click := Some v; target := clone n |} ∧
        _space_position n = Some (x, y) ∧ fetch p x y = Ret v ∧ v ≠ SPACE_VALUE.
Proof.
  intros Hroot Hpar. revert g. induction ds as [|d0 ds IH] using rev_ind; intros g Hrun.
  - injection Hrun as <-. exists []. split.
    + destruct root as [a s p d]. simpl in Hpar. by subst p.
    + split; [done|]. intros k d Hk. by rewrite lookup_nil in Hk.
  - apply run_snoc_Some in Hrun as (m' & Hrun' & Hp).
    destruct (IH m' Hrun') as (steps & Hrec & Hlen & Hsteps).
    pose proof (run_state root ds m' Hroot Hrun') as Hm'.
    destruct (play_only_Some m' d0 g Hm' Hp)
      as (x & y & v & Hsp & Hlegal & Hv & Hvn & Hg & Hspg & Hparg & _).
    destruct (SolutionStep_init_play_only m' d0 g Hm' Hp) as (x' & y' & v' & Hsp' & Hv' & _ & Hstep).
    rewrite Hsp in Hsp'. injection Hsp' as <- <-. rewrite Hv in Hv'. injection Hv' as <-.
    exists (steps ++ [{| click := Some v; target := clone g |}]).
    split; [by apply (reconstruct_snoc m')|]. split; [rewrite !length_app; simpl; lia|].
    intros k d Hk. destruct (decide (k < length ds)%nat) as [Hlt|Hge].
    + rewrite lookup_app_l in Hk by done.
      destruct (Hsteps k d Hk) as (p & n & w & a & b & H1 & H2 & H3 & H4).
      exists p, n, w, a, b. rewrite take_app_le by lia. split; [done|]. split; [done|].
      rewrite lookup_app_l by lia. done.
    + pose proof (lookup_lt_Some _ _ _ Hk) as Hk'. rewrite length_app in Hk'. simpl in Hk'.
      assert (k = length ds) as -> by lia.
      rewrite list_lookup_middle in Hk by done. injection Hk as <-.
      exists m', g, v, (destination x y d0).1, (destination x y d0).2.
      rewrite take_app_length. split; [done|]. split; [done|]. split.
      * rewrite <- Hlen. by rewrite list_lookup_middle.
      * split; [by rewrite Hspg; destruct (destination x y d0)|]. split; [|done].
        by apply fetch_Ret.
Qed.

Lemma reconstruct_path_witness :
  ∃ steps,
    reconstruct (Build_Matrix [[1; 2; -1]; [4; 5; 3]; [6; 7; 8]] (Some (0, 2))
                   (Some centre_then_right) (Some UP)) = Ret steps ∧
    length steps = length [RIGHT; UP] ∧
    ∀ k d, [RIGHT; UP] !! k = Some d ->
      ∃ p n v x y,
        run centre (take k [RIGHT; UP]) = Ret (Some p) ∧ play_only p d = Ret (Some n) ∧
        steps !! k = Some {| click := Some v; target := clone n |} ∧
        _space_position n = Some (x, y) ∧ fetch p x y = Ret v ∧ v ≠ SPACE_VALUE.
Proof.
  apply (reconstruct_path centre _ [RIGHT; UP]); [split; reflexivity|reflexivity|reflexivity].
Defined.

(** ** Comparing two grids *)

(** [differentiate] does not depend on the order of its arguments, and it
    returns the empty set exactly when the two grids are equal. *)
Theorem differentiate_symmetric (old new : Matrix) :
  shaped (_arrangement old) -> shaped (_arrangement new) ->
  ∃ difference,
    differentiate old new = Ret difference ∧
    differentiate new old = Ret difference ∧
    (difference = ∅ <-> Matrix_eq old new = true).
Proof.
  intros Ho Hn.
  destruct (differentiate_spec old new Ho Hn) as (d1 & H1 & Hd1).
  destruct (differentiate_spec new old Hn Ho) as (d2 & H2 & Hd2).
  assert (d2 = d1) as ->.
  { apply set_eq. intros n. rewrite Hd1, Hd2. split.
    - intros (i & j & a & b & Hij & Ha & Hb & Hne & Hor).
      exists i, j, b, a. split; [done|]. split; [done|]. split; [done|]. split; [congruence|tauto].
    - intros (i & j & a & b & Hij & Ha & Hb & Hne & Hor).
      exists i, j, b, a. split; [done|]. split; [done|]. split; [done|]. split; [congruence|tauto]. }
  exists d1. split; [done|]. split; [done|]. split.
  - intros ->. apply bool_decide_eq_true. apply shaped_ext; [done|done|].
    intros i j Hij.
    destruct (shaped_cell _ i j Ho Hij) as [a Ha], (shaped_cell _ i j Hn Hij) as [b Hb].
    rewrite Ha, Hb. destruct (decide (a = b)) as [->|Hne]; [done|]. exfalso.
    apply (not_elem_of_empty (C := gset Z) a). apply Hd1. exists i, j, a, b. tauto.
  - intros Heq%bool_decide_eq_true. apply set_eq. intros n. rewrite Hd1. split.
    + intros (i & j & a & b & Hij & Ha & Hb & Hne & Hor). rewrite Heq in Ha. congruence.
    + intros H. by apply not_elem_of_empty in H.
Qed.

Lemma differentiate_symmetric_witness :
  ∃ difference,
    differentiate centre centre_right = Ret difference ∧
    differentiate centre_right centre = Ret difference ∧
    (difference = ∅ <-> Matrix_eq centre centre_right = true).
Proof. apply (differentiate_symmetric centre centre_right); reflexivity. Defined.

(** ** The positional fitness at the goal *)

(** The position of a cell in the grid read row by row. *)
Definition flat (i j : Z) : nat := Z.to_nat (MATRIX_SIZE * i + j).

Lemma cell_flat arrangement i j :
  shaped arrangement -> in_bounds i j ->
  cell arrangement i j = mjoin arrangement !! flat i j.
Proof.
  intros (a & b & c & d & e & f & g & h & k & ->)%shaped_inv Hb.
  by apply in_bounds_cases in Hb as [[->|[->| ->]] [->|[->| ->]]].
Qed.

(** In a grid without repeated number a number tells its cell. *)
Lemma cell_inj arrangement i j m n v :
  shaped arrangement -> NoDup (mjoin arrangement) ->
  in_bounds i j -> in_bounds m n ->
  cell arrangement i j = Some v -> cell arrangement m n = Some v -> (m, n) = (i, j).
Proof.
  intros Hs Hnd Hij Hmn Hv Hw.
  rewrite cell_flat in Hv, Hw by done.
  pose proof (proj1 (NoDup_alt _) Hnd _ _ _ Hv Hw) as Heq.
  unfold flat, in_bounds, MATRIX_SIZE in *. f_equal; lia.
Qed.

Lemma positional_inner_off ideal element i j positions :
  ∀ value,
    shaped (_arrangement ideal) ->
    (∀ m n, (m, n) ∈ positions ->
       in_bounds m n ∧ (cell (_arrangement ideal) m n = Some element -> (m, n) = (i, j))) ->
    positional_inner ideal element i j positions value = Ret value.
Proof.
  induction positions as [|[m n] rest IH]; intros value Hs Hall; [done|].
  cbn [positional_inner].
  destruct (Hall m n ltac:(left)) as [Hmn Hinj].
  destruct (fetch_spec ideal m n Hs Hmn) as (number & Hf & Hc). rewrite Hf.
  cbn [mbind outcome_bind].
  rewrite IH; [|done|intros m' n' H; apply Hall; by right].
  destruct (number =? element) eqn:Heq; [|done]. apply Z.eqb_eq in Heq as ->.
  pose proof (Hinj Hc) as Hpos. injection Hpos as -> ->.
  do 2 f_equal. rewrite !Z.sub_diag. simpl. lia.
Qed.

Lemma positional_outer_same target ideal positions :
  ∀ value,
    shaped (_arrangement target) -> _arrangement ideal = _arrangement target ->
    NoDup (mjoin (_arrangement target)) ->
    (∀ i j, (i, j) ∈ positions -> in_bounds i j) ->
    positional_outer target ideal positions value = Ret value.
Proof.
  induction positions as [|[i j] rest IH]; intros value Hs Heq Hnd Hall; [done|].
  cbn [positional_outer].
  pose proof (Hall i j ltac:(left)) as Hij.
  destruct (fetch_spec target i j Hs Hij) as (element & Hf & Hc). rewrite Hf.
  cbn [mbind outcome_bind].
  rewrite positional_inner_off.
  - cbn [mbind outcome_bind]. apply IH; [done|done|done|]. intros i' j' H. apply Hall. by right.
  - by rewrite Heq.
  - intros m n Hmn%elem_of_cells. split; [done|]. rewrite Heq. intros Hv.
    by apply (cell_inj (_arrangement target) i j m n element).
Qed.

(** On the goal the positional fitness is 0, its greatest value: for two
    matrices with the same 3x3 grid in which no number is repeated,
    [positional_adaptivity] returns 0. *)
Theorem positional_adaptivity_same_grid (target ideal : Matrix) :
  shaped (_arrangement target) -> NoDup (mjoin (_arrangement target)) ->
  Matrix_eq target ideal = true ->
  positional_adaptivity target ideal = Ret 0.
Proof.
  intros Hs Hnd Heq%bool_decide_eq_true. unfold positional_adaptivity.
  apply positional_outer_same; [done|done|done|]. intros i j. by apply elem_of_cells.
Qed.

Lemma positional_adaptivity_same_grid_witness :
  positional_adaptivity centre_then_right centre_right = Ret 0.
Proof.
  apply (positional_adaptivity_same_grid centre_then_right centre_right).
  - reflexivity.
  - apply (bool_decide_unpack _). by vm_compute.
  - reflexivity.
Defined.

(** ** Crossover *)

(** With one position to draw from, the redrawing loop uses up any fuel. *)
Lemma redraw_one rnd fuel : ∀ k, redraw fuel rnd k 1 0 0 = Diverge.
Proof.
  induction fuel as [|fuel IH]; intros k; [done|]. cbn [redraw].
  rewrite decide_True by done. unfold choice_index. rewrite decide_False by done.
  cbn [mbind outcome_bind]. rewrite Z.mod_1_r. apply IH.
Qed.

Lemma redraw_Ret fuel rnd n a :
  ∀ k b b' k', redraw fuel rnd k n a b = Ret (b', k') ->
               (b < n)%nat -> b' ≠ a ∧ (b' < n)%nat.
Proof.
  induction fuel as [|fuel IH]; intros k b b' k'; cbn [redraw].
  - destruct (decide (b = a)); [done|]. by intros [= <- <-].
  - destruct (decide (b = a)); [|by intros [= <- <-]].
    unfold choice_index. destruct (decide (n = 0%nat)); [done|].
    cbn [mbind outcome_bind]. intros Hrun _. eapply IH; [exact Hrun|].
    pose proof (Z.mod_pos_bound (integer rnd k) (Z.of_nat n)). lia.
Qed.

(** At every position the two genomes keep their genes or trade them. *)
Lemma cross_genes_spec rnd positions :
  ∀ k gene_a gene_b gene_a' gene_b' k',
    cross_genes rnd k positions gene_a gene_b = Ret (gene_a', gene_b', k') ->
    length gene_a' = length gene_a ∧ length gene_b' = length gene_b ∧
    ∀ i, (gene_a' !! i = gene_a !! i ∧ gene_b' !! i = gene_b !! i) ∨
         (gene_a' !! i = gene_b !! i ∧ gene_b' !! i = gene_a !! i).
Proof.
  induction positions as [|p rest IH]; intros k gene_a gene_b gene_a' gene_b' k'.
  - intros [= <- <- <-]. split; [done|]. split; [done|]. intros i. by left.
  - cbn [cross_genes]. cbv zeta. destruct (random_below rnd k CROSSOVER_POSSIBILITY).
    + destruct (gene_b !! Z.to_nat p) as [from_b|] eqn:Hb; [|done].
      destruct (gene_a !! Z.to_nat p) as [from_a|] eqn:Ha; [|done].
      intros (Hla & Hlb & Hall)%IH. rewrite length_insert in Hla, Hlb.
      split; [done|]. split; [done|]. intros i.
      pose proof (lookup_lt_Some _ _ _ Ha). pose proof (lookup_lt_Some _ _ _ Hb).
      destruct (decide (i = Z.to_nat p)) as [->|Hne].
      * specialize (Hall (Z.to_nat p)). rewrite !list_lookup_insert_eq in Hall by done.
        rewrite Ha, Hb. tauto.
      * specialize (Hall i). by rewrite !list_lookup_insert_ne in Hall.
    + apply IH.
Qed.

(** The genes the individuals of a population have at position [i]. *)
Definition column (i : nat) (population : list Individual) : list (option Direction) :=
  (fun individual => gene individual !! i) <$> population.

Definition alike (a b : Individual) : Prop :=
  length (gene b) = length (gene a) ∧ adaptivity b = adaptivity a.

Definition kept (old new : list Individual) : Prop :=
  Forall2 alike old new ∧ ∀ i, column i new ≡ₚ column i old.

Lemma kept_refl population : kept population population.
Proof. split; [|done]. apply Forall_Forall2_diag, Forall_forall. done. Qed.

Lemma kept_trans a b c : kept a b -> kept b c -> kept a c.
Proof.
  intros [Hab Pab] [Hbc Pbc]. split.
  - eapply Forall2_trans; [|exact Hab|exact Hbc].
    intros x y z [? ?] [? ?]. split; congruence.
  - intros i. by rewrite Pbc.
Qed.

Lemma Forall2_insert_diag {A : Type} (P : A -> A -> Prop) (l : list A) (i : nat) (x y : A) :
  (∀ z, P z z) -> l !! i = Some x -> P x y -> Forall2 P l (<[i := y]> l).
Proof.
  intros Hrefl. revert i. induction l as [|z l IH]; intros [|i] Hi Hxy; simpl in *; try done.
  - injection Hi as ->. constructor; [done|]. apply Forall_Forall2_diag, Forall_forall. done.
  - constructor; [done|]. by apply IH.
Qed.

Lemma crossover_loop_kept fuel rnd depth_limit rounds :
  ∀ k population population' k',
    crossover_loop fuel rnd k depth_limit rounds population = Ret (population', k') ->
    kept population population'.
Proof.
  induction rounds as [|rounds IH]; intros k population population' k'.
  - intros [= <- <-]. apply kept_refl.
  - cbn [crossover_loop].
    destruct (choice_index rnd k (length population)) as [a| | |] eqn:Ha; try done.
    cbn [mbind outcome_bind].
    destruct (choice_index rnd (k + 1) (length population)) as [b| | |] eqn:Hb; try done.
    cbn [mbind outcome_bind].
    destruct (redraw fuel rnd (k + 2) (length population) a b) as [[b' k1]| | |] eqn:Hr;
      try done.
    cbn [mbind outcome_bind fst snd].
    destruct (population !! a) as [ia|] eqn:Hia; [|done].
    destruct (population !! b') as [ib|] eqn:Hib; [|done].
    destruct (cross_genes rnd k1 (range 0 depth_limit) (gene ia) (gene ib))
      as [[[ga gb] k2]| | |] eqn:Hg; try done.
    cbn [mbind outcome_bind fst snd]. intros Hrest%IH.
    eapply kept_trans; [|exact Hrest].
    assert (b' ≠ a) as Hne.
    { unfold choice_index in Hb. destruct (decide (length population = 0%nat)); [done|].
      injection Hb as <-. eapply redraw_Ret; [exact Hr|].
      pose proof (Z.mod_pos_bound (integer rnd (k + 1)) (Z.of_nat (length population))). lia. }
    destruct (cross_genes_spec _ _ _ _ _ _ _ _ Hg) as (Hla & Hlb & Hall).
    split.
    + eapply Forall2_trans
        with (k := <[a := {| gene := ga; adaptivity := adaptivity ia |}]> population);
        [|apply (Forall2_insert_diag alike _ a ia); [done|done|done]
         |apply (Forall2_insert_diag alike _ b' ib); [done| |done];
          by rewrite list_lookup_insert_ne].
      intros x y z [H1 H2] [H3 H4]. split; [exact (eq_trans H3 H1)|exact (eq_trans H4 H2)].
    + intros i. unfold column. rewrite !list_fmap_insert. cbn [gene].
      destruct (Hall i) as [[Hga Hgb]|[Hga Hgb]].
      * rewrite Hga, Hgb.
        rewrite (list_insert_id _ a) by (by rewrite list_lookup_fmap, Hia).
        by rewrite list_insert_id by (by rewrite list_lookup_fmap, Hib).
      * rewrite Hga, Hgb. apply swap_Permutation; by rewrite list_lookup_fmap, ?Hia, ?Hib.
Qed.

Lemma redraw_fair rnd n a m :
  (0 < n)%nat ->
  ∀ fuel k b,
    Z.to_nat (integer rnd (k + m) `mod` Z.of_nat n) ≠ a -> (m < fuel)%nat -> (b < n)%nat ->
    ∃ b' k', redraw fuel rnd k n a b = Ret (b', k') ∧ (b' < n)%nat.
Proof.
  intros Hn. induction m as [|m IH]; intros fuel k b Hm Hfuel Hb;
    (destruct fuel as [|fuel]; [lia|]); cbn [redraw];
    (destruct (decide (b = a)) as [Heq|Hne]; [|by exists b, k]);
    unfold choice_index; rewrite decide_False by lia; cbn [mbind outcome_bind];
    pose proof (Z.mod_pos_bound (integer rnd k) (Z.of_nat n) ltac:(lia)) as Hbound.
  - rewrite Nat.add_0_r in Hm.
    destruct fuel as [|fuel]; cbn [redraw]; rewrite decide_False by done;
      eexists _, _; (split; [done|lia]).
  - apply IH; [|lia|lia]. by replace (k + 1 + m)%nat with (k + S m)%nat by lia.
Qed.

Lemma cross_genes_total rnd positions :
  ∀ k gene_a gene_b,
    Forall (fun p => 0 <= p < Z.of_nat (length gene_a) ∧ p < Z.of_nat (length gene_b)) positions ->
    ∃ gene_a' gene_b' k', cross_genes rnd k positions gene_a gene_b = Ret (gene_a', gene_b', k').
Proof.
  induction positions as [|p rest IH]; intros k gene_a gene_b Hall.
  - by eexists _, _, _.
  - apply Forall_cons in Hall as [[Hp Hp'] Hall]. cbn [cross_genes]. cbv zeta.
    destruct (random_below rnd k CROSSOVER_POSSIBILITY); [|by apply IH].
    destruct (lookup_lt_is_Some_2 gene_b (Z.to_nat p)) as [from_b ->]; [lia|].
    destruct (lookup_lt_is_Some_2 gene_a (Z.to_nat p)) as [from_a ->]; [lia|].
    apply IH. by rewrite !length_insert.
Qed.

Lemma crossover_loop_total rnd depth_limit bound fuel n rounds :
  (2 <= n)%nat -> fair rnd (Z.of_nat n) bound -> (bound < fuel)%nat ->
  ∀ k population,
    length population = n ->
    Forall (fun individual => depth_limit <= Z.of_nat (length (gene individual))) population ->
    ∃ population' k',
      crossover_loop fuel rnd k depth_limit rounds population = Ret (population', k').
Proof.
  intros Hn Hfair Hfuel. induction rounds as [|rounds IH]; intros k population Hlen Hgenes.
  - by eexists _, _.
  - cbn [crossover_loop]. rewrite Hlen. unfold choice_index at 1 2.
    rewrite !decide_False by lia. cbn [mbind outcome_bind].
    pose proof (Z.mod_pos_bound (integer rnd k) (Z.of_nat n) ltac:(lia)) as Ha.
    pose proof (Z.mod_pos_bound (integer rnd (k + 1)) (Z.of_nat n) ltac:(lia)) as Hb.
    remember (Z.to_nat (integer rnd k `mod` Z.of_nat n)) as a eqn:Ea.
    remember (Z.to_nat (integer rnd (k + 1) `mod` Z.of_nat n)) as b eqn:Eb.
    assert (∃ b' k1, redraw fuel rnd (k + 2) n a b = Ret (b', k1) ∧ (b' < n)%nat)
      as (b' & k1 & Hr & Hb').
    { destruct (Hfair k) as (j & Hj & Hne). destruct j as [|j].
      - exists b, (k + 2)%nat. rewrite Nat.add_0_r in Hne. split; [|lia].
        destruct fuel; cbn [redraw]; rewrite decide_False; (done || lia).
      - apply (redraw_fair rnd n a j); [lia| |lia|lia].
        replace (k + 2 + j)%nat with (k + 1 + S j)%nat by lia.
        pose proof (Z.mod_pos_bound (integer rnd (k + 1 + S j)) (Z.of_nat n) ltac:(lia)). lia. }
    rewrite Hr. cbn [mbind outcome_bind fst snd].
    destruct (lookup_lt_is_Some_2 population a) as [ia Hia]; [lia|].
    destruct (lookup_lt_is_Some_2 population b') as [ib Hib]; [lia|].
    rewrite Hia, Hib.
    rewrite Forall_forall in Hgenes.
    pose proof (Hgenes ia ltac:(by eapply list_elem_of_lookup_2)) as Hga.
    pose proof (Hgenes ib ltac:(by eapply list_elem_of_lookup_2)) as Hgb.
    destruct (cross_genes_total rnd (range 0 depth_limit) k1 (gene ia) (gene ib))
      as (ga & gb & k2 & Hg).
    { apply Forall_forall. intros p Hp%elem_of_seqZ. lia. }
    rewrite Hg. cbn [mbind outcome_bind fst snd].
    destruct (cross_genes_spec _ _ _ _ _ _ _ _ Hg) as (Hla & Hlb & _).
    apply IH; [by rewrite !length_insert|].
    apply Forall_insert; [apply Forall_insert; [by apply Forall_forall|]|]; simpl; lia.
Qed.

(** Crossover trades genes between individuals position by position and
    nothing else.  On a population of at least two individuals whose
    genomes have at least [depth_limit] genes, with a random source that
    sooner or later draws another position, [_crossover] returns; the
    population then has the individuals it had, each with a genome of the
    same length and the fitness stored before, and at every position the
    genes of the population are those it had there, each as often as
    before. *)
Theorem _crossover_keeps (fuel bound : nat) (rnd : Random) (k : nat) (self : GeneticAlgorithm) :
  (2 <= length (population self))%nat ->
  Forall (fun individual => ga_depth_limit self <= Z.of_nat (length (gene individual)))
    (population self) ->
  fair rnd (Z.of_nat (length (population self))) bound -> (bound < fuel)%nat ->
  ∃ self' k',
    _crossover fuel rnd k self = Ret (self', k') ∧
    Forall2 (fun old new => length (gene new) = length (gene old) ∧
                            adaptivity new = adaptivity old)
      (population self) (population self') ∧
    ∀ i, column i (population self') ≡ₚ column i (population self).
Proof.
  intros Hn Hgenes Hfair Hfuel. unfold _crossover.
  destruct (crossover_loop_total rnd (ga_depth_limit self) bound fuel _
              (Z.to_nat CROSSOVER_RANGE) Hn Hfair Hfuel k (population self) eq_refl Hgenes)
    as (crossed & k1 & Hloop).
  rewrite Hloop. cbn [mbind outcome_bind fst snd]. eexists _, _. split; [done|].
  cbn [population]. by apply crossover_loop_kept in Hloop.
Qed.

Definition trio : GeneticAlgorithm :=
  {| ga_base := SolutionAlgorithm_init corner corner_down;
     ga_depth_limit := 2;
     population := [ {| gene := [LEFT; LEFT]; adaptivity := 1 |};
                     {| gene := [UP; UP]; adaptivity := 2 |};
                     {| gene := [DOWN; DOWN]; adaptivity := 3 |} ] |}.

Lemma _crossover_keeps_witness :
  ∃ self' k',
    _crossover 2 counting 0 trio = Ret (self', k') ∧
    Forall2 (fun old new => length (gene new) = length (gene old) ∧
                            adaptivity new = adaptivity old)
      (population trio) (population self') ∧
    ∀ i, column i (population self') ≡ₚ column i (population trio).
Proof.
  apply (_crossover_keeps 2 1 counting 0 trio).
  - unfold trio. simpl. lia.
  - unfold trio. simpl. repeat constructor; simpl; lia.
  - exact fair_counting.
  - lia.
Defined.

(** ** [GeneticAlgorithm.solve] *)









Lemma replay_total final genes :
  ∀ i candidate last_candidate a,
    state candidate -> state last_candidate ->
    ∃ r, replay final i genes candidate last_candidate a = Ret r ∧
         match r with
         | Returned _ => True
         | Left_loop _ last => state last
         end.
Proof.
  induction genes as [|d genes IH]; intros i candidate last_candidate a Hc Hl.
  - by eexists.
  - cbn [replay]. destruct (state_space candidate Hc) as (x & y & Hsp & _).
    destruct (play_only_spec candidate x y d Hc Hsp) as [[_ ->]|[_ [next Hp]]].
    + cbn [mbind outcome_bind]. by eexists.
    + rewrite Hp. cbn [mbind outcome_bind].
      destruct (Matrix_eq next final); [by eexists|].
      apply IH; [|done].
      by destruct (play_only_Some candidate d next Hc Hp) as (? & ? & ? & ? & ? & ? & ? & ? & _).
Qed.

Lemma calculate_adaptivity_total self initial final :
  state initial -> state final ->
  ∃ evaluated, calculate_adaptivity self initial final = Ret evaluated.
Proof.
  intros Hi Hf. unfold calculate_adaptivity.
  destruct (replay_total final (gene self) 0 (clone initial) (clone initial) 0)
    as ([i|a last] & -> & Hlast); [by apply state_clone|by apply state_clone| |];
    cbn [mbind outcome_bind].
  - by eexists.
  - destruct (positional_adaptivity_total last final Hlast Hf) as (value & -> & _).
    cbn [mbind outcome_bind]. by eexists.
Qed.

Lemma evaluate_all_total population initial final :
  state initial -> state final ->
  ∃ evaluated,
    evaluate_all population initial final = Ret evaluated ∧
    Forall2 (fun individual individual' =>
               calculate_adaptivity individual initial final = Ret individual')
      population evaluated.
Proof.
  intros Hi Hf. induction population as [|individual rest (evaluated & IH & Hall)].
  - exists []. split; [done|constructor].
  - destruct (calculate_adaptivity_total individual initial final Hi Hf) as (e & He).
    exists (e :: evaluated). cbn [evaluate_all]. rewrite He, IH. split; [done|].
    by constructor.
Qed.

Lemma evaluate_steps_total genes :
  ∀ last_matrix steps g,
    state last_matrix -> run last_matrix genes = Ret (Some g) ->
    ∃ result, evaluate_steps genes last_matrix steps = Ret result.
Proof.
  induction genes as [|d genes IH]; intros last_matrix steps g Hm Hrun.
  - by eexists.
  - cbn [run evaluate_steps] in *.
    destruct (play_only last_matrix d) as [[current|]| | |] eqn:Hp; try done.
    cbn [mbind outcome_bind] in *.
    destruct (SolutionStep_init_play_only _ _ _ Hm Hp) as (x & y & v & _ & _ & _ & ->).
    cbn [mbind outcome_bind]. apply (IH _ _ g); [|done].
    by destruct (play_only_Some last_matrix d current Hm Hp) as (? & ? & ? & ? & ? & ? & ? & ? & _).
Qed.

(** What [calculate_adaptivity] returns has the sentinel as its fitness
    only with a genome that is a path to [final], when the genome has no
    more than [FINAL_ADAPTIVITY] genes. *)
Lemma calculate_adaptivity_sentinel self initial final evaluated :
  calculate_adaptivity self initial final = Ret evaluated ->
  Z.of_nat (length (gene self)) <= FINAL_ADAPTIVITY ->
  FINAL_ADAPTIVITY <= adaptivity evaluated ->
  adaptivity evaluated = FINAL_ADAPTIVITY ∧
  ∃ g, run (clone initial) (gene evaluated) = Ret (Some g) ∧ Matrix_eq g final = true.
Proof.
  unfold calculate_adaptivity. intros Hcalc Hlen Hfit.
  destruct (replay final 0 (gene self) _ _ 0) as [[i|a' last']| | |] eqn:Hrep; try done;
    cbn [mbind outcome_bind] in Hcalc.
  - injection Hcalc as <-. split; [done|]. cbn [gene].
    apply replay_Returned_run in Hrep as (g & Hg & Hgoal); [|lia].
    replace (i - 0 + 1) with (i + 1) in Hg by lia. by exists g.
  - destruct (positional_adaptivity last' final) as [value| | |] eqn:Hvalue; try done.
    cbn [mbind outcome_bind] in Hcalc. injection Hcalc as <-. cbn [gene adaptivity] in *.
    apply positional_adaptivity_le in Hvalue.
    apply replay_Left_loop in Hrep as [_ Hrep]; [|lia].
    unfold FINAL_ADAPTIVITY in *. lia.
Qed.

(** With a solver in the population the first round answers.  When the
    initial and the final matrix are states, some individual has a genome
    that reaches [final] and no genome has more than [FINAL_ADAPTIVITY]
    genes, [solve] returns a step list, whatever the random source, and
    the list has one step for each move of a path of legal moves from the
    initial grid to the grid of [final]. *)
Theorem GeneticAlgorithm_solve_first_round (self : GeneticAlgorithm) (individual : Individual) :
  state (initial (ga_base self)) -> state (final (ga_base self)) ->
  individual ∈ population self ->
  reaches (final (ga_base self)) (clone (initial (ga_base self))) (gene individual) = true ->
  Forall (fun other => Z.of_nat (length (gene other)) <= FINAL_ADAPTIVITY) (population self) ->
  ∃ steps genes g,
    (∀ fuel rnd k, GeneticAlgorithm_solve fuel rnd k self = Ret (Some steps)) ∧
    run (clone (initial (ga_base self))) genes = Ret (Some g) ∧
    Matrix_eq g (final (ga_base self)) = true ∧
    length steps = length genes.
Proof.
  intros Hi Hf Hin Hreach Hlen.
  destruct (evaluate_all_total (population self) _ _ Hi Hf) as (evaluated & Hev & Hall).
  (* the evaluation of [individual] has the sentinel *)
  apply list_elem_of_lookup in Hin as [n Hn].
  destruct (Forall2_lookup_l _ _ _ _ _ Hall Hn) as (e & He & Hcalc).
  assert (adaptivity e = FINAL_ADAPTIVITY) as Hfit.
  { destruct (calculate_adaptivity_cases _ _ _ _ Hcalc) as [[_ H]|(Hno & Hg & _)]; [done|].
    rewrite Hg in Hno. congruence. }
  (* the first of the sorted population is at least as fit *)
  pose proof (sort_desc_descending evaluated) as Hdesc.
  pose proof (sort_desc_Permutation evaluated) as Hperm.
  destruct (sort_desc evaluated) as [|best rest] eqn:Hsort.
  { apply Permutation_nil_l in Hperm. subst. by rewrite lookup_nil in He. }
  assert (e ∈ best :: rest) as Hebest by (rewrite Hperm; by eapply list_elem_of_lookup_2).
  assert (FINAL_ADAPTIVITY <= adaptivity best) as Hbest.
  { apply list_elem_of_lookup in Hebest as [j Hj]. rewrite <- Hfit.
    apply (Hdesc 0%nat j best e); [lia|done|done]. }
  assert (best ∈ evaluated) as Hbin by (rewrite <- Hperm; by left).
  apply list_elem_of_lookup in Hbin as [m Hm].
  destruct (Forall2_lookup_r _ _ _ _ _ Hall Hm) as (b0 & Hb0 & Hcalc0).
  rewrite Forall_forall in Hlen.
  destruct (calculate_adaptivity_sentinel _ _ _ _ Hcalc0) as (Hfit0 & g & Hrun & Hg);
    [apply Hlen; by eapply list_elem_of_lookup_2|done|].
  destruct (evaluate_steps_total (gene best) (clone (initial (ga_base self))) [] g)
    as (steps & Hsteps); [by apply state_clone|done|].
  exists steps, (gene best), g. split; [|split; [done|split; [done|]]].
  - intros fuel rnd k. unfold GeneticAlgorithm_solve.
    change (Z.to_nat EVOLUTION_ROUND) with (S (Z.to_nat (EVOLUTION_ROUND - 1))).
    cbn [solve_loop]. unfold _evaluate. rewrite Hev. cbn [mbind outcome_bind population].
    rewrite Hsort. rewrite Hfit0, Z.eqb_refl. cbn [ga_base]. rewrite Hsteps. reflexivity.
  - by destruct (evaluate_steps_run _ _ _ _ Hsteps) as (g' & _ & ->).
Qed.

Lemma GeneticAlgorithm_solve_first_round_witness :
  ∃ steps genes g,
    (∀ fuel rnd k, GeneticAlgorithm_solve fuel rnd k small_ga = Ret (Some steps)) ∧
    run (clone (initial (ga_base small_ga))) genes = Ret (Some g) ∧
    Matrix_eq g (final (ga_base small_ga)) = true ∧
    length steps = length genes.
Proof.
  apply (GeneticAlgorithm_solve_first_round small_ga {| gene := [DOWN; RIGHT]; adaptivity := 0 |}).
  - split; reflexivity.
  - split; reflexivity.
  - unfold small_ga. simpl. right. left.
  - reflexivity.
  - unfold small_ga, FINAL_ADAPTIVITY. simpl. repeat constructor; simpl; lia.
Defined.
